(** * WR_scraper: the WordReference conjugation scraper, embedded and verified

    Source files: [app/scraper_core.py], [app/config.py], [app/filters.py].

    Python [str] values are sequences of Unicode code points; they are
    modelled as lists of [N].  Python [dict]s keep insertion order, so they
    are association lists whose update keeps the position of an existing
    key.  The BeautifulSoup tree is an inductive type; the places the code
    holds on to ([Tag] objects) are paths from the root of the soup. *)

From Stdlib Require Import Ascii String.
From Stdlib Require Import List NArith Arith Bool Lia Permutation.
Import ListNotations.
Open Scope N_scope.
Open Scope list_scope.

(** ** Python strings *)

Definition str := list N.

(** An ASCII literal as a Python string. *)
Definition u (s : string) : str := map N_of_ascii (list_ascii_of_string s).

Arguments u s%_string.

Fixpoint str_eqb (a b : str) : bool :=
  match a, b with
  | [], [] => true
  | x :: a', y :: b' => (x =? y) && str_eqb a' b'
  | _, _ => false
  end.

Definition str_in (k : str) (l : list str) : bool := existsb (str_eqb k) l.

(** [str.isspace] on one code point; the same set is what [\s] matches in a
    [str] pattern of [re] and what [str.strip()] removes. *)
Definition is_space (c : N) : bool :=
  ((0x09 <=? c) && (c <=? 0x0d)) || ((0x1c <=? c) && (c <=? 0x1f))
  || (c =? 0x20) || (c =? 0x85) || (c =? 0xa0) || (c =? 0x1680)
  || ((0x2000 <=? c) && (c <=? 0x200a))
  || (c =? 0x2028) || (c =? 0x2029) || (c =? 0x202f) || (c =? 0x205f)
  || (c =? 0x3000).

Definition NBSP : N := 0xa0.
Definition SP : N := 0x20.

(** [s.replace(old, new)] for a one-character [old]. *)
Definition replace1 (old : N) (new : str) (s : str) : str :=
  flat_map (fun c => if c =? old then new else [c]) s.

(** [re.sub(r"\s+", " ", s)]: every maximal run of whitespace becomes one
    space.  [in_run] tells that the previous character belonged to a run
    whose space was already written. *)
Fixpoint sub_ws_run (in_run : bool) (s : str) : str :=
  match s with
  | [] => []
  | c :: r =>
      if is_space c
      then (if in_run then sub_ws_run true r else SP :: sub_ws_run true r)
      else c :: sub_ws_run false r
  end.

Definition re_sub_ws (s : str) : str := sub_ws_run false s.

Fixpoint lstrip (s : str) : str :=
  match s with
  | [] => []
  | c :: r => if is_space c then lstrip r else s
  end.

Definition rstrip (s : str) : str := rev (lstrip (rev s)).

Definition strip (s : str) : str := rstrip (lstrip s).

(** scraper_core.py, [_norm_spaces]. *)
Definition _norm_spaces (s : str) : str :=
  strip (re_sub_ws (replace1 NBSP [SP] s)).

(** Two neighbouring characters of [s] are both whitespace. *)
Definition has_double_ws (s : str) : Prop :=
  exists l a b r, s = l ++ a :: b :: r /\ is_space a = true /\ is_space b = true.

Fixpoint double_wsb (s : str) : bool :=
  match s with
  | a :: (b :: _) as r => (is_space a && is_space b) || double_wsb r
  | _ => false
  end.

Definition head_space (s : str) : bool :=
  match s with [] => false | c :: _ => is_space c end.

Definition last_space (s : str) : bool := head_space (rev s).

Fixpoint starts_with (p s : str) : bool :=
  match p, s with
  | [], _ => true
  | x :: p', y :: s' => (x =? y) && starts_with p' s'
  | _ :: _, [] => false
  end.

(** [s.startswith((p1, p2, ...))]. *)
Definition startswith_any (s : str) (ps : list str) : bool :=
  existsb (fun p => starts_with p s) ps.

(** [s.split(tok)] for a non-empty [tok]: the occurrences of [tok] are taken
    from the left and do not overlap.  [skip] counts the characters of an
    occurrence that are still to be passed over. *)
Fixpoint split_go (tok : str) (skip : nat) (s : str) : list str :=
  match s with
  | [] => [[]]
  | c :: r =>
      match skip with
      | S k => split_go tok k r
      | O =>
          if starts_with tok s
          then [] :: split_go tok (length tok - 1) r
          else match split_go tok 0 r with
               | h :: t => (c :: h) :: t
               | [] => [[c]]
               end
      end
  end.

Definition split (tok s : str) : list str := split_go tok 0 s.

(** [sep.join(l)]. *)
Fixpoint join (sep : str) (l : list str) : str :=
  match l with
  | [] => []
  | [x] => x
  | x :: r => x ++ sep ++ join sep r
  end.

(** [s.rstrip(chars)] for a one-character [chars]. *)
Fixpoint lstrip_char (ch : N) (s : str) : str :=
  match s with
  | [] => []
  | c :: r => if c =? ch then lstrip_char ch r else s
  end.

Definition rstrip_char (ch : N) (s : str) : str := rev (lstrip_char ch (rev s)).

(** Truth value of a string or of a list: non-empty. *)
Definition nonempty {A : Type} (l : list A) : bool :=
  match l with [] => false | _ :: _ => true end.

(** Order of [str] values, by code points, as [sorted] uses it. *)
Fixpoint str_leb (a b : str) : bool :=
  match a, b with
  | [], _ => true
  | _ :: _, [] => false
  | x :: a', y :: b' => (x <? y) || ((x =? y) && str_leb a' b')
  end.

Fixpoint insert_sorted (x : str) (l : list str) : list str :=
  match l with
  | [] => [x]
  | y :: r => if str_leb x y then x :: l else y :: insert_sorted x r
  end.

Definition sorted (l : list str) : list str := fold_right insert_sorted [] l.

(** ** Python dicts: insertion-ordered association lists *)

Section Dict.
Context {V : Type}.

Definition dict : Type := list (str * V).

Fixpoint dict_get (d : dict) (k : str) : option V :=
  match d with
  | [] => None
  | (k', v) :: r => if str_eqb k k' then Some v else dict_get r k
  end.

Definition dict_mem (d : dict) (k : str) : bool :=
  match dict_get d k with Some _ => true | None => false end.

(** [d[k] = v]: an existing key keeps its place, a new key goes last. *)
Fixpoint dict_set (d : dict) (k : str) (v : V) : dict :=
  match d with
  | [] => [(k, v)]
  | (k', v') :: r =>
      if str_eqb k k' then (k', v) :: r else (k', v') :: dict_set r k v
  end.

(** [d.get(k, dflt)]. *)
Definition dict_get_default (d : dict) (k : str) (dflt : V) : V :=
  match dict_get d k with Some v => v | None => dflt end.

Definition keys (d : dict) : list str := map fst d.

(** The keys of a [dict] are pairwise different. *)
Definition wf_dict (d : dict) : Prop := NoDup (keys d).

End Dict.

Arguments dict V : clear implicits.

(** ** The BeautifulSoup tree *)

Set Warnings "-register-all".

(** An attribute value: a string, or the list of values of a multi-valued
    attribute such as [class]. *)
Inductive attr : Type :=
| AttrStr (s : str)
| AttrList (l : list str).

(** A page element.  [Gone shown old] stands where an element was taken out
    of the tree ([extract], then [shown] is [None]) or exchanged for a string
    ([replace_with], then [shown] is that string): the tree shows [shown]
    there, and [old] is the element itself, which the code may still hold. *)
Inductive node : Type :=
| NavigableString (s : str)
| Comment (s : str)
| Tag (name : str) (attrs : dict attr) (contents : list node)
| Gone (shown : option str) (old : node).

(** A [Tag] object held by the code: the path to it from the root of the
    soup, by child positions. *)
Definition ref : Type := list nat.

(** The element a reference stands for. *)
Fixpoint node_at (n : node) (p : ref) {struct n} : option node :=
  match n with
  | Gone _ old => node_at old p
  | Tag _ _ cs =>
      match p with
      | [] => Some n
      | i :: q =>
          (fix child (l : list node) (k : nat) {struct l} : option node :=
             match l, k with
             | [], _ => None
             | c :: _, O => node_at c q
             | _ :: r, S k' => child r k'
             end) cs i
      end
  | _ => match p with [] => Some n | _ :: _ => None end
  end.

(** Change the element a reference stands for. *)
Fixpoint update_at (f : node -> node) (n : node) (p : ref) {struct n} : node :=
  match n with
  | Gone shown old => Gone shown (update_at f old p)
  | Tag nm at_ cs =>
      match p with
      | [] => f n
      | i :: q =>
          Tag nm at_
            ((fix child (l : list node) (k : nat) {struct l} : list node :=
                match l, k with
                | [], _ => []
                | c :: r, O => update_at f c q :: r
                | c :: r, S k' => c :: child r k'
                end) cs i)
      end
  | _ => match p with [] => f n | _ :: _ => n end
  end.

(** [el.extract()]: the element leaves the tree; one that has left already
    stays as it is. *)
Fixpoint extract_at (n : node) (p : ref) {struct n} : node :=
  match n with
  | Gone shown old =>
      match p with
      | [] => n
      | _ :: _ => Gone shown (extract_at old p)
      end
  | Tag nm at_ cs =>
      match p with
      | [] => Gone None n
      | i :: q =>
          Tag nm at_
            ((fix child (l : list node) (k : nat) {struct l} : list node :=
                match l, k with
                | [], _ => []
                | c :: r, O => extract_at c q :: r
                | c :: r, S k' => c :: child r k'
                end) cs i)
      end
  | _ => match p with [] => Gone None n | _ :: _ => n end
  end.

(** The strings below an element, in document order, as [get_text] collects
    them: comments are left out, and so is what has left the tree. *)
Fixpoint strings_of (n : node) : list str :=
  match n with
  | NavigableString s => [s]
  | Comment _ => []
  | Tag _ _ cs => flat_map strings_of cs
  | Gone (Some s) _ => [s]
  | Gone None _ => []
  end.

(** [el.get_text("", strip=False)]. *)
Definition get_text (n : node) : str := concat (strings_of n).

(** [el.get_text(strip=True)]: every string is stripped, the empty ones are
    left out, and the rest is joined without a separator. *)
Definition get_text_strip (n : node) : str :=
  concat (filter nonempty (map strip (strings_of n))).

(** What a search asks of a tag: its name and its attributes. *)
Definition tag_test : Type := str -> dict attr -> bool.

Definition attr_matches (v : attr) (s : str) : bool :=
  match v with
  | AttrStr x => str_eqb x s
  | AttrList l => str_in s l || str_eqb (join [SP] l) s
  end.

Definition has_attr (at_ : dict attr) (k s : str) : bool :=
  match dict_get at_ k with
  | Some v => attr_matches v s
  | None => false
  end.

(** [find_all(name)]. *)
Definition by_name (nm : str) : tag_test := fun n _ => str_eqb n nm.

(** [find_all(name, k=s)], also for [class_] and [attrs={k: s}]. *)
Definition by_name_attr (nm k s : str) : tag_test :=
  fun n at_ => str_eqb n nm && has_attr at_ k s.

Definition self_match (t : tag_test) (n : node) : bool :=
  match n with
  | Tag nm at_ _ => t nm at_
  | _ => false
  end.

(** [el.find_all(...)], as paths from [el]: the tags below [el] that pass the
    test, in document order. *)
Fixpoint find_all_in (t : tag_test) (n : node) {struct n} : list ref :=
  match n with
  | Tag _ _ cs =>
      (fix kids (l : list node) (i : nat) {struct l} : list ref :=
         match l with
         | [] => []
         | c :: r =>
             (if self_match t c then [[i]] else [])
               ++ map (cons i) (find_all_in t c) ++ kids r (S i)
         end) cs O
  | _ => []
  end.

Definition find_all (soup : node) (el : ref) (t : tag_test) : list ref :=
  match node_at soup el with
  | Some n => map (app el) (find_all_in t n)
  | None => []
  end.

(** [el.find(...)]: the first result of [find_all], or [None]. *)
Definition find (soup : node) (el : ref) (t : tag_test) : option ref :=
  hd_error (find_all soup el t).

Definition text_at (soup : node) (el : ref) : str :=
  match node_at soup el with Some n => get_text n | None => [] end.

Definition text_strip_at (soup : node) (el : ref) : str :=
  match node_at soup el with Some n => get_text_strip n | None => [] end.

(** ** config.py *)

Definition BASE : str := u "https://www.wordreference.com/conj/itverbs.aspx".

(** The shipped value of the toggle; the functions below take the toggle as
    [STRICT_CHECKS] so that both settings can be spoken about. *)
Definition STRICT_CHECKS_shipped : bool := false.

Definition EXPECTED : dict (list str) :=
  [ (u "indicativo",
      [u "presente"; u "imperfetto"; u "passato remoto"; u "futuro semplice"]);
    (u "tempi composti",
      [u "passato prossimo"; u "trapassato prossimo"; u "trapassato remoto";
       u "futuro anteriore"]);
    (u "congiuntivo",
      [u "presente"; u "imperfetto"; u "passato"; u "trapassato"]);
    (u "condizionale", [u "presente"; u "passato"]);
    (u "imperativo", [u "presente"]) ].

Definition PERSON_ORDER_DEFAULT : list str :=
  [u "io"; u "tu"; u "lui, lei, Lei, egli"; u "noi"; u "voi";
   u "loro, Loro, essi"].

Definition PERSON_ORDER_IMPERATIVE : list str :=
  [u ""; u "(tu)"; u "(Lei)"; u "(noi)"; u "(voi)"; u "(Loro)"].

(** ** scraper_core.py *)

(** The exceptions the code raises or lets through. *)
Inductive exn : Type :=
| ValueError (msg : str)
| RequestException (msg : str)
| AssertionError (msg : str)
| TypeError (msg : str)
| OtherException (msg : str).

(** What the process does to the outside, in the order it happens. *)
Inductive event : Type :=
| EvGet (url : str)
| EvSleep (seconds : nat)
| EvStderr (line : str).

(** How one call of [requests.get] followed by [raise_for_status] ends. *)
Inductive net_outcome : Type :=
| NetText (body : str)
| NetRequestException (msg : str)
| NetOther (msg : str).

Definition result (A : Type) : Type := (A + exn)%type.

Record header : Type := mk_header {
  h_model : option str;
  h_forms : dict str
}.

Definition tense_map_t : Type := dict str.
Definition mood_map_t : Type := dict tense_map_t.
Definition conjugations_t : Type := dict mood_map_t.

(** The dict that [scrape_conjugations] returns. *)
Record scrape_result : Type := mk_scrape_result {
  queried : str;
  url : str;
  model : option str;
  principal_forms : dict str;
  auxiliary : option str;
  conjugations : conjugations_t
}.

Definition TOKEN : str := u "<<<BR>>>".

(** U+21D2, the arrow of the pronominal form. *)
Definition ARROW : N := 0x21d2.

(** U+00F2, the last letter of the future forms of the auxiliaries. *)
Definition O_GRAVE : N := 0xf2.

Definition count_gets (tr : list event) : nat :=
  List.length (filter (fun e => match e with EvGet _ => true | _ => false end) tr).

(** The loop [for br in td.find_all("br"): br.replace_with(TOKEN)], seen from
    an element below [td]. *)
Fixpoint replace_br (n : node) : node :=
  match n with
  | Tag nm at_ cs =>
      if str_eqb nm (u "br")
      then Gone (Some TOKEN) (Tag nm at_ (map replace_br cs))
      else Tag nm at_ (map replace_br cs)
  | other => other
  end.

Definition replace_br_below (td : node) : node :=
  match td with
  | Tag nm at_ cs => Tag nm at_ (map replace_br cs)
  | other => other
  end.

(** [lines_from_td_br_only], on the cell itself: the lines, and the cell as
    the function leaves it. *)
Definition lines_from_td_br_only (td : node) : list str * node :=
  let td' := replace_br_below td in
  let raw := get_text td' in
  let parts := map _norm_spaces (split TOKEN raw) in
  (filter nonempty parts, td').

(** The same on a cell of the soup. *)
Definition lines_from_td_at (soup : node) (td : ref) : list str * node :=
  match node_at soup td with
  | Some n => (fst (lines_from_td_br_only n), update_at replace_br_below soup td)
  | None => ([], soup)
  end.

(** [enumerate(l)]. *)
Fixpoint enumerate_from {A : Type} (i : nat) (l : list A) : list (nat * A) :=
  match l with
  | [] => []
  | x :: r => (i, x) :: enumerate_from (S i) r
  end.

Definition enumerate {A : Type} (l : list A) : list (nat * A) :=
  enumerate_from O l.

(** [_ordered_tense_map]; the parameter [tense] is not used by the code. *)
Definition _ordered_tense_map (tense_map : dict str) (mood tense : str)
  : dict str :=
  let desired :=
    if str_eqb mood (u "imperativo")
    then PERSON_ORDER_IMPERATIVE else PERSON_ORDER_DEFAULT in
  let ordered :=
    fold_left
      (fun ordered k =>
         match dict_get tense_map k with
         | Some v => dict_set ordered k v
         | None => ordered
         end)
      desired [] in
  fold_left
    (fun ordered kv =>
       if dict_mem ordered (fst kv) then ordered
       else dict_set ordered (fst kv) (snd kv))
    tense_map ordered.

(** [_detect_auxiliary], after the lower-casing function. *)
Definition essere_prefixes : list str :=
  [u "sono "; u "ero "; u "sar" ++ [O_GRAVE] ++ u " "].

Definition avere_prefixes : list str :=
  [u "ho "; u "avevo "; u "avr" ++ [O_GRAVE] ++ u " "].

Section Program.

(** [str.lower], of the Python library. *)
Variable lower : str -> str.

(** [urlencode({'v': verb})], of [urllib.parse]. *)
Variable urlencode_v : str -> str.

(** [BeautifulSoup(html, "lxml")]. *)
Variable parse_html : str -> node.

(** The network: how the [k]-th request of the run, for a given URL, ends. *)
Variable net : nat -> str -> net_outcome.

(** The toggle of config.py. *)
Variable STRICT_CHECKS : bool.

Definition build_url (verb : str) : result str :=
  let verb := strip verb in
  if nonempty verb
  then inl (BASE ++ u "?" ++ urlencode_v verb)
  else inr (ValueError (u "Empty verb provided.")).

(** The loop of [fetch_html]: [remaining] attempts are left of [tries]. *)
Fixpoint fetch_attempts (url : str) (tries remaining : nat)
    (last_err : option str) (tr : list event) : result str * list event :=
  match remaining with
  | O =>
      match last_err with
      | Some e => (inr (RequestException e), tr)
      | None =>
          (inr (TypeError (u "exceptions must derive from BaseException")), tr)
      end
  | S rem =>
      let attempt := (tries - rem)%nat in
      let tr1 := tr ++ [EvGet url] in
      match net (count_gets tr) url with
      | NetText body => (inl body, tr1)
      | NetRequestException e =>
          let tr2 :=
            if (attempt <? tries)%nat then tr1 ++ [EvSleep attempt] else tr1 in
          fetch_attempts url tries rem (Some e) tr2
      | NetOther e => (inr (OtherException e), tr1)
      end
  end.

(** [fetch_html(url, timeout, tries)]; the time-out only bounds how long one
    request may take and is left to [net]. *)
Definition fetch_html_tries (url : str) (tries : nat) (tr : list event)
  : result str * list event :=
  fetch_attempts url tries tries None tr.

(** [fetch_html(url)], with the default [tries=2]. *)
Definition fetch_html (url : str) (tr : list event) : result str * list event :=
  fetch_html_tries url 2 tr.

(** The value that [parse_principal_forms] stores for the [i]-th label. *)
Definition form_value (values : list str) (i : nat) (lbl : str) : str :=
  let val := if (i <? List.length values)%nat then nth i values [] else [] in
  if str_eqb lbl (u "forma pronominale")
  then strip (replace1 ARROW [] val)
  else val.

(** The loop [for i, lbl in enumerate(labels)] of [parse_principal_forms]. *)
Definition pair_forms (values labels : list str) : dict str :=
  fold_left
    (fun forms il =>
       dict_set forms (snd il) (form_value values (fst il) (snd il)))
    (enumerate labels) [].

Definition parse_principal_forms (soup : node) : header * node :=
  let model :=
    match find soup [] (by_name (u "h3")) with
    | Some h3 => Some (text_strip_at soup h3)
    | None => None
    end in
  match find soup [] (by_name_attr (u "table") (u "id") (u "conjtable")) with
  | None => (mk_header model [], soup)
  | Some table =>
      match find soup table (by_name (u "tr")) with
      | None => (mk_header model [], soup)
      | Some first_tr =>
          match find_all soup first_tr (by_name (u "td")) with
          | [] => (mk_header model [], soup)
          | label_td :: more =>
              let '(labels, soup1) := lines_from_td_at soup label_td in
              let labels := map (fun lbl => rstrip_char 0x3a (lower lbl)) labels in
              let '(values, soup2) :=
                match more with
                | values_td :: _ => lines_from_td_at soup1 values_td
                | [] => ([], soup1)
                end in
              (mk_header model (pair_forms values labels), soup2)
          end
      end
  end.

(** The body of the loop over the tables of a section, up to the tense map:
    the tense name, the person-to-form dict of the rows, and the soup with
    the arrow spans of the column header taken out. *)
Definition read_table (soup : node) (table : ref) : (str * dict str) * node :=
  let header_tr := find soup table (by_name (u "tr")) in
  let '(tense, soup1) :=
    match header_tr with
    | Some htr =>
        match find soup htr (by_name_attr (u "th") (u "scope") (u "col")) with
        | Some th_col =>
            let spans :=
              find_all soup th_col
                (by_name_attr (u "span") (u "class") (u "arrow")) in
            let soup1 := fold_left extract_at spans soup in
            (Some (lower (text_strip_at soup1 th_col)), soup1)
        | None => (None, soup)
        end
    | None => (None, soup)
    end in
  let tense :=
    match tense with
    | Some t => if nonempty t then t else u "?"
    | None => u "?"
    end in
  let tense_map :=
    fold_left
      (fun tense_map tr =>
         match find soup1 tr (by_name_attr (u "th") (u "scope") (u "row")),
               find soup1 tr (by_name (u "td")) with
         | Some th, Some td =>
             dict_set tense_map (text_strip_at soup1 th)
               (_norm_spaces (text_at soup1 td))
         | _, _ => tense_map
         end)
      (tl (find_all soup1 table (by_name (u "tr")))) [] in
  ((tense, tense_map), soup1).

(** [result[mood][tense] = m], for a [mood] that is a key of [result]. *)
Definition set_tense (res : conjugations_t) (mood tense : str) (m : dict str)
  : conjugations_t :=
  dict_set res mood (dict_set (dict_get_default res mood []) tense m).

(** One table of a section. *)
Definition table_step (mood : str) (st : conjugations_t * node) (table : ref)
  : conjugations_t * node :=
  let '(res, soup) := st in
  let '((tense, tense_map), soup1) := read_table soup table in
  (set_tense res mood tense (_ordered_tense_map tense_map mood tense), soup1).

(** The mood of a section: the lower-cased text of its first [h4]. *)
Definition section_mood (soup : node) (section : ref) : option str :=
  match find soup section (by_name (u "h4")) with
  | Some mood_h4 => Some (lower (text_strip_at soup mood_h4))
  | None => None
  end.

(** One section. *)
Definition section_step (st : conjugations_t * node) (section : ref)
  : conjugations_t * node :=
  let '(res, soup) := st in
  match section_mood soup section with
  | None => st
  | Some mood =>
      let res1 := if dict_mem res mood then res else dict_set res mood [] in
      fold_left (table_step mood)
        (find_all soup section (by_name_attr (u "table") (u "class") (u "neoConj")))
        (res1, soup)
  end.

Definition parse_conjugations (soup : node) : conjugations_t * node :=
  fold_left section_step
    (find_all soup [] (by_name_attr (u "div") (u "class") (u "aa")))
    ([], soup).

Definition _detect_auxiliary (conjugations : conjugations_t) : option str :=
  let pp :=
    dict_get_default
      (dict_get_default conjugations (u "tempi composti") [])
      (u "passato prossimo") [] in
  let io_pp := lower (dict_get_default pp (u "io") []) in
  if startswith_any io_pp essere_prefixes then Some (u "essere")
  else if startswith_any io_pp avere_prefixes then Some (u "avere")
  else None.

(** The messages that [_check_expected] collects. *)
Definition missing_msgs (conjugations : conjugations_t) : list str :=
  flat_map
    (fun mt =>
       let '(mood, tenses) := mt in
       match dict_get conjugations mood with
       | None => [u "Missing mood: " ++ mood]
       | Some got =>
           let diff := filter (fun t => negb (str_in t (keys got))) tenses in
           if nonempty diff
           then [u "Missing tense(s) in " ++ mood ++ u ": "
                   ++ join (u ", ") (sorted diff)]
           else []
       end)
    EXPECTED.

Definition _check_expected (conjugations : conjugations_t) (tr : list event)
  : result unit * list event :=
  let missing := missing_msgs conjugations in
  if nonempty missing then
    let msg := join (u " | ") missing in
    if STRICT_CHECKS then (inr (AssertionError msg), tr)
    else (inl tt, tr ++ [EvStderr (u "[WARN] " ++ msg)])
  else (inl tt, tr).

Definition scrape_conjugations (verb : str) (tr : list event)
  : result scrape_result * list event :=
  match build_url verb with
  | inr e => (inr e, tr)
  | inl url =>
      match fetch_html url tr with
      | (inr e, tr1) => (inr e, tr1)
      | (inl html, tr1) =>
          let soup := parse_html html in
          let '(header, soup1) := parse_principal_forms soup in
          let '(conjugations, _) := parse_conjugations soup1 in
          let auxiliary := _detect_auxiliary conjugations in
          match _check_expected conjugations tr1 with
          | (inr e, tr2) => (inr e, tr2)
          | (inl _, tr2) =>
              (inl (mk_scrape_result verb url (h_model header) (h_forms header)
                      auxiliary conjugations), tr2)
          end
      end
  end.

(** ** filters.py *)

(** [_to_set]; only membership in the set and its truth value are used, so
    the set is the list of its elements. *)
Definition _to_set (csv : option str) : option (list str) :=
  match csv with
  | None => None
  | Some s =>
      if nonempty s
      then Some (map (fun p => lower (strip p))
                   (filter (fun p => nonempty (strip p)) (split (u ",") s)))
      else None
  end.

(** Truth value of a set that may be [None]. *)
Definition set_true (xset : option (list str)) : bool :=
  match xset with Some l => nonempty l | None => false end.

Definition in_set (xset : option (list str)) (k : str) : bool :=
  match xset with Some l => str_in k l | None => false end.

(** [xset and k.lower() not in xset]. *)
Definition rejects (xset : option (list str)) (k : str) : bool :=
  set_true xset && negb (in_set xset (lower k)).

(** [OrderedDict(items)]. *)
Definition dict_of_items {V : Type} (items : list (str * V)) : dict V :=
  fold_left (fun d kv => dict_set d (fst kv) (snd kv)) items [].

Definition filter_persons (pset : option (list str)) (person_map : dict str)
  : dict str :=
  if set_true pset
  then dict_of_items
         (filter (fun pf => in_set pset (lower (fst pf))) person_map)
  else person_map.

Definition filter_tenses (tset pset : option (list str)) (tenses_map : mood_map_t)
  : mood_map_t :=
  fold_left
    (fun new_tenses_map tp =>
       let '(tense, person_map) := tp in
       if rejects tset tense then new_tenses_map
       else
         let filtered_person_map := filter_persons pset person_map in
         if nonempty filtered_person_map
         then dict_set new_tenses_map tense filtered_person_map
         else new_tenses_map)
    tenses_map [].

Definition filter_moods (mset tset pset : option (list str)) (conj : conjugations_t)
  : conjugations_t :=
  fold_left
    (fun new_conj mt =>
       let '(mood, tenses_map) := mt in
       if rejects mset mood then new_conj
       else
         let new_tenses_map := filter_tenses tset pset tenses_map in
         if nonempty new_tenses_map
         then dict_set new_conj mood new_tenses_map
         else new_conj)
    conj [].

Definition apply_filters (data : scrape_result) (moods tenses persons : option str)
    (full : bool) : scrape_result :=
  if full then data
  else
    let mset := _to_set moods in
    let tset := _to_set tenses in
    let pset := _to_set persons in
    let new_conj := filter_moods mset tset pset (conjugations data) in
    mk_scrape_result (queried data) (url data) (model data)
      (principal_forms data) (auxiliary data) new_conj.

End Program.

(** * The specification's words *)

(** The canonical list of person labels of a mood. *)
Definition desired_order (mood : str) : list str :=
  if str_eqb mood (u "imperativo")
  then PERSON_ORDER_IMPERATIVE else PERSON_ORDER_DEFAULT.

(** The entries whose label is canonical, in the canonical order; labels
    that the data lacks are skipped. *)
Definition canonical_part (desired : list str) (tense_map : dict str)
  : dict str :=
  flat_map
    (fun k => match dict_get tense_map k with
              | Some v => [(k, v)]
              | None => []
              end)
    desired.

(** The entries whose label is not canonical, in the order of extraction. *)
Definition remaining_part (desired : list str) (tense_map : dict str)
  : dict str :=
  filter (fun kv => negb (str_in (fst kv) desired)) tense_map.

(** The value at [table["tempi composti"]["passato prossimo"]["io"]], or
    [None] when a key of the path is missing. *)
Definition io_passato_prossimo (table : conjugations_t) : option str :=
  match dict_get table (u "tempi composti") with
  | Some tenses =>
      match dict_get tenses (u "passato prossimo") with
      | Some persons => dict_get persons (u "io")
      | None => None
      end
  | None => None
  end.

(** The events of the attempts [a+1], ..., [a+m] of one fetch: a request per
    attempt, and before the attempt that is the [n]-th retry a wait of [n]
    units. *)
Fixpoint events_from (url : str) (a m : nat) : list event :=
  match m with
  | O => []
  | S m' =>
      EvGet url ::
        match m' with
        | O => []
        | S _ => EvSleep (S a) :: events_from url (S a) m'
        end
  end.

(** The events of a fetch that ends with its [n]-th attempt. *)
Definition attempt_events (url : str) (n : nat) : list event :=
  events_from url 0 n.

(** The result that a scrape assembles from the verb, the URL and the page. *)
Definition assembled (lower : str -> str) (parse_html : str -> node)
    (verb url html : str) : scrape_result :=
  let soup := parse_html html in
  let header_soup := parse_principal_forms lower soup in
  let conjugations := fst (parse_conjugations lower (snd header_soup)) in
  mk_scrape_result verb url
    (h_model (fst header_soup)) (h_forms (fst header_soup))
    (_detect_auxiliary lower conjugations) conjugations.

(** How a fetch that has [rem] of its [tries] attempts left goes on: it ends
    with the [m]-th of them, every attempt before that one failed with a
    transport error, and the last one decides the result. *)
Definition ends_after (net : nat -> str -> net_outcome) (url : str)
    (tries rem : nat) (tr : list event)
    (out : result str * list event) (m : nat) : Prop :=
  (1 <= m <= rem)%nat
  /\ snd out = tr ++ events_from url (tries - rem)%nat m
  /\ (forall i, (i < m - 1)%nat ->
        exists e, net (count_gets tr + i)%nat url = NetRequestException e)
  /\ match net (count_gets tr + (m - 1))%nat url with
     | NetText body => fst out = inl body
     | NetRequestException e => m = rem /\ fst out = inr (RequestException e)
     | NetOther e => fst out = inr (OtherException e)
     end.

(** [table[mood][tense]], or [None] when a key is missing. *)
Definition tense_table (table : conjugations_t) (mood tense : str)
  : option (dict str) :=
  match dict_get table mood with
  | Some tenses => dict_get tenses tense
  | None => None
  end.

(** A tense table as the parser reads it: the mood of its section, its tense
    name and its person map in the canonical order. *)
Definition parsed_table : Type := (str * str * dict str)%type.

(** The tense tables of a page in the order in which the parser reads them:
    the loops of [parse_conjugations], with the tables written down one
    after the other and not stored under their mood and tense. *)
Definition table_log (lower : str -> str) (mood : str)
    (st : list parsed_table * node) (table : ref) : list parsed_table * node :=
  let '(log, soup) := st in
  let '((tense, tense_map), soup1) := read_table lower soup table in
  (log ++ [(mood, tense, _ordered_tense_map tense_map mood tense)], soup1).

Definition section_log (lower : str -> str) (st : list parsed_table * node)
    (section : ref) : list parsed_table * node :=
  let '(log, soup) := st in
  match section_mood lower soup section with
  | None => st
  | Some mood =>
      fold_left (table_log lower mood)
        (find_all soup section (by_name_attr (u "table") (u "class") (u "neoConj")))
        (log, soup)
  end.

Definition parsed_tables (lower : str -> str) (soup : node) : list parsed_table :=
  fst (fold_left (section_log lower)
         (find_all soup [] (by_name_attr (u "div") (u "class") (u "aa")))
         ([], soup)).

(** The person map of the last table of the log that has the given mood and
    tense name. *)
Fixpoint last_table (log : list parsed_table) (mood tense : str)
  : option (dict str) :=
  match log with
  | [] => None
  | (m, t, persons) :: later =>
      match last_table later mood tense with
      | Some p => Some p
      | None =>
          if str_eqb m mood && str_eqb t tense then Some persons else None
      end
  end.

(** The parser and the log are at the same point of the page and the parser
    holds, for every mood and tense, the last table of the log. *)
Definition agree (st : conjugations_t * node) (lg : list parsed_table * node)
  : Prop :=
  snd st = snd lg
  /\ forall mood tense,
       tense_table (fst st) mood tense = last_table (fst lg) mood tense.

(** [a] is [b] with some elements left out, the others in their order. *)
Inductive subseq {A : Type} : list A -> list A -> Prop :=
| subseq_nil : subseq [] []
| subseq_skip (x : A) (a b : list A) : subseq a b -> subseq a (x :: b)
| subseq_keep (x : A) (a b : list A) : subseq a b -> subseq (x :: a) (x :: b).

(** The keys of all tenses and of all persons of a table. *)
Definition all_tense_keys (table : conjugations_t) : list str :=
  flat_map (fun mt => keys (snd mt)) table.

Definition all_person_keys (table : conjugations_t) : list str :=
  flat_map (fun mt => flat_map (fun tp => keys (snd tp)) (snd mt)) table.

(** A selection list as the caller hands it to [apply_filters] (api.py):
    [",".join(l) if l else None]. *)
Definition csv_of (selection : list str) : option str :=
  if nonempty selection then Some (join (u ",") selection) else None.

(** Every level of the table is a dict. *)
Definition wf_table (table : conjugations_t) : Prop :=
  wf_dict table
  /\ forall m tenses, In (m, tenses) table ->
       wf_dict tenses
       /\ forall t persons, In (t, persons) tenses -> wf_dict persons.

(** No tense of the table is without persons and no mood without tenses. *)
Definition no_empty_level (table : conjugations_t) : Prop :=
  forall m tenses, In (m, tenses) table ->
    tenses <> []
    /\ forall t persons, In (t, persons) tenses -> persons <> [].

(** The selection leaves every one of the keys in. *)
Definition covers (lower : str -> str) (xset : option (list str))
    (ks : list str) : Prop :=
  set_true xset = true -> forall k, In k ks -> in_set xset (lower k) = true.

(** The selection is in force and takes none of the keys. *)
Definition misses (lower : str -> str) (xset : option (list str))
    (ks : list str) : Prop :=
  set_true xset = true /\ forall k, In k ks -> in_set xset (lower k) = false.

(** Narrowing in the specification's words: persons are kept when selected,
    within the tenses that are selected, within the moods that are selected;
    a tense left without persons and then a mood left without tenses are
    dropped; what is kept stays in its order. *)
Definition narrow_persons (lower : str -> str) (pset : option (list str))
    (persons : dict str) : dict str :=
  if set_true pset
  then filter (fun pf => in_set pset (lower (fst pf))) persons
  else persons.

Definition narrow_tenses (lower : str -> str) (tset pset : option (list str))
    (tenses : mood_map_t) : mood_map_t :=
  flat_map
    (fun tp =>
       if rejects lower tset (fst tp) then []
       else if nonempty (narrow_persons lower pset (snd tp))
            then [(fst tp, narrow_persons lower pset (snd tp))]
            else [])
    tenses.

Definition narrow_moods (lower : str -> str) (mset tset pset : option (list str))
    (table : conjugations_t) : conjugations_t :=
  flat_map
    (fun mt =>
       if rejects lower mset (fst mt) then []
       else if nonempty (narrow_tenses lower tset pset (snd mt))
            then [(fst mt, narrow_tenses lower tset pset (snd mt))]
            else [])
    table.

(** The cells of the first row of the summary table, when the page has the
    table and the table has a row. *)
Definition summary_cells (soup : node) : option (list ref) :=
  match find soup [] (by_name_attr (u "table") (u "id") (u "conjtable")) with
  | Some table =>
      match find soup table (by_name (u "tr")) with
      | Some first_tr => Some (find_all soup first_tr (by_name (u "td")))
      | None => None
      end
  | None => None
  end.

(** The lines of the label column and of the value column, as the cell line
    splitter gives them. *)
Definition label_cell_lines (soup : node) : list str :=
  match summary_cells soup with
  | Some (label_td :: _) => fst (lines_from_td_at soup label_td)
  | _ => []
  end.

Definition value_cell_lines (soup : node) : list str :=
  match summary_cells soup with
  | Some (label_td :: values_td :: _) =>
      fst (lines_from_td_at (snd (lines_from_td_at soup label_td)) values_td)
  | _ => []
  end.

(** A label: lower-cased, without its trailing colons. *)
Definition clean_label (lower : str -> str) (line : str) : str :=
  rstrip_char 0x3a (lower line).

(** The value that goes with the [i]-th label: the [i]-th value line, or the
    empty string when there is none; for the pronominal form without the
    arrow and trimmed. *)
Definition paired_value (values : list str) (i : nat) (lbl : str) : str :=
  let val := nth i values [] in
  if str_eqb lbl (u "forma pronominale")
  then strip (replace1 ARROW [] val)
  else val.

(** The items of the labels from position [a] on. *)
Definition pairs_from (values : list str) (a : nat) (labels : list str)
  : list (str * str) :=
  map (fun il => (snd il, paired_value values (fst il) (snd il)))
    (enumerate_from a labels).

(** The positional pairs of the two columns. *)
Definition positional_pairs (values labels : list str) : list (str * str) :=
  pairs_from values 0 labels.

(** The value of the last item with the given key. *)
Fixpoint last_value {V : Type} (items : list (str * V)) (k : str) : option V :=
  match items with
  | [] => None
  | (k', v) :: later =>
      match last_value later k with
      | Some x => Some x
      | None => if str_eqb k' k then Some v else None
      end
  end.

(** A cell read in document order: its strings, and a mark wherever a
    line-break element stands. *)
Inductive piece : Type :=
| PText (s : str)
| PBreak.

Fixpoint pieces (n : node) : list piece :=
  match n with
  | NavigableString s => [PText s]
  | Comment _ => []
  | Tag nm _ cs =>
      if str_eqb nm (u "br") then [PBreak] else flat_map pieces cs
  | Gone (Some s) _ => [PText s]
  | Gone None _ => []
  end.

Definition cell_pieces (td : node) : list piece :=
  match td with
  | Tag _ _ cs => flat_map pieces cs
  | other => pieces other
  end.

(** The text between the marks: neighbouring strings are joined as they
    are, and a new line starts at a mark and nowhere else. *)
Fixpoint cut_at_breaks (ps : list piece) : list str :=
  match ps with
  | [] => [[]]
  | PText s :: r =>
      match cut_at_breaks r with
      | h :: t => (s ++ h) :: t
      | [] => [s]
      end
  | PBreak :: r => [] :: cut_at_breaks r
  end.

(** The logical lines of a cell: the text between the line breaks,
    normalized, the empty lines left out. *)
Definition logical_lines (td : node) : list str :=
  filter nonempty (map _norm_spaces (cut_at_breaks (cell_pieces td))).

(** What the cell shows where [replace_br] has been: a string for every
    piece, the sentinel for a mark. *)
Definition piece_text (p : piece) : str :=
  match p with
  | PText s => s
  | PBreak => TOKEN
  end.

(** No string of the cell holds the character with which the sentinel
    starts. *)
Definition sentinel_free (ps : list piece) : Prop :=
  forall s, In (PText s) ps -> ~ In 0x3c s.

(** * The callers: api.py and main.py *)

(** ** models.py *)

Definition Mood_values : list str :=
  [u "indicativo"; u "tempi composti"; u "congiuntivo"; u "condizionale";
   u "imperativo"].

Definition Tense_values : list str :=
  [u "presente"; u "imperfetto"; u "passato remoto"; u "futuro semplice";
   u "passato prossimo"; u "trapassato prossimo"; u "trapassato remoto";
   u "futuro anteriore"; u "passato"; u "trapassato"].

Definition Person_values : list str :=
  [u ""; u "(tu)"; u "(Lei)"; u "(noi)"; u "(voi)"; u "(Loro)";
   u "io"; u "tu"; u "lui, lei, Lei, egli"; u "noi"; u "voi";
   u "loro, Loro, essi"].

Record ConjugateQuery : Type := mk_ConjugateQuery {
  q_v : str;
  q_full : bool;
  q_moods : option (list str);
  q_tenses : option (list str);
  q_persons : option (list str)
}.

Record APIResponse : Type := mk_APIResponse {
  success : bool;
  requested : option ConjugateQuery;
  note : option str;
  error : option str;
  data : option scrape_result
}.

(** An optional list of literals: every item is one of the allowed values. *)
Definition literals_ok (allowed : list str) (l : option (list str)) : bool :=
  match l with
  | None => true
  | Some items => forallb (fun x => str_in x allowed) items
  end.

(** Whether [ConjugateQuery(v=..., full=..., moods=..., ...)] validates:
    [v] has at least one character and every item is a literal of its
    field. *)
Definition query_ok (v : str) (moods tenses persons : option (list str))
  : bool :=
  nonempty v && literals_ok Mood_values moods
  && literals_ok Tense_values tenses && literals_ok Person_values persons.

(** ** api.py *)

(** How a call of the endpoint ends. *)
Inductive reply : Type :=
| HTTPException (status_code : nat) (detail : str)
| JSONResponse (status_code : nat) (content : APIResponse)
| Returned (body : APIResponse).

Definition _csv_to_list (s : option str) : option (list str) :=
  match s with
  | None => None
  | Some s =>
      if nonempty s
      then Some (map strip
                   (filter (fun part => nonempty (strip part)) (split (u ",") s)))
      else None
  end.

(** [",".join(l) if l else None], for a field of the request. *)
Definition csv_of_field (l : option (list str)) : option str :=
  match l with
  | Some items => csv_of items
  | None => None
  end.

(** [str(e)]. *)
Definition exn_message (e : exn) : str :=
  match e with
  | ValueError m | RequestException m | AssertionError m | TypeError m
  | OtherException m => m
  end.

Section Callers.
Variable lower : str -> str.
Variable urlencode_v : str -> str.
Variable parse_html : str -> node.
Variable net : nat -> str -> net_outcome.
Variable STRICT_CHECKS : bool.

(** The environment variable [SCRAPER_API_KEY], read when the module is
    loaded. *)
Variable API_KEY : option str.

(** The text of the first error of a failed validation
    ([ve.errors()[0]["msg"]]), of pydantic. *)
Variable validation_msg :
  str -> option (list str) -> option (list str) -> option (list str) -> str.

(** [not API_KEY or x_api_key != API_KEY]. *)
Definition key_refused (x_api_key : option str) : bool :=
  match API_KEY with
  | None => true
  | Some key =>
      negb (nonempty key)
      || match x_api_key with
         | Some k => negb (str_eqb k key)
         | None => true
         end
  end.

(** The part of [conjugate] that follows the validation of the request. *)
Definition answer (req : ConjugateQuery) (tr : list event)
  : reply * list event :=
  match scrape_conjugations lower urlencode_v parse_html net STRICT_CHECKS
          (q_v req) tr with
  | (inr e, tr1) =>
      (Returned (mk_APIResponse false (Some req) None (Some (exn_message e)) None),
       tr1)
  | (inl scraped, tr1) =>
      if nonempty (conjugations scraped) then
        let filtered :=
          apply_filters lower scraped
            (csv_of_field (q_moods req)) (csv_of_field (q_tenses req))
            (csv_of_field (q_persons req)) (q_full req) in
        if nonempty (conjugations filtered)
        then (Returned (mk_APIResponse true (Some req) None None (Some filtered)),
              tr1)
        else (Returned
                (mk_APIResponse true (Some req)
                   (Some (u "Scrape OK, but filters returned no items."))
                   None (Some filtered)),
              tr1)
      else
        (Returned
           (mk_APIResponse false (Some req) None
              (Some (u "No conjugations found")) None),
         tr1)
  end.

(** [conjugate]: the handler of [GET /conjugate]. *)
Definition conjugate (v : str) (full : bool) (moods tenses persons : option str)
    (x_api_key : option str) (tr : list event) : reply * list event :=
  if key_refused x_api_key
  then (HTTPException 401 (u "Invalid or missing X-API-Key"), tr)
  else
    let ms := _csv_to_list moods in
    let ts := _csv_to_list tenses in
    let ps := _csv_to_list persons in
    if query_ok v ms ts ps
    then answer (mk_ConjugateQuery v full ms ts ps) tr
    else
      (JSONResponse 400
         (mk_APIResponse false None None (Some (validation_msg v ms ts ps)) None),
       tr).

(** ** main.py *)

(** [json.dumps(data, ensure_ascii=False, indent=2)]: the JSON text of a
    result, which runs over several lines. *)
Variable json_dumps : scrape_result -> str.

(** [main], with [sys.argv]; the result is the exit status, [0] when the
    function returns, and the texts printed, one for each call of [print];
    a text may hold several lines.  The functions of main.py that it calls
    are those of scraper_core.py, written out again, with the toggle of
    main.py, which is off. *)
Definition main (argv : list str) (tr : list event)
  : (nat * list str) * list event :=
  match argv with
  | _ :: arg :: _ =>
      let verb := strip arg in
      match scrape_conjugations lower urlencode_v parse_html net false verb tr with
      | (inr e, tr1) => ((2%nat, [u "[ERROR] " ++ exn_message e]), tr1)
      | (inl scraped, tr1) => ((0%nat, [json_dumps scraped]), tr1)
      end
  | _ => ((1%nat, [u "Usage: python main.py <italian_verb>"]), tr)
  end.

End Callers.

(** An item of a selection list: trimmed, not blank, without a comma. *)
Definition selection_item (item : str) : Prop :=
  item <> [] /\ strip item = item /\ ~ In 0x2c item.

(** The number of line breaks among the pieces of a cell. *)
Definition count_breaks (ps : list piece) : nat :=
  List.length
    (filter (fun p => match p with PBreak => true | PText _ => false end) ps).

(** A line as the splitter returns it: not empty, and normalized. *)
Definition normal_line (line : str) : Prop :=
  line <> [] /\ _norm_spaces line = line.

(** A person map in the canonical order of its mood: the canonical labels
    first, in their order, then the others. *)
Definition canonical_ordered (mood : str) (persons : dict str) : Prop :=
  persons = canonical_part (desired_order mood) persons
              ++ remaining_part (desired_order mood) persons.

(** Every tense of every mood of the table has the property [P], and the
    moods and the tenses of a mood are pairwise different. *)
Definition table_all (P : str -> str -> dict str -> Prop)
    (table : conjugations_t) : Prop :=
  wf_dict table
  /\ forall m tenses, In (m, tenses) table ->
       wf_dict tenses
       /\ forall t persons, In (t, persons) tenses -> P m t persons.

(** What holds of every tense that the parser stores. *)
Definition stored_tense (mood tense : str) (persons : dict str) : Prop :=
  tense <> []
  /\ wf_dict persons
  /\ canonical_ordered mood persons
  /\ forall k f, In (k, f) persons -> _norm_spaces f = f.

(** The table has every mood of [EXPECTED] and, under it, every tense that
    [EXPECTED] lists for the mood. *)
Definition covers_expected (table : conjugations_t) : Prop :=
  forall mood tenses, In (mood, tenses) EXPECTED ->
    exists got, dict_get table mood = Some got
                /\ forall t, In t tenses -> In t (keys got).

(** An event of a fetch of [url] with [tries] tries: a request for [url], or
    a wait of at least one and less than [tries] seconds. *)
Definition fetch_event (url : str) (tries : nat) (e : event) : Prop :=
  e = EvGet url \/ exists n, e = EvSleep n /\ (1 <= n < tries)%nat.




(** * Sample data *)

(** [str.lower] on strings whose code points are all below U+0100, where it
    changes one character at a time. *)
Definition lower_cp (c : N) : N :=
  if ((0x41 <=? c) && (c <=? 0x5a))
     || ((0xc0 <=? c) && (c <=? 0xde) && negb (c =? 0xd7))
  then c + 32 else c.

Definition lower_latin1 (s : str) : str := map lower_cp s.

Definition br : node := Tag (u "br") [] [].

Definition bold (s : str) : node := Tag (u "b") [] [NavigableString s].

(** [<td>ho <b>mess</b><b>o</b></td>]. *)
Definition td_messo : node :=
  Tag (u "td") [] [NavigableString (u "ho "); bold (u "mess"); bold (u "o")].

(** [<td>a<br>b</td>] and [<td><br></td>]. *)
Definition td_a_b : node :=
  Tag (u "td") [] [NavigableString (u "a"); br; NavigableString (u "b")].

Definition td_br : node := Tag (u "td") [] [br].

(** [<td>a&lt;&lt;&lt;BR&gt;&gt;&gt;b</td>]: one string, no line break. *)
Definition td_sentinel : node :=
  Tag (u "td") [] [NavigableString (u "a<<<BR>>>b")].

Definition persons_voi_io_tu : dict str :=
  [(u "voi", u "parlate"); (u "io", u "parlo"); (u "tu", u "parli")].

Definition table_essere : conjugations_t :=
  [(u "tempi composti", [(u "passato prossimo", [(u "io", u "sono andato")])])].

Definition table_avere : conjugations_t :=
  [(u "tempi composti", [(u "passato prossimo", [(u "io", u "ho mangiato")])])].

Definition neo_table (tense : str) (rows : list (str * str)) : node :=
  Tag (u "table") [(u "class", AttrList [u "neoConj"])]
    (Tag (u "tr") []
       [Tag (u "th") [(u "scope", AttrStr (u "col"))]
          [NavigableString tense;
           Tag (u "span") [(u "class", AttrList [u "arrow"])]
             [NavigableString [ARROW]]]]
     :: map (fun pf =>
               Tag (u "tr") []
                 [Tag (u "th") [(u "scope", AttrStr (u "row"))]
                    [NavigableString (fst pf)];
                  Tag (u "td") [] [NavigableString (snd pf)]])
          rows).

Definition mood_section (mood : str) (tables : list node) : node :=
  Tag (u "div") [(u "class", AttrList [u "aa"])]
    (Tag (u "h4") [] [NavigableString mood] :: tables).

(** A page with one mood, one tense and one person. *)
Definition page_parlare : node :=
  Tag (u "[document]") []
    [mood_section (u "Indicativo")
       [neo_table (u "presente") [(u "io", u "parlo")]]].

(** A page with a summary table whose value column is the shorter one, and
    with two tables of the same tense in one mood. *)
Definition page_two_tables : node :=
  Tag (u "[document]") []
    [Tag (u "h3") [] [NavigableString (u " parlare ")];
     Tag (u "table") [(u "id", AttrStr (u "conjtable"))]
       [Tag (u "tr") []
          [Tag (u "td") []
             [NavigableString (u "Infinito:"); br;
              NavigableString (u "Gerundio:"); br;
              NavigableString (u "Forma pronominale:")];
           Tag (u "td") []
             [NavigableString (u "parlare"); br; bold (u "parlando")]]];
     mood_section (u "Indicativo")
       [neo_table (u "Presente") [(u "io", u "parlo"); (u "tu", u "parli")];
        neo_table (u "presente") [(u "tu", u "parli  tu")]]].

(** A network that answers every request with the same body, and one that
    fails every request. *)
Definition net_ok (body : str) : nat -> str -> net_outcome :=
  fun _ _ => NetText body.

Definition net_down : nat -> str -> net_outcome :=
  fun _ _ => NetRequestException (u "timed out").

(** A page whose second tense table has a header and no rows. *)
Definition page_empty_tense : node :=
  Tag (u "[document]") []
    [mood_section (u "Indicativo")
       [neo_table (u "presente") [(u "io", u "parlo")];
        neo_table (u "imperfetto") []]].

(** A scrape result whose table has a tense without persons. *)
Definition data_empty_tense : scrape_result :=
  mk_scrape_result (u "parlare") (u "url") None [] None
    [(u "indicativo",
       [(u "presente", [(u "io", u "parlo")]); (u "imperfetto", [])])].

(** A scrape result with a person label that holds commas. *)
Definition data_comma_label : scrape_result :=
  mk_scrape_result (u "parlare") (u "url") None [] None
    [(u "indicativo",
       [(u "presente",
          [(u "io", u "parlo"); (u "lui, lei, Lei, egli", u "parla")])])].

(** A stand-in for [urlencode]. *)
Definition sample_urlencode (verb : str) : str := u "v=" ++ verb.

(** A scrape result with one mood, one tense and two persons. *)
Definition data_io_tu : scrape_result :=
  mk_scrape_result (u "parlare") (u "url") None [] None
    [(u "indicativo",
       [(u "presente", [(u "io", u "parlo"); (u "tu", u "parli")])])].

(** Narrowing with the selections that name every key of the table, handed
    over as the caller does. *)
Definition narrowed_by_all_keys (lower : str -> str) (data : scrape_result)
  : scrape_result :=
  apply_filters lower data
    (csv_of (keys (conjugations data)))
    (csv_of (all_tense_keys (conjugations data)))
    (csv_of (all_person_keys (conjugations data)))
    false.

(** The URL and the result of the scrape of "parlare" on the page with one
    mood, one tense and one person. *)
Definition url_parlare : str := BASE ++ u "?" ++ sample_urlencode (u "parlare").

Definition data_parlare : scrape_result :=
  assembled lower_latin1 (fun _ => page_parlare) (u "parlare") url_parlare
    (u "page").

(** A stand-in for the text of a validation error. *)
Definition sample_validation_msg (v : str)
    (moods tenses persons : option (list str)) : str :=
  u "Input should be a valid literal".

(** A stand-in for [json.dumps]: the verb of the result. *)
Definition sample_json_dumps (r : scrape_result) : str := queried r.

(** A page whose one tense table has rows and no column header. *)
Definition page_no_header : node :=
  Tag (u "[document]") []
    [mood_section (u "Indicativo")
       [Tag (u "table") [(u "class", AttrList [u "neoConj"])]
          [Tag (u "tr") [] [Tag (u "td") [] [NavigableString (u "presente")]];
           Tag (u "tr") []
             [Tag (u "th") [(u "scope", AttrStr (u "row"))]
                [NavigableString (u "io")];
              Tag (u "td") [] [NavigableString (u "parlo")]]]]].

(** * Properties *)

(** ** Strings *)

Lemma str_eqb_spec (a b : str) : reflect (a = b) (str_eqb a b).
Proof.
  revert b; induction a as [|x a IH]; intros [|y b]; simpl;
    try (constructor; congruence).
  destruct (N.eqb_spec x y) as [->|Hne]; simpl.
  - destruct (IH b) as [->|Hne]; constructor; congruence.
  - constructor; congruence.
Qed.

Lemma str_eqb_eq (a b : str) : str_eqb a b = true <-> a = b.
Proof. destruct (str_eqb_spec a b); split; congruence. Qed.

Lemma str_eqb_refl (a : str) : str_eqb a a = true.
Proof. apply str_eqb_eq; reflexivity. Qed.

Lemma str_eqb_neq (a b : str) : str_eqb a b = false <-> a <> b.
Proof. destruct (str_eqb_spec a b); split; congruence. Qed.

Lemma str_in_In (k : str) (l : list str) : str_in k l = true <-> In k l.
Proof.
  unfold str_in; rewrite existsb_exists; split.
  - intros (x & Hx & He); apply str_eqb_eq in He; subst; exact Hx.
  - intros H; exists k; split; [exact H | apply str_eqb_refl].
Qed.

Lemma lstrip_suffix (s : str) : exists l, s = l ++ lstrip s.
Proof.
  induction s as [|c r [l Hl]]; simpl.
  - exists []; reflexivity.
  - destruct (is_space c).
    + exists (c :: l); simpl; congruence.
    + exists []; reflexivity.
Qed.

Lemma lstrip_head (s : str) : head_space (lstrip s) = false.
Proof.
  induction s as [|c r IH]; simpl; [reflexivity|].
  destruct (is_space c) eqn:E; [exact IH | simpl; exact E].
Qed.

Lemma rstrip_prefix (s : str) : exists r, s = rstrip s ++ r.
Proof.
  unfold rstrip. destruct (lstrip_suffix (rev s)) as [l Hl].
  exists (rev l). rewrite <- rev_app_distr, <- Hl, rev_involutive; reflexivity.
Qed.

Lemma rstrip_last (s : str) : last_space (rstrip s) = false.
Proof.
  unfold last_space, rstrip. rewrite rev_involutive. apply lstrip_head.
Qed.

Lemma strip_segment (s : str) : exists l r, s = l ++ strip s ++ r.
Proof.
  unfold strip. destruct (lstrip_suffix s) as [l Hl].
  destruct (rstrip_prefix (lstrip s)) as [r Hr].
  exists l, r. rewrite <- Hr. exact Hl.
Qed.

Lemma head_space_prefix (a b : str) :
  head_space (a ++ b) = false -> head_space a = false.
Proof. destruct a; simpl; auto. Qed.

Lemma strip_head (s : str) : head_space (strip s) = false.
Proof.
  unfold strip. destruct (rstrip_prefix (lstrip s)) as [r Hr].
  apply head_space_prefix with (b := r). rewrite <- Hr. apply lstrip_head.
Qed.

Lemma strip_last (s : str) : last_space (strip s) = false.
Proof. apply rstrip_last. Qed.

Lemma strip_length (s : str) : (List.length (strip s) <= List.length s)%nat.
Proof.
  destruct (strip_segment s) as (l & r & H).
  rewrite H at 2. rewrite !length_app. lia.
Qed.

Lemma double_wsb_sound (s : str) : double_wsb s = false -> ~ has_double_ws s.
Proof.
  induction s as [|x s IH]; intros Hb (l & a & b & r & He & Ha & Hb').
  - destruct l; discriminate.
  - destruct l as [|y l]; simpl in He.
    + injection He as -> ->. simpl in Hb. rewrite Ha, Hb' in Hb. discriminate.
    + injection He as -> ->.
      assert (Hs : double_wsb (l ++ a :: b :: r) = false).
      { simpl in Hb. destruct (l ++ a :: b :: r); [reflexivity|].
        apply orb_false_iff in Hb. tauto. }
      apply (IH Hs). exists l, a, b, r. auto.
Qed.

Lemma has_double_ws_segment (l s r : str) :
  has_double_ws s -> has_double_ws (l ++ s ++ r).
Proof.
  intros (l' & a & b & r' & -> & Ha & Hb).
  exists (l ++ l'), a, b, (r' ++ r). repeat split; auto.
  rewrite <- !app_assoc. reflexivity.
Qed.

Lemma double_wsb_cons (a : N) (s : str) :
  double_wsb (a :: s) = (is_space a && head_space s) || double_wsb s.
Proof. destruct s; simpl; [rewrite andb_false_r|]; reflexivity. Qed.

Lemma sub_ws_run_shape (b : bool) (s : str) :
  double_wsb (sub_ws_run b s) = false
  /\ (b = true -> head_space (sub_ws_run b s) = false).
Proof.
  revert b; induction s as [|c r IH]; intros b; [simpl; auto|].
  cbn [sub_ws_run]. destruct (is_space c) eqn:Ec.
  - destruct b.
    + apply IH.
    + destruct (IH true) as [Hd Hh]. specialize (Hh eq_refl).
      split; [|discriminate].
      rewrite double_wsb_cons, Hh, Hd, andb_false_r. reflexivity.
  - destruct (IH false) as [Hd _]. split.
    + rewrite double_wsb_cons, Ec, Hd. reflexivity.
    + intros _. simpl. exact Ec.
Qed.

Lemma sub_ws_run_spaces (b : bool) (s : str) (c : N) :
  In c (sub_ws_run b s) -> is_space c = true -> c = SP.
Proof.
  revert b; induction s as [|x r IH]; intros b; simpl; [tauto|].
  destruct (is_space x) eqn:Ex.
  - destruct b; simpl; [apply IH|]. intros [<-|H]; [reflexivity | eauto].
  - simpl. intros [<-|H] Hc; [congruence | eauto].
Qed.

Lemma sub_ws_run_length (b : bool) (s : str) :
  (List.length (sub_ws_run b s) <= List.length s)%nat.
Proof.
  revert b; induction s as [|x r IH]; intros b; simpl; [lia|].
  pose proof (IH true) as Ht. pose proof (IH false) as Hf.
  destruct (is_space x); [destruct b|]; simpl; lia.
Qed.

Lemma replace1_char_length (old new : N) (s : str) :
  List.length (replace1 old [new] s) = List.length s.
Proof.
  induction s as [|c r IH]; simpl; [reflexivity|].
  destruct (c =? old); simpl; rewrite IH; reflexivity.
Qed.

(** ** The text normalizer *)

(** C4: [_norm_spaces] is a total function whose result holds no
    non-breaking space, no two neighbouring whitespace characters and no
    whitespace at either end, is never longer than the argument, and is
    empty for the empty string. *)
Theorem norm_spaces_normal (s : str) :
  ~ In NBSP (_norm_spaces s)
  /\ ~ has_double_ws (_norm_spaces s)
  /\ head_space (_norm_spaces s) = false
  /\ last_space (_norm_spaces s) = false
  /\ (List.length (_norm_spaces s) <= List.length s)%nat
  /\ _norm_spaces [] = [].
Proof.
  unfold _norm_spaces.
  set (t := re_sub_ws (replace1 NBSP [SP] s)).
  destruct (strip_segment t) as (l & r & Ht).
  repeat split.
  - intros Hin.
    assert (Hc : NBSP = SP).
    { apply (sub_ws_run_spaces false (replace1 NBSP [SP] s)); [|reflexivity].
      fold (re_sub_ws (replace1 NBSP [SP] s)). fold t. rewrite Ht.
      apply in_or_app; right; apply in_or_app; left; exact Hin. }
    discriminate Hc.
  - intros Hd. apply (has_double_ws_segment l _ r) in Hd. rewrite <- Ht in Hd.
    revert Hd. apply double_wsb_sound.
    apply (sub_ws_run_shape false (replace1 NBSP [SP] s)).
  - apply strip_head.
  - apply strip_last.
  - etransitivity; [apply strip_length|]. unfold t, re_sub_ws.
    etransitivity; [apply sub_ws_run_length|].
    rewrite replace1_char_length. lia.
Qed.

(** ** Dicts *)

Section DictFacts.
Context {V : Type}.
Implicit Types (d : dict V) (k : str) (v : V).

Lemma dict_get_None d k : dict_get d k = None <-> ~ In k (keys d).
Proof.
  induction d as [|[k' v'] r IH]; simpl; [tauto|].
  destruct (str_eqb_spec k k') as [->|Hne].
  - split; [discriminate | intros H; exfalso; apply H; auto].
  - rewrite IH. split; [intros H [E|E]; [congruence | tauto] | tauto].
Qed.

Lemma dict_mem_keys d k : dict_mem d k = true <-> In k (keys d).
Proof.
  unfold dict_mem. destruct (dict_get d k) eqn:E.
  - split; [intros _|reflexivity].
    destruct (in_dec (list_eq_dec N.eq_dec) k (keys d)) as [H|H]; [exact H|].
    apply dict_get_None in H. congruence.
  - apply dict_get_None in E. split; [discriminate | tauto].
Qed.

Lemma dict_mem_str_in d k : dict_mem d k = str_in k (keys d).
Proof.
  apply eq_true_iff_eq. rewrite dict_mem_keys, str_in_In. reflexivity.
Qed.

Lemma dict_get_Some_In d k v : dict_get d k = Some v -> In (k, v) d.
Proof.
  induction d as [|[k' v'] r IH]; simpl; [discriminate|].
  destruct (str_eqb_spec k k') as [->|Hne].
  - intros [= ->]; auto.
  - auto.
Qed.

Lemma dict_get_In d k v : wf_dict d -> In (k, v) d -> dict_get d k = Some v.
Proof.
  unfold wf_dict, keys.
  induction d as [|[k' v'] r IH]; simpl; [tauto|].
  intros Hnd [E|Hin]; inversion Hnd as [|? ? Hni Hnd']; subst.
  - injection E as -> ->. rewrite str_eqb_refl. reflexivity.
  - destruct (str_eqb_spec k k') as [->|Hne]; [|auto].
    exfalso. apply Hni. apply (in_map fst) in Hin. exact Hin.
Qed.

Lemma dict_set_fresh d k v : dict_get d k = None -> dict_set d k v = d ++ [(k, v)].
Proof.
  induction d as [|[k' v'] r IH]; simpl; [reflexivity|].
  destruct (str_eqb k k'); [discriminate|]. intros H. rewrite IH; auto.
Qed.

Lemma dict_get_set d k v k' :
  dict_get (dict_set d k v) k' = if str_eqb k' k then Some v else dict_get d k'.
Proof.
  induction d as [|[k0 v0] r IH]; simpl.
  - reflexivity.
  - destruct (str_eqb_spec k k0) as [->|Hne]; simpl.
    + destruct (str_eqb k' k0); reflexivity.
    + rewrite IH. destruct (str_eqb_spec k' k0) as [->|Hne'];
        [|reflexivity].
      destruct (str_eqb_spec k0 k); [congruence | reflexivity].
Qed.

Lemma keys_dict_set d k v :
  keys (dict_set d k v) = if dict_mem d k then keys d else keys d ++ [k].
Proof.
  unfold dict_mem. induction d as [|[k0 v0] r IH]; simpl; [reflexivity|].
  destruct (str_eqb k k0); simpl; [reflexivity|].
  rewrite IH. destruct (dict_get r k); reflexivity.
Qed.

Lemma wf_dict_set d k v : wf_dict d -> wf_dict (dict_set d k v).
Proof.
  unfold wf_dict. intros H. rewrite keys_dict_set.
  destruct (dict_mem d k) eqn:E; [exact H|].
  apply NoDup_app; [exact H | constructor; [simpl; tauto | constructor] |].
  intros x Hx [<-|[]]. apply dict_mem_keys in Hx. congruence.
Qed.

Lemma wf_dict_NoDup d : wf_dict d -> NoDup d.
Proof. apply NoDup_map_inv. Qed.

Lemma dict_of_items_wf d : wf_dict d -> dict_of_items d = d.
Proof.
  unfold dict_of_items.
  assert (G : forall (l acc : dict V), wf_dict (acc ++ l) ->
    fold_left (fun a kv => dict_set a (fst kv) (snd kv)) l acc = acc ++ l).
  { induction l as [|[k v] l IH]; intros acc Hwf; simpl.
    - rewrite app_nil_r; reflexivity.
    - rewrite dict_set_fresh.
      + rewrite IH; rewrite <- app_assoc; [reflexivity | exact Hwf].
      + apply dict_get_None. unfold wf_dict, keys in Hwf.
        rewrite map_app in Hwf. simpl in Hwf.
        apply NoDup_remove_2 in Hwf. intros H. apply Hwf.
        apply in_or_app; left; exact H. }
  intros H. apply (G d []). exact H.
Qed.

End DictFacts.

(** ** The canonical order of persons *)

Lemma canonical_part_keys (desired : list str) (tm : dict str) (k : str) :
  In k (keys (canonical_part desired tm)) <-> In k desired /\ In k (keys tm).
Proof.
  unfold canonical_part, keys. rewrite in_map_iff. split.
  - intros ([k' v] & <- & H). apply in_flat_map in H as (x & Hx & H).
    destruct (dict_get tm x) eqn:E; [|destruct H].
    destruct H as [[= -> ->]|[]]. simpl. split; [exact Hx|].
    apply dict_get_Some_In in E. apply (in_map fst) in E. exact E.
  - intros [Hd Hk]. destruct (dict_get tm k) as [v|] eqn:E.
    + exists (k, v). split; [reflexivity|]. apply in_flat_map.
      exists k. rewrite E. simpl; auto.
    + apply dict_get_None in E. tauto.
Qed.

Lemma first_loop (tm : dict str) (desired : list str) (acc : dict str) :
  NoDup desired ->
  (forall k, In k desired -> ~ In k (keys acc)) ->
  fold_left
    (fun ordered k =>
       match dict_get tm k with
       | Some v => dict_set ordered k v
       | None => ordered
       end) desired acc
  = acc ++ canonical_part desired tm.
Proof.
  revert acc; induction desired as [|k l IH]; intros acc Hnd Hfresh; simpl.
  - rewrite app_nil_r; reflexivity.
  - inversion Hnd as [|? ? Hni Hnd']; subst.
    destruct (dict_get tm k) as [v|] eqn:E.
    + rewrite dict_set_fresh by (apply dict_get_None; apply Hfresh; simpl; auto).
      rewrite IH; [rewrite <- app_assoc; reflexivity | exact Hnd' |].
      intros k' Hk'. unfold keys. rewrite map_app, in_app_iff. simpl.
      intros [H|[<-|[]]]; [|tauto]. apply (Hfresh k'); simpl; auto.
    + apply IH; [exact Hnd'|]. intros k' Hk'. apply Hfresh; simpl; auto.
Qed.

Lemma second_loop (l acc : dict str) :
  wf_dict l ->
  fold_left
    (fun ordered kv =>
       if dict_mem ordered (fst kv) then ordered
       else dict_set ordered (fst kv) (snd kv)) l acc
  = acc ++ filter (fun kv => negb (dict_mem acc (fst kv))) l.
Proof.
  unfold wf_dict, keys.
  revert acc; induction l as [|[k v] l IH]; intros acc Hnd; simpl.
  - rewrite app_nil_r; reflexivity.
  - inversion Hnd as [|? ? Hni Hnd']; subst.
    destruct (dict_mem acc k) eqn:E; simpl.
    + apply IH; exact Hnd'.
    + rewrite dict_set_fresh.
      2:{ unfold dict_mem in E. destruct (dict_get acc k); congruence. }
      rewrite IH by exact Hnd'. rewrite <- app_assoc. simpl. do 2 f_equal.
      apply filter_ext_in. intros [k' v'] Hin. simpl. f_equal.
      rewrite !dict_mem_str_in. unfold keys. rewrite map_app. simpl.
      unfold str_in. rewrite existsb_app. simpl.
      destruct (str_eqb_spec k' k) as [->|Hne];
        [|rewrite !orb_false_r; reflexivity].
      exfalso. apply Hni. apply (in_map fst) in Hin. exact Hin.
Qed.

Lemma filter_split_perm {A : Type} (p : A -> bool) (l : list A) :
  Permutation l (filter p l ++ filter (fun x => negb (p x)) l).
Proof.
  induction l as [|x l IH]; simpl; [constructor|].
  destruct (p x); simpl.
  - constructor; exact IH.
  - apply Permutation_cons_app; exact IH.
Qed.

Lemma desired_order_NoDup (mood : str) : NoDup (desired_order mood).
Proof.
  unfold desired_order.
  destruct (str_eqb mood (u "imperativo"));
    repeat (constructor; [simpl; intuition discriminate|]); constructor.
Qed.

Lemma canonical_part_wf (desired : list str) (tm : dict str) :
  NoDup desired -> wf_dict (canonical_part desired tm).
Proof.
  unfold wf_dict. induction 1 as [|k l Hni Hnd IH]; simpl; [constructor|].
  unfold keys. rewrite map_app. apply NoDup_app.
  - destruct (dict_get tm k); simpl; repeat constructor. simpl; tauto.
  - exact IH.
  - intros x Hx Hx'. apply canonical_part_keys in Hx' as [Hx' _].
    destruct (dict_get tm k); simpl in Hx; [|tauto].
    destruct Hx as [<-|[]]. tauto.
Qed.

(** C2: the reordered map is the canonical labels that the data has, in the
    canonical order of the mood, followed by the other labels in the order
    of extraction; it is a permutation of the extracted map, and the
    canonical list has six entries. *)
Theorem ordered_tense_map_permutes (tense_map : dict str) (mood tense : str) :
  wf_dict tense_map ->
  _ordered_tense_map tense_map mood tense
    = canonical_part (desired_order mood) tense_map
        ++ remaining_part (desired_order mood) tense_map
  /\ Permutation tense_map (_ordered_tense_map tense_map mood tense)
  /\ List.length (desired_order mood) = 6%nat.
Proof.
  intros Hwf.
  assert (Heq : _ordered_tense_map tense_map mood tense
    = canonical_part (desired_order mood) tense_map
        ++ remaining_part (desired_order mood) tense_map).
  { unfold _ordered_tense_map. fold (desired_order mood).
    rewrite first_loop by (auto using desired_order_NoDup).
    rewrite second_loop by exact Hwf. simpl. f_equal.
    apply filter_ext_in. intros [k v] Hin. simpl. f_equal.
    apply eq_true_iff_eq. rewrite dict_mem_keys, canonical_part_keys, str_in_In.
    apply (in_map fst) in Hin. simpl in Hin. unfold keys. tauto. }
  split; [exact Heq|]. split.
  - rewrite Heq.
    etransitivity;
      [apply (filter_split_perm (fun kv => str_in (fst kv) (desired_order mood)))|].
    apply Permutation_app_tail. apply NoDup_Permutation.
    + apply NoDup_filter. apply wf_dict_NoDup. exact Hwf.
    + apply wf_dict_NoDup. apply canonical_part_wf. apply desired_order_NoDup.
    + intros [k v]. rewrite filter_In. simpl. rewrite str_in_In.
      unfold canonical_part. rewrite in_flat_map. split.
      * intros [Hin Hd]. exists k. split; [exact Hd|].
        rewrite (dict_get_In _ _ _ Hwf Hin). simpl; auto.
      * intros (x & Hx & H). destruct (dict_get tense_map x) eqn:E; [|destruct H].
        destruct H as [[= -> ->]|[]]. split; [|exact Hx].
        apply dict_get_Some_In. exact E.
  - unfold desired_order. destruct (str_eqb mood (u "imperativo")); reflexivity.
Qed.

(** ** The auxiliary *)

Lemma starts_with_head (x c : N) (p s : str) :
  starts_with (x :: p) (c :: s) = true -> c = x.
Proof.
  simpl. intros H. apply andb_true_iff in H as [H _].
  apply N.eqb_eq in H. congruence.
Qed.

Lemma essere_first (s : str) :
  startswith_any s essere_prefixes = true ->
  exists c t, s = c :: t /\ (c = 115 \/ c = 101).
Proof.
  destruct s as [|c t]; [discriminate|]. intros H. exists c, t.
  split; [reflexivity|].
  unfold startswith_any, essere_prefixes in H. cbn [existsb] in H.
  repeat (apply orb_true_iff in H as [H|H]);
    try discriminate H; apply starts_with_head in H; auto.
Qed.

Lemma avere_first (s : str) :
  startswith_any s avere_prefixes = true ->
  exists c t, s = c :: t /\ (c = 104 \/ c = 97).
Proof.
  destruct s as [|c t]; [discriminate|]. intros H. exists c, t.
  split; [reflexivity|].
  unfold startswith_any, avere_prefixes in H. cbn [existsb] in H.
  repeat (apply orb_true_iff in H as [H|H]);
    try discriminate H; apply starts_with_head in H; auto.
Qed.

Lemma essere_not_avere (s : str) :
  startswith_any s essere_prefixes = true ->
  startswith_any s avere_prefixes = false.
Proof.
  intros He. destruct (startswith_any s avere_prefixes) eqn:Ha; [|reflexivity].
  apply essere_first in He as (c & t & -> & Hc).
  apply avere_first in Ha as (c' & t' & [= <- <-] & Hc').
  destruct Hc as [->| ->], Hc' as [Hc'|Hc']; discriminate Hc'.
Qed.

Section AuxiliaryFacts.
Variable lower : str -> str.
Hypothesis lower_empty : lower [] = [].

Lemma detect_auxiliary_value (table : conjugations_t) :
  _detect_auxiliary lower table
  = let io_pp :=
      lower (match io_passato_prossimo table with Some f => f | None => [] end) in
    if startswith_any io_pp essere_prefixes then Some (u "essere")
    else if startswith_any io_pp avere_prefixes then Some (u "avere")
    else None.
Proof.
  unfold _detect_auxiliary, io_passato_prossimo, dict_get_default.
  destruct (dict_get table (u "tempi composti")) as [tenses|]; [|reflexivity].
  destruct (dict_get tenses (u "passato prossimo")) as [persons|]; reflexivity.
Qed.

(** C3: the inferred auxiliary is "essere" exactly when the lower-cased form
    at the path starts with one of "sono ", "ero ", "sarò ", "avere" exactly
    when it starts with one of "ho ", "avevo ", "avrò ", and absent in every
    other case, among them every table in which a key of the path is
    missing; the function is total. *)
Theorem detect_auxiliary_by_prefix (table : conjugations_t) :
  (_detect_auxiliary lower table = Some (u "essere") <->
     exists f, io_passato_prossimo table = Some f
               /\ startswith_any (lower f) essere_prefixes = true)
  /\ (_detect_auxiliary lower table = Some (u "avere") <->
       exists f, io_passato_prossimo table = Some f
                 /\ startswith_any (lower f) avere_prefixes = true)
  /\ (_detect_auxiliary lower table = None <->
       forall f, io_passato_prossimo table = Some f ->
                 startswith_any (lower f) essere_prefixes = false
                 /\ startswith_any (lower f) avere_prefixes = false)
  /\ (io_passato_prossimo table = None -> _detect_auxiliary lower table = None).
Proof.
  rewrite detect_auxiliary_value.
  destruct (io_passato_prossimo table) as [f|]; cbv zeta.
  - assert (Hex : forall ps, (exists f', Some f = Some f'
              /\ startswith_any (lower f') ps = true)
            <-> startswith_any (lower f) ps = true).
    { intros ps. split; [intros (f' & [= <-] & H); exact H | eauto]. }
    rewrite !Hex.
    assert (Hall : (forall f', Some f = Some f' ->
               startswith_any (lower f') essere_prefixes = false
               /\ startswith_any (lower f') avere_prefixes = false)
            <-> startswith_any (lower f) essere_prefixes = false
                /\ startswith_any (lower f) avere_prefixes = false).
    { split; [intros H; apply H; reflexivity | intros H f' [= <-]; exact H]. }
    rewrite Hall.
    destruct (startswith_any (lower f) essere_prefixes) eqn:He.
    + rewrite (essere_not_avere _ He).
      split; [tauto|]. split; [split; discriminate|].
      split; [split; [discriminate | intros [H _]; discriminate H] | discriminate].
    + destruct (startswith_any (lower f) avere_prefixes) eqn:Ha.
      * split; [split; discriminate|]. split; [tauto|].
        split; [split; [discriminate | intros [_ H]; discriminate H]|].
        discriminate.
      * split; [split; discriminate|]. split; [split; discriminate|].
        split; [tauto | discriminate].
  - rewrite lower_empty.
    change (startswith_any [] essere_prefixes) with false.
    change (startswith_any [] avere_prefixes) with false. cbv iota.
    split; [split; [discriminate | intros (f & H & _); discriminate H]|].
    split; [split; [discriminate | intros (f & H & _); discriminate H]|].
    split; [split; [intros _ f H; discriminate H | reflexivity] | reflexivity].
Qed.

End AuxiliaryFacts.

(** ** Fetching *)

Lemma count_gets_app (a b : list event) :
  count_gets (a ++ b) = (count_gets a + count_gets b)%nat.
Proof. unfold count_gets. rewrite filter_app, length_app. reflexivity. Qed.

Section FetchFacts.
Variable net : nat -> str -> net_outcome.

Lemma fetch_attempts_ends (url : str) (tries rem : nat) :
  forall (last_err : option str) (tr : list event),
  (1 <= rem <= tries)%nat ->
  exists m, ends_after net url tries rem tr
              (fetch_attempts net url tries rem last_err tr) m.
Proof.
  induction rem as [|r IH]; intros last_err tr Hr; [lia|].
  cbn [fetch_attempts].
  destruct (net (count_gets tr) url) as [body|e|e] eqn:En.
  - exists 1%nat. unfold ends_after. cbn [events_from fst snd].
    rewrite Nat.sub_diag, Nat.add_0_r, En.
    repeat split; lia.
  - destruct r as [|r'].
    + exists 1%nat. unfold ends_after.
      replace (tries - 0 <? tries)%nat with false
        by (symmetry; apply Nat.ltb_ge; lia).
      cbn [fetch_attempts events_from fst snd].
      rewrite Nat.sub_diag, Nat.add_0_r, En.
      repeat split; lia.
    + replace (tries - S r' <? tries)%nat with true
        by (symmetry; apply Nat.ltb_lt; lia).
      destruct (IH (Some e) ((tr ++ [EvGet url]) ++ [EvSleep (tries - S r')]))
        as (m & Hm & Htr & Hbefore & Hlast); [lia|].
      assert (Hc : count_gets ((tr ++ [EvGet url]) ++ [EvSleep (tries - S r')])
                   = S (count_gets tr)).
      { rewrite !count_gets_app. cbn. lia. }
      rewrite Hc in Hbefore, Hlast.
      exists (S m). unfold ends_after. split; [lia|]. split; [|split].
      * rewrite Htr. rewrite <- !app_assoc. cbn [app events_from].
        destruct m as [|m']; [lia|].
        replace (S (tries - S (S r'))) with (tries - S r')%nat by lia.
        reflexivity.
      * intros i Hi. destruct i as [|i'].
        -- rewrite Nat.add_0_r. eauto.
        -- destruct (Hbefore i') as [e' He']; [lia|].
           exists e'. rewrite <- He'. f_equal. lia.
      * replace (count_gets tr + (S m - 1))%nat
          with (S (count_gets tr) + (m - 1))%nat by lia.
        destruct (net (S (count_gets tr) + (m - 1)) url);
          [exact Hlast | split; [lia | tauto] | exact Hlast].
  - exists 1%nat. unfold ends_after. cbn [events_from fst snd].
    rewrite Nat.sub_diag, Nat.add_0_r, En.
    repeat split; lia.
Qed.

(** C9: a fetch makes its attempts one after the other and at most two of
    them; it ends with the first attempt that does not fail with a transport
    error, returning the body when that attempt succeeds; when both attempts
    fail with a transport error it raises the last one with its message;
    the [n]-th retry comes after a wait of [n] units, for any number of
    tries. *)
Theorem fetch_html_bounded (url : str) (tr : list event) :
  (exists n, (n <= 2)%nat
     /\ ends_after net url 2 2 tr (fetch_html net url tr) n
     /\ snd (fetch_html net url tr) = tr ++ attempt_events url n)
  /\ (forall tries, (1 <= tries)%nat ->
        exists n,
          ends_after net url tries tries tr (fetch_html_tries net url tries tr) n
          /\ snd (fetch_html_tries net url tries tr) = tr ++ attempt_events url n).
Proof.
  assert (G : forall tries, (1 <= tries)%nat ->
    exists n,
      ends_after net url tries tries tr (fetch_html_tries net url tries tr) n
      /\ snd (fetch_html_tries net url tries tr) = tr ++ attempt_events url n).
  { intros tries Ht. unfold fetch_html_tries.
    destruct (fetch_attempts_ends url tries tries None tr) as [m Hm]; [lia|].
    exists m. split; [exact Hm|].
    destruct Hm as (_ & Htr & _). rewrite Nat.sub_diag in Htr. exact Htr. }
  split; [|exact G].
  destruct (G 2%nat) as (n & Hn & Htr); [lia|].
  exists n. split; [|split; assumption]. destruct Hn as (Hle & _). lia.
Qed.

End FetchFacts.

(** ** The orchestrator *)

Section ScrapeFacts.
Variable lower : str -> str.
Variable urlencode_v : str -> str.
Variable parse_html : str -> node.
Variable net : nat -> str -> net_outcome.

(** C5: for a verb that is empty once trimmed the scrape raises the error of
    [build_url] and leaves the run as it was: no request is sent and no wait
    is made, whatever the network would answer and whatever the toggle. *)
Theorem scrape_empty_verb (strict : bool) (verb : str) (tr : list event) :
  strip verb = [] ->
  scrape_conjugations lower urlencode_v parse_html net strict verb tr
  = (inr (ValueError (u "Empty verb provided.")), tr)
  /\ count_gets
       (snd (scrape_conjugations lower urlencode_v parse_html net strict verb tr))
     = count_gets tr.
Proof.
  intros H. unfold scrape_conjugations, build_url. rewrite H. cbn. auto.
Qed.

Lemma check_expected_cases (strict : bool) (table : conjugations_t)
    (tr : list event) :
  _check_expected strict table tr
  = match missing_msgs table, strict with
    | [], _ => (inl tt, tr)
    | _ :: _, true =>
        (inr (AssertionError (join (u " | ") (missing_msgs table))), tr)
    | _ :: _, false =>
        (inl tt, tr ++ [EvStderr (u "[WARN] "
                                   ++ join (u " | ") (missing_msgs table))])
    end.
Proof.
  unfold _check_expected. destruct (missing_msgs table); [reflexivity|].
  destruct strict; reflexivity.
Qed.

End ScrapeFacts.

(** ** The conjugation tables *)

Lemma last_table_snoc (log : list parsed_table) (m t : str) (p : dict str)
    (mood tense : str) :
  last_table (log ++ [(m, t, p)]) mood tense
  = if str_eqb m mood && str_eqb t tense then Some p
    else last_table log mood tense.
Proof.
  induction log as [|[[m' t'] p'] log IH]; simpl.
  - reflexivity.
  - rewrite IH. destruct (str_eqb m mood && str_eqb t tense); reflexivity.
Qed.

Lemma last_table_absent (log : list parsed_table) (mood tense : str) :
  (forall p, ~ In (mood, tense, p) log) -> last_table log mood tense = None.
Proof.
  induction log as [|[[m t] p] log IH]; intros H; simpl; [reflexivity|].
  rewrite IH by (intros p' Hp'; apply (H p'); simpl; auto).
  destruct (str_eqb_spec m mood) as [->|]; [|reflexivity].
  destruct (str_eqb_spec t tense) as [->|]; [|reflexivity].
  exfalso. apply (H p). simpl; auto.
Qed.

Lemma last_table_app (before after : list parsed_table) (mood tense : str)
    (persons : dict str) :
  (forall p, ~ In (mood, tense, p) after) ->
  last_table (before ++ (mood, tense, persons) :: after) mood tense
  = Some persons.
Proof.
  intros H. induction before as [|[[m t] p] l IH]; simpl.
  - rewrite (last_table_absent after mood tense H), !str_eqb_refl. reflexivity.
  - rewrite IH. reflexivity.
Qed.

Lemma tense_table_set (res : conjugations_t) (m t : str) (p : dict str)
    (mood tense : str) :
  tense_table (set_tense res m t p) mood tense
  = if str_eqb m mood && str_eqb t tense then Some p
    else tense_table res mood tense.
Proof.
  unfold tense_table, set_tense, dict_get_default. rewrite dict_get_set.
  destruct (str_eqb_spec mood m) as [->|Hne].
  - rewrite str_eqb_refl, dict_get_set. simpl.
    destruct (str_eqb_spec tense t) as [->|Hne].
    + rewrite str_eqb_refl. reflexivity.
    + destruct (str_eqb_spec t tense); [congruence|].
      destruct (dict_get res m); reflexivity.
  - destruct (str_eqb_spec m mood); [congruence | reflexivity].
Qed.

Lemma tense_table_new_mood (res : conjugations_t) (m mood tense : str) :
  tense_table (if dict_mem res m then res else dict_set res m []) mood tense
  = tense_table res mood tense.
Proof.
  unfold dict_mem. destruct (dict_get res m) eqn:E; [reflexivity|].
  unfold tense_table. rewrite dict_get_set.
  destruct (str_eqb_spec mood m) as [->|Hne]; [|reflexivity].
  rewrite E. reflexivity.
Qed.

Section ConjugationFacts.
Variable lower : str -> str.

Lemma table_step_agree (m : str) (tables : list ref) :
  forall st lg, agree st lg ->
  agree (fold_left (table_step lower m) tables st)
        (fold_left (table_log lower m) tables lg).
Proof.
  induction tables as [|tb tables IH]; intros st lg H; [exact H|].
  simpl. apply IH. destruct st as [res soup], lg as [log soup'].
  destruct H as [Hs H]. simpl in Hs, H. subst soup'.
  unfold table_step, table_log.
  destruct (read_table lower soup tb) as [[t tm] soup1].
  split; [reflexivity|]. intros mood tense. simpl.
  rewrite tense_table_set, last_table_snoc, H. reflexivity.
Qed.

Lemma section_step_agree (sections : list ref) :
  forall st lg, agree st lg ->
  agree (fold_left (section_step lower) sections st)
        (fold_left (section_log lower) sections lg).
Proof.
  induction sections as [|sec sections IH]; intros st lg H; [exact H|].
  simpl. apply IH. destruct st as [res soup], lg as [log soup'].
  destruct H as [Hs H]. simpl in Hs, H. subst soup'.
  unfold section_step, section_log.
  destruct (section_mood lower soup sec) as [m|]; [|split; [reflexivity | exact H]].
  apply table_step_agree. split; [reflexivity|].
  intros mood tense. simpl. rewrite tense_table_new_mood. apply H.
Qed.

(** C10: for every mood and tense name the parsed table holds the person map
    of the last tense table read with that mood and that name, whole and
    alone; tables read earlier with the same mood and name leave nothing. *)
Theorem parse_conjugations_last_wins (soup : node) (mood tense : str) :
  tense_table (fst (parse_conjugations lower soup)) mood tense
  = last_table (parsed_tables lower soup) mood tense
  /\ (forall before persons after,
        parsed_tables lower soup = before ++ (mood, tense, persons) :: after ->
        (forall p, ~ In (mood, tense, p) after) ->
        tense_table (fst (parse_conjugations lower soup)) mood tense
        = Some persons)
  /\ ((forall p, ~ In (mood, tense, p) (parsed_tables lower soup)) ->
      tense_table (fst (parse_conjugations lower soup)) mood tense = None).
Proof.
  assert (H : tense_table (fst (parse_conjugations lower soup)) mood tense
              = last_table (parsed_tables lower soup) mood tense).
  { unfold parse_conjugations, parsed_tables.
    apply (section_step_agree _ ([], soup) ([], soup)).
    split; [reflexivity|]. intros m t. reflexivity. }
  rewrite H. split; [reflexivity|]. split.
  - intros before persons after -> Hafter. apply last_table_app. exact Hafter.
  - apply last_table_absent.
Qed.

End ConjugationFacts.

(** ** Narrowing *)

(** A loop that stores, under the key of each item, the value chosen for it,
    builds the list of the chosen items when the keys are new. *)
Lemma fold_dict_set_fresh {W V : Type} (g : str * W -> option V)
    (step : dict V -> str * W -> dict V) :
  (forall acc x, step acc x = match g x with
                              | Some v => dict_set acc (fst x) v
                              | None => acc
                              end) ->
  forall (l : dict W) (acc : dict V),
  wf_dict l ->
  (forall k, In k (keys l) -> ~ In k (keys acc)) ->
  fold_left step l acc
  = acc ++ flat_map (fun x => match g x with
                              | Some v => [(fst x, v)]
                              | None => []
                              end) l.
Proof.
  intros Hstep. unfold wf_dict, keys.
  induction l as [|[k w] l IH]; intros acc Hnd Hfresh; simpl.
  - rewrite app_nil_r; reflexivity.
  - inversion Hnd as [|? ? Hni Hnd']; subst. rewrite Hstep.
    destruct (g (k, w)) as [v|]; simpl.
    + rewrite dict_set_fresh
        by (apply dict_get_None; apply Hfresh; simpl; auto).
      rewrite IH; [rewrite <- app_assoc; reflexivity | exact Hnd' |].
      intros k' Hk'. rewrite map_app, in_app_iff. simpl.
      intros [H|[<-|[]]]; [|tauto]. apply (Hfresh k'); simpl; auto.
    + apply IH; [exact Hnd'|]. intros k' Hk'. apply Hfresh; simpl; auto.
Qed.

Lemma wf_dict_filter {V : Type} (f : str * V -> bool) (d : dict V) :
  wf_dict d -> wf_dict (filter f d).
Proof.
  unfold wf_dict, keys. induction d as [|[k v] d IH]; simpl; [auto|].
  intros H. inversion H as [|? ? Hni Hnd]; subst.
  destruct (f (k, v)); simpl; [|auto]. constructor; [|auto].
  intros Hin. apply Hni. apply in_map_iff in Hin as (x & <- & Hx).
  apply filter_In in Hx as [Hx _]. apply in_map. exact Hx.
Qed.

Lemma flat_map_ext_in {A B : Type} (f g : A -> list B) (l : list A) :
  (forall x, In x l -> f x = g x) -> flat_map f l = flat_map g l.
Proof.
  induction l as [|x l IH]; intros H; simpl; [reflexivity|].
  rewrite (H x) by (simpl; auto). rewrite IH; [reflexivity|].
  intros y Hy. apply H. simpl; auto.
Qed.

Section NarrowingFacts.
Variable lower : str -> str.

Lemma filter_persons_narrow (pset : option (list str)) (persons : dict str) :
  wf_dict persons ->
  filter_persons lower pset persons = narrow_persons lower pset persons.
Proof.
  intros H. unfold filter_persons, narrow_persons.
  destruct (set_true pset); [|reflexivity].
  apply dict_of_items_wf. apply wf_dict_filter. exact H.
Qed.

Lemma filter_tenses_narrow (tset pset : option (list str)) (tenses : mood_map_t) :
  wf_dict tenses ->
  (forall t persons, In (t, persons) tenses -> wf_dict persons) ->
  filter_tenses lower tset pset tenses = narrow_tenses lower tset pset tenses.
Proof.
  intros Hwf Hp. unfold filter_tenses, narrow_tenses.
  rewrite (fold_dict_set_fresh
    (fun tp => if rejects lower tset (fst tp) then None
               else if nonempty (filter_persons lower pset (snd tp))
                    then Some (filter_persons lower pset (snd tp)) else None));
    [| intros acc [t p]; simpl; destruct (rejects lower tset t); [reflexivity|];
       destruct (nonempty (filter_persons lower pset p)); reflexivity
     | exact Hwf | intros k _ []].
  simpl. apply flat_map_ext_in. intros [t p] Hin. simpl.
  rewrite (filter_persons_narrow pset p (Hp t p Hin)).
  destruct (rejects lower tset t); [reflexivity|].
  destruct (nonempty (narrow_persons lower pset p)); reflexivity.
Qed.

Lemma filter_moods_narrow (mset tset pset : option (list str))
    (table : conjugations_t) :
  wf_table table ->
  filter_moods lower mset tset pset table = narrow_moods lower mset tset pset table.
Proof.
  intros [Hwf Hm]. unfold filter_moods, narrow_moods.
  rewrite (fold_dict_set_fresh
    (fun mt => if rejects lower mset (fst mt) then None
               else if nonempty (filter_tenses lower tset pset (snd mt))
                    then Some (filter_tenses lower tset pset (snd mt)) else None));
    [| intros acc [m ts]; simpl; destruct (rejects lower mset m); [reflexivity|];
       destruct (nonempty (filter_tenses lower tset pset ts)); reflexivity
     | exact Hwf | intros k _ []].
  simpl. apply flat_map_ext_in. intros [m ts] Hin. simpl.
  destruct (Hm m ts Hin) as [Hts Hps].
  rewrite (filter_tenses_narrow tset pset ts Hts Hps).
  destruct (rejects lower mset m); [reflexivity|].
  destruct (nonempty (narrow_tenses lower tset pset ts)); reflexivity.
Qed.

Lemma covers_rejects (xset : option (list str)) (ks : list str) (k : str) :
  covers lower xset ks -> In k ks -> rejects lower xset k = false.
Proof.
  unfold covers, rejects. intros H Hk.
  destruct (set_true xset); [|reflexivity]. rewrite (H eq_refl k Hk). reflexivity.
Qed.

Lemma covers_app (xset : option (list str)) (a b : list str) :
  covers lower xset (a ++ b) -> covers lower xset a /\ covers lower xset b.
Proof.
  unfold covers. intros H. split; intros Hs k Hk; apply (H Hs);
    apply in_or_app; auto.
Qed.

Lemma misses_app (xset : option (list str)) (a b : list str) :
  misses lower xset (a ++ b) -> misses lower xset a /\ misses lower xset b.
Proof.
  unfold misses. intros [Hs H]. split; (split; [exact Hs|]); intros k Hk;
    apply H; apply in_or_app; auto.
Qed.

Lemma filter_all {A : Type} (f : A -> bool) (l : list A) :
  (forall x, In x l -> f x = true) -> filter f l = l.
Proof.
  induction l as [|x l IH]; intros H; simpl; [reflexivity|].
  rewrite (H x) by (simpl; auto). rewrite IH; [reflexivity|].
  intros y Hy. apply H. simpl; auto.
Qed.

Lemma filter_none {A : Type} (f : A -> bool) (l : list A) :
  (forall x, In x l -> f x = false) -> filter f l = [].
Proof.
  induction l as [|x l IH]; intros H; simpl; [reflexivity|].
  rewrite (H x) by (simpl; auto). apply IH. intros y Hy. apply H. simpl; auto.
Qed.

Lemma narrow_persons_all (pset : option (list str)) (persons : dict str) :
  covers lower pset (keys persons) -> narrow_persons lower pset persons = persons.
Proof.
  unfold covers, narrow_persons. intros H.
  destruct (set_true pset); [|reflexivity].
  apply filter_all. intros [k v] Hin. apply (H eq_refl).
  apply (in_map fst) in Hin. exact Hin.
Qed.

Lemma narrow_persons_none (pset : option (list str)) (persons : dict str) :
  misses lower pset (keys persons) -> narrow_persons lower pset persons = [].
Proof.
  unfold misses, narrow_persons. intros [Hs H]. rewrite Hs.
  apply filter_none. intros [k v] Hin. apply H.
  apply (in_map fst) in Hin. exact Hin.
Qed.

Lemma narrow_tenses_all (tset pset : option (list str)) (tenses : mood_map_t) :
  covers lower tset (keys tenses) ->
  covers lower pset (flat_map (fun tp => keys (snd tp)) tenses) ->
  (forall t persons, In (t, persons) tenses -> persons <> []) ->
  narrow_tenses lower tset pset tenses = tenses.
Proof.
  unfold narrow_tenses.
  induction tenses as [|[t p] l IH]; intros Ht Hp Hne; simpl; [reflexivity|].
  simpl in Hp. apply covers_app in Hp as [Hp1 Hp2].
  rewrite (covers_rejects tset _ t Ht) by (simpl; auto).
  rewrite (narrow_persons_all pset p Hp1).
  destruct p as [|x p]; [exfalso; apply (Hne t []); simpl; auto|].
  simpl. f_equal. apply IH; [| exact Hp2 |].
  - intros Hs k Hk. apply (Ht Hs). simpl; auto.
  - intros t' p' Hin. apply (Hne t'). simpl; auto.
Qed.

Lemma narrow_tenses_no_tense (tset pset : option (list str)) (tenses : mood_map_t) :
  misses lower tset (keys tenses) -> narrow_tenses lower tset pset tenses = [].
Proof.
  unfold narrow_tenses, misses. intros [Hs H].
  induction tenses as [|[t p] l IH]; simpl; [reflexivity|].
  assert (Hr : rejects lower tset t = true).
  { unfold rejects. rewrite Hs, (H t) by (simpl; auto). reflexivity. }
  rewrite Hr. simpl. apply IH. intros k Hk. apply H. simpl; auto.
Qed.

Lemma narrow_tenses_no_person (tset pset : option (list str))
    (tenses : mood_map_t) :
  misses lower pset (flat_map (fun tp => keys (snd tp)) tenses) ->
  narrow_tenses lower tset pset tenses = [].
Proof.
  unfold narrow_tenses.
  induction tenses as [|[t p] l IH]; intros Hp; simpl; [reflexivity|].
  simpl in Hp. apply misses_app in Hp as [Hp1 Hp2].
  rewrite (narrow_persons_none pset p Hp1), (IH Hp2).
  destruct (rejects lower tset t); reflexivity.
Qed.

Lemma narrow_moods_all (mset tset pset : option (list str))
    (table : conjugations_t) :
  no_empty_level table ->
  covers lower mset (keys table) ->
  covers lower tset (all_tense_keys table) ->
  covers lower pset (all_person_keys table) ->
  narrow_moods lower mset tset pset table = table.
Proof.
  unfold narrow_moods, no_empty_level, all_tense_keys, all_person_keys.
  induction table as [|[m ts] l IH]; intros Hne Hm Ht Hp; simpl; [reflexivity|].
  simpl in Ht, Hp.
  apply covers_app in Ht as [Ht1 Ht2]. apply covers_app in Hp as [Hp1 Hp2].
  destruct (Hne m ts) as [Hts Hps]; [simpl; auto|].
  rewrite (covers_rejects mset _ m Hm) by (simpl; auto).
  rewrite (narrow_tenses_all tset pset ts Ht1 Hp1 Hps).
  destruct ts as [|x ts]; [congruence|].
  simpl. f_equal. apply IH; [| | exact Ht2 | exact Hp2].
  - intros m' ts' Hin. apply (Hne m'). simpl; auto.
  - intros Hs k Hk. apply (Hm Hs). simpl; auto.
Qed.

Lemma narrow_moods_none (mset tset pset : option (list str))
    (table : conjugations_t) :
  misses lower mset (keys table)
  \/ misses lower tset (all_tense_keys table)
  \/ misses lower pset (all_person_keys table) ->
  narrow_moods lower mset tset pset table = [].
Proof.
  unfold narrow_moods, all_tense_keys, all_person_keys.
  induction table as [|[m ts] l IH]; intros H; simpl; [reflexivity|].
  rewrite IH.
  - destruct H as [[Hs H]|[H|H]].
    + assert (Hr : rejects lower mset m = true).
      { unfold rejects. rewrite Hs, (H m) by (simpl; auto). reflexivity. }
      rewrite Hr. reflexivity.
    + simpl in H. apply misses_app in H as [H _].
      rewrite (narrow_tenses_no_tense tset pset ts H).
      destruct (rejects lower mset m); reflexivity.
    + simpl in H. apply misses_app in H as [H _].
      rewrite (narrow_tenses_no_person tset pset ts H).
      destruct (rejects lower mset m); reflexivity.
  - destruct H as [[Hs H]|[H|H]].
    + left. split; [exact Hs|]. intros k Hk. apply H. simpl; auto.
    + right; left. simpl in H. apply misses_app in H as [_ H]. exact H.
    + right; right. simpl in H. apply misses_app in H as [_ H]. exact H.
Qed.

Lemma subseq_refl {A : Type} (l : list A) : subseq l l.
Proof. induction l; constructor; assumption. Qed.

Lemma subseq_filter {A : Type} (f : A -> bool) (l : list A) :
  subseq (filter f l) l.
Proof.
  induction l as [|x l IH]; simpl; [constructor|].
  destruct (f x); constructor; exact IH.
Qed.

Lemma narrow_persons_subseq (pset : option (list str)) (persons : dict str) :
  subseq (narrow_persons lower pset persons) persons.
Proof.
  unfold narrow_persons. destruct (set_true pset);
    [apply subseq_filter | apply subseq_refl].
Qed.

Lemma narrow_tenses_In (tset pset : option (list str)) (tenses : mood_map_t)
    (t : str) (p' : dict str) :
  In (t, p') (narrow_tenses lower tset pset tenses) ->
  exists p, In (t, p) tenses /\ rejects lower tset t = false
            /\ p' = narrow_persons lower pset p /\ p' <> [].
Proof.
  unfold narrow_tenses. rewrite in_flat_map. intros ([t0 p] & Hin & H).
  simpl in H. destruct (rejects lower tset t0) eqn:Er; [destruct H|].
  destruct (narrow_persons lower pset p) as [|x q] eqn:En; [destruct H|].
  destruct H as [[= -> <-]|[]]. exists p. rewrite En.
  repeat split; auto. discriminate.
Qed.

Lemma narrow_tenses_keys (tset pset : option (list str)) (tenses : mood_map_t) :
  subseq (keys (narrow_tenses lower tset pset tenses)) (keys tenses).
Proof.
  unfold narrow_tenses, keys.
  induction tenses as [|[t p] l IH]; simpl; [constructor|].
  destruct (rejects lower tset t); [constructor; exact IH|].
  destruct (nonempty (narrow_persons lower pset p)); constructor; exact IH.
Qed.

Lemma narrow_moods_In (mset tset pset : option (list str))
    (table : conjugations_t) (m : str) (ts' : mood_map_t) :
  In (m, ts') (narrow_moods lower mset tset pset table) ->
  exists ts, In (m, ts) table /\ rejects lower mset m = false
             /\ ts' = narrow_tenses lower tset pset ts /\ ts' <> [].
Proof.
  unfold narrow_moods. rewrite in_flat_map. intros ([m0 ts] & Hin & H).
  simpl in H. destruct (rejects lower mset m0) eqn:Er; [destruct H|].
  destruct (narrow_tenses lower tset pset ts) as [|x q] eqn:En; [destruct H|].
  destruct H as [[= -> <-]|[]]. exists ts. rewrite En.
  repeat split; auto. discriminate.
Qed.

Lemma narrow_moods_keys (mset tset pset : option (list str))
    (table : conjugations_t) :
  subseq (keys (narrow_moods lower mset tset pset table)) (keys table).
Proof.
  unfold narrow_moods, keys.
  induction table as [|[m ts] l IH]; simpl; [constructor|].
  destruct (rejects lower mset m); [constructor; exact IH|].
  destruct (nonempty (narrow_tenses lower tset pset ts)); constructor; exact IH.
Qed.

(** A key is selected by a CSV selection when its lower-cased form is the
    lower-cased form of one of the trimmed, non-blank items. *)
Lemma to_set_member (s k : str) :
  in_set (_to_set lower (Some s)) (lower k) = true <->
  exists item, In item (split (u ",") s) /\ strip item <> []
               /\ lower (strip item) = lower k.
Proof.
  unfold _to_set. destruct s as [|c s]; simpl nonempty; cbv iota.
  - split; [discriminate|]. intros (item & [<-|[]] & H & _).
    exfalso. apply H. reflexivity.
  - unfold in_set. rewrite str_in_In, in_map_iff. split.
    + intros (item & He & Hin). apply filter_In in Hin as [Hin Hne].
      exists item. repeat split; auto. intros E. rewrite E in Hne. discriminate.
    + intros (item & Hin & Hne & He). exists item. split; [exact He|].
      apply filter_In. split; [exact Hin|].
      destruct (strip item); [congruence | reflexivity].
Qed.

(** C7, amended: with the [full] flag the argument comes back unchanged.
    Without it, on a table that is a dict at every level: the narrowed table
    is the source table with the unselected moods, tenses and persons left
    out, then the tenses without persons and the moods without tenses left
    out, all else in its order and unchanged; selections that cover every
    key give the table back when it has no empty tense and no mood without
    tenses; a selection in force that takes no mood, or no tense, or no
    person gives the empty table; keys and selection items are compared
    through their lower-cased forms. *)
Theorem apply_filters_narrows (data : scrape_result)
    (moods tenses persons : option str) :
  let mset := _to_set lower moods in
  let tset := _to_set lower tenses in
  let pset := _to_set lower persons in
  let table := conjugations data in
  let narrowed :=
    conjugations (apply_filters lower data moods tenses persons false) in
  apply_filters lower data moods tenses persons true = data
  /\ (forall s k, in_set (_to_set lower (Some s)) (lower k) = true <->
        exists item, In item (split (u ",") s) /\ strip item <> []
                     /\ lower (strip item) = lower k)
  /\ (wf_table table ->
      narrowed = narrow_moods lower mset tset pset table
      /\ no_empty_level narrowed
      /\ subseq (keys narrowed) (keys table)
      /\ (forall m ts', In (m, ts') narrowed ->
            exists ts, In (m, ts) table /\ subseq (keys ts') (keys ts)
              /\ forall t p', In (t, p') ts' ->
                   exists p, In (t, p) ts /\ subseq p' p)
      /\ (no_empty_level table ->
          covers lower mset (keys table) ->
          covers lower tset (all_tense_keys table) ->
          covers lower pset (all_person_keys table) ->
          apply_filters lower data moods tenses persons false = data)
      /\ (misses lower mset (keys table)
          \/ misses lower tset (all_tense_keys table)
          \/ misses lower pset (all_person_keys table) ->
          narrowed = [])).
Proof.
  intros mset tset pset table narrowed.
  split; [reflexivity|]. split; [exact to_set_member|].
  intros Hwf.
  assert (Hn : narrowed = narrow_moods lower mset tset pset table).
  { unfold narrowed, apply_filters. cbn [conjugations].
    apply filter_moods_narrow. exact Hwf. }
  split; [exact Hn|]. rewrite Hn. split; [|split; [|split; [|split]]].
  - intros m ts' Hin. apply narrow_moods_In in Hin as (ts & _ & _ & -> & Hne).
    split; [exact Hne|]. intros t p' Hin.
    apply narrow_tenses_In in Hin as (p & _ & _ & _ & Hp). exact Hp.
  - apply narrow_moods_keys.
  - intros m ts' Hin. apply narrow_moods_In in Hin as (ts & Hin & _ & -> & _).
    exists ts. split; [exact Hin|]. split; [apply narrow_tenses_keys|].
    intros t p' Hin'. apply narrow_tenses_In in Hin' as (p & Hp & _ & -> & _).
    exists p. split; [exact Hp | apply narrow_persons_subseq].
  - intros Hne Hm Ht Hp. unfold apply_filters.
    rewrite (filter_moods_narrow _ _ _ _ Hwf).
    fold mset tset pset. fold table.
    rewrite (narrow_moods_all mset tset pset table Hne Hm Ht Hp).
    unfold table. destruct data; reflexivity.
  - apply narrow_moods_none.
Qed.

End NarrowingFacts.

(** ** The principal forms *)

Lemma last_value_None {V : Type} (items : list (str * V)) (k : str) :
  last_value items k = None <-> ~ In k (keys items).
Proof.
  induction items as [|[k' v] l IH]; simpl; [tauto|].
  destruct (last_value l k) eqn:E.
  - split; [discriminate|]. intros H. exfalso. apply H. right.
    destruct (in_dec (list_eq_dec N.eq_dec) k (keys l)) as [Hin|Hni];
      [exact Hin|]. apply IH in Hni. discriminate.
  - destruct (str_eqb_spec k' k) as [->|Hne].
    + split; [discriminate|]. intros H. exfalso. apply H. auto.
    + split; [intros _|reflexivity]. intros [H|H]; [congruence|].
      apply IH in H; auto.
Qed.

Lemma dict_get_fold_set {V : Type} (items : list (str * V)) :
  forall (acc : dict V) (k : str),
  dict_get (fold_left (fun d kv => dict_set d (fst kv) (snd kv)) items acc) k
  = match last_value items k with
    | Some v => Some v
    | None => dict_get acc k
    end.
Proof.
  induction items as [|[k' v] l IH]; intros acc k; simpl; [reflexivity|].
  rewrite IH. destruct (last_value l k); [reflexivity|].
  rewrite dict_get_set.
  destruct (str_eqb_spec k k') as [->|Hne].
  - rewrite str_eqb_refl. reflexivity.
  - destruct (str_eqb_spec k' k); [congruence | reflexivity].
Qed.

Lemma dict_get_of_items {V : Type} (items : list (str * V)) (k : str) :
  dict_get (dict_of_items items) k = last_value items k.
Proof.
  unfold dict_of_items. rewrite dict_get_fold_set.
  destruct (last_value items k); reflexivity.
Qed.

Lemma form_value_paired (values : list str) (i : nat) (lbl : str) :
  form_value values i lbl = paired_value values i lbl.
Proof.
  unfold form_value, paired_value.
  destruct (Nat.ltb_spec i (List.length values)) as [H|H]; [reflexivity|].
  rewrite (nth_overflow values [] H). reflexivity.
Qed.

Lemma paired_value_overflow (values : list str) (i : nat) (lbl : str) :
  (List.length values <= i)%nat -> paired_value values i lbl = [].
Proof.
  intros H. unfold paired_value. rewrite (nth_overflow values [] H).
  destruct (str_eqb lbl (u "forma pronominale")); reflexivity.
Qed.

Lemma pair_forms_items (values labels : list str) :
  pair_forms values labels = dict_of_items (positional_pairs values labels).
Proof.
  unfold pair_forms, dict_of_items, positional_pairs, pairs_from, enumerate.
  assert (G : forall (l : list (nat * str)) (acc : dict str),
    fold_left
      (fun forms il =>
         dict_set forms (snd il) (form_value values (fst il) (snd il))) l acc
    = fold_left (fun d kv => dict_set d (fst kv) (snd kv))
        (map (fun il => (snd il, paired_value values (fst il) (snd il))) l) acc).
  { induction l as [|[i lbl] l IH]; intros acc; simpl; [reflexivity|].
    rewrite form_value_paired. apply IH. }
  apply G.
Qed.

Lemma pairs_from_keys (values : list str) (labels : list str) :
  forall a, keys (pairs_from values a labels) = labels.
Proof.
  unfold keys, pairs_from.
  induction labels as [|l ls IH]; intros a; simpl; [reflexivity|].
  rewrite IH. reflexivity.
Qed.

Lemma last_value_position (values labels : list str) :
  forall (a i : nat) (lbl : str),
  nth_error labels i = Some lbl ->
  (forall j, (i < j)%nat -> nth_error labels j <> Some lbl) ->
  last_value (pairs_from values a labels) lbl
  = Some (paired_value values (a + i) lbl).
Proof.
  induction labels as [|l ls IH]; intros a i lbl Hi Hlast.
  - destruct i; discriminate.
  - change (pairs_from values a (l :: ls))
      with ((l, paired_value values a l) :: pairs_from values (S a) ls).
    cbn [last_value]. destruct i as [|i'].
    + injection Hi as ->.
      assert (Hn : last_value (pairs_from values (S a) ls) lbl = None).
      { apply last_value_None. rewrite pairs_from_keys. intros Hin.
        apply In_nth_error in Hin as [j Hj].
        apply (Hlast (S j)); [lia | exact Hj]. }
      rewrite Hn, str_eqb_refl, Nat.add_0_r. reflexivity.
    + rewrite (IH (S a) i' lbl Hi).
      * f_equal. f_equal. lia.
      * intros j Hj. apply (Hlast (S j)). lia.
Qed.

Lemma last_value_beyond (values labels : list str) :
  forall (a : nat) (k x : str),
  (List.length values <= a)%nat ->
  last_value (pairs_from values a labels) k = Some x -> x = [].
Proof.
  induction labels as [|l ls IH]; intros a k x Ha; [discriminate|].
  change (pairs_from values a (l :: ls))
    with ((l, paired_value values a l) :: pairs_from values (S a) ls).
  cbn [last_value].
  destruct (last_value (pairs_from values (S a) ls) k) eqn:E.
  - intros [= <-]. apply (IH (S a) k); [lia | exact E].
  - destruct (str_eqb l k); [|discriminate].
    intros [= <-]. apply paired_value_overflow. exact Ha.
Qed.

Lemma last_value_unmatched (values labels : list str) :
  forall (a i : nat) (lbl : str),
  nth_error labels i = Some lbl ->
  (List.length values <= a + i)%nat ->
  last_value (pairs_from values a labels) lbl = Some [].
Proof.
  induction labels as [|l ls IH]; intros a i lbl Hi Ha.
  - destruct i; discriminate.
  - change (pairs_from values a (l :: ls))
      with ((l, paired_value values a l) :: pairs_from values (S a) ls).
    cbn [last_value]. destruct i as [|i'].
    + injection Hi as ->. rewrite Nat.add_0_r in Ha.
      destruct (last_value (pairs_from values (S a) ls) lbl) as [x|] eqn:E.
      * f_equal. apply (last_value_beyond values ls (S a) lbl); [lia | exact E].
      * rewrite str_eqb_refl, paired_value_overflow by exact Ha. reflexivity.
    + rewrite (IH (S a) i' lbl Hi); [reflexivity | lia].
Qed.

Section PrincipalFormsFacts.
Variable lower : str -> str.

Lemma parse_principal_forms_forms (soup : node) :
  h_forms (fst (parse_principal_forms lower soup))
  = pair_forms (value_cell_lines soup)
      (map (clean_label lower) (label_cell_lines soup)).
Proof.
  unfold parse_principal_forms, value_cell_lines, label_cell_lines, summary_cells.
  destruct (find soup [] (by_name_attr (u "table") (u "id") (u "conjtable")))
    as [table|]; [|reflexivity].
  destruct (find soup table (by_name (u "tr"))) as [first_tr|]; [|reflexivity].
  destruct (find_all soup first_tr (by_name (u "td"))) as [|label_td more];
    [reflexivity|].
  destruct (lines_from_td_at soup label_td) as [labels soup1]. cbn [fst snd].
  destruct more as [|values_td more]; [reflexivity|].
  destruct (lines_from_td_at soup1 values_td) as [values soup2]. reflexivity.
Qed.

(** C6: the forms are the dict of the positional pairs of the two columns:
    a label, lower-cased and without trailing colons, goes with the value
    line of its position, or with the empty string when the value column is
    shorter; the value of the pronominal form loses its arrows and is
    trimmed; a page without the summary table has no forms. *)
Theorem principal_forms_paired (soup : node) :
  let forms := h_forms (fst (parse_principal_forms lower soup)) in
  let labels := map (clean_label lower) (label_cell_lines soup) in
  let values := value_cell_lines soup in
  (find soup [] (by_name_attr (u "table") (u "id") (u "conjtable")) = None ->
   forms = [])
  /\ forms = dict_of_items (positional_pairs values labels)
  /\ (forall lbl, dict_get forms lbl = None <-> ~ In lbl labels)
  /\ (forall i lbl,
        nth_error labels i = Some lbl ->
        (forall j, (i < j)%nat -> nth_error labels j <> Some lbl) ->
        dict_get forms lbl = Some (paired_value values i lbl))
  /\ (forall i lbl,
        nth_error labels i = Some lbl -> (List.length values <= i)%nat ->
        dict_get forms lbl = Some [])
  /\ (forall i,
        paired_value values i (u "forma pronominale")
        = strip (replace1 ARROW [] (nth i values []))).
Proof.
  intros forms labels values.
  assert (Hf : forms = dict_of_items (positional_pairs values labels)).
  { unfold forms. rewrite parse_principal_forms_forms. apply pair_forms_items. }
  split; [|split; [exact Hf|]].
  - intros Hnone. unfold forms, parse_principal_forms. rewrite Hnone. reflexivity.
  - rewrite Hf. unfold positional_pairs. split; [|split; [|split]].
    + intros lbl. rewrite dict_get_of_items, last_value_None, pairs_from_keys.
      reflexivity.
    + intros i lbl Hi Hlast. rewrite dict_get_of_items.
      apply (last_value_position values labels 0 i lbl Hi Hlast).
    + intros i lbl Hi Hlen. rewrite dict_get_of_items.
      apply (last_value_unmatched values labels 0 i lbl Hi). exact Hlen.
    + intros i. reflexivity.
Qed.

End PrincipalFormsFacts.

(** ** The cell line splitter *)

(** Induction on a page element, with the hypothesis for every child. *)
Lemma node_forall_ind (P : node -> Prop) :
  (forall s, P (NavigableString s)) ->
  (forall s, P (Comment s)) ->
  (forall nm at_ cs, Forall P cs -> P (Tag nm at_ cs)) ->
  (forall shown old, P old -> P (Gone shown old)) ->
  forall n, P n.
Proof.
  intros Hstring Hcomment Htag Hgone.
  fix IH 1. intros [s|s|nm at_ cs|shown old].
  - apply Hstring.
  - apply Hcomment.
  - apply Htag. induction cs as [|c r IHr]; constructor; [apply IH | exact IHr].
  - apply Hgone. apply IH.
Qed.

Lemma strings_after_replace_br (n : node) :
  strings_of (replace_br n) = map piece_text (pieces n).
Proof.
  induction n as [s|s|nm at_ cs IH|shown old IH] using node_forall_ind;
    try reflexivity.
  - cbn [replace_br pieces]. destruct (str_eqb nm (u "br")); [reflexivity|].
    cbn [strings_of]. induction IH as [|c r Hc _ IHr]; [reflexivity|].
    simpl. rewrite map_app, Hc, IHr. reflexivity.
  - destruct shown; reflexivity.
Qed.

Lemma text_after_replace_br (td : node) :
  get_text (replace_br_below td) = concat (map piece_text (cell_pieces td)).
Proof.
  unfold get_text. f_equal. destruct td as [s|s|nm at_ cs|shown old];
    try reflexivity.
  - cbn [replace_br_below strings_of cell_pieces].
    induction cs as [|c r IH]; [reflexivity|].
    simpl. rewrite map_app, strings_after_replace_br, IH. reflexivity.
  - destruct shown; reflexivity.
Qed.

Lemma split_go_nonempty (tok : str) (s : str) :
  forall skip, split_go tok skip s <> [].
Proof.
  induction s as [|c r IH]; intros skip; simpl; [discriminate|].
  destruct skip; [|apply IH].
  destruct (starts_with tok (c :: r)); [discriminate|].
  destruct (split_go tok 0 r); discriminate.
Qed.

Lemma split_text (s rest : str) :
  ~ In 0x3c s ->
  split TOKEN (s ++ rest)
  = match split TOKEN rest with
    | h :: t => (s ++ h) :: t
    | [] => [s]
    end.
Proof.
  unfold split. induction s as [|c s IH]; intros Hs.
  - simpl. destruct (split_go TOKEN 0 rest) eqn:E; [|reflexivity].
    exfalso. apply (split_go_nonempty TOKEN rest 0%nat E).
  - assert (Hc : (0x3c =? c) = false).
    { apply N.eqb_neq. intros E. apply Hs. simpl; auto. }
    change ((c :: s) ++ rest) with (c :: (s ++ rest)).
    cbn [split_go]. change (starts_with TOKEN (c :: s ++ rest))
      with ((0x3c =? c) && starts_with (tl TOKEN) (s ++ rest)).
    rewrite Hc. cbn [andb]. rewrite IH by (intros H; apply Hs; simpl; auto).
    destruct (split_go TOKEN 0 rest) as [|h t] eqn:E; [|reflexivity].
    exfalso. apply (split_go_nonempty TOKEN rest 0%nat E).
Qed.

Lemma split_token (rest : str) :
  split TOKEN (TOKEN ++ rest) = [] :: split TOKEN rest.
Proof. reflexivity. Qed.

Lemma split_pieces (ps : list piece) :
  sentinel_free ps ->
  split TOKEN (concat (map piece_text ps)) = cut_at_breaks ps.
Proof.
  unfold sentinel_free. induction ps as [|[s|] r IH]; intros H; [reflexivity| |].
  - cbn [map concat piece_text cut_at_breaks].
    rewrite split_text by (apply H; simpl; auto).
    rewrite IH by (intros s' Hs'; apply H; simpl; auto). reflexivity.
  - cbn [map concat piece_text cut_at_breaks].
    rewrite split_token. rewrite IH by (intros s' Hs'; apply H; simpl; auto).
    reflexivity.
Qed.

(** As long as no string of the cell holds the character [<], the splitter
    returns the logical lines of the cell. *)
Lemma lines_only_at_br (td : node) :
  sentinel_free (cell_pieces td) ->
  fst (lines_from_td_br_only td) = logical_lines td.
Proof.
  intros H. unfold lines_from_td_br_only, logical_lines. cbn [fst].
  rewrite text_after_replace_br, (split_pieces _ H). reflexivity.
Qed.

(** * Further properties *)

(** ** The text normalizer, further *)

Lemma lstrip_fixed (s : str) : head_space s = false -> lstrip s = s.
Proof. destruct s as [|c r]; simpl; [reflexivity|]. intros ->. reflexivity. Qed.

Lemma rstrip_fixed (s : str) : last_space s = false -> rstrip s = s.
Proof.
  unfold last_space, rstrip. intros H. rewrite (lstrip_fixed _ H).
  apply rev_involutive.
Qed.

Lemma strip_fixed (s : str) :
  head_space s = false -> last_space s = false -> strip s = s.
Proof.
  intros Hh Hl. unfold strip. rewrite (lstrip_fixed _ Hh). apply rstrip_fixed, Hl.
Qed.

Lemma strip_idempotent (s : str) : strip (strip s) = strip s.
Proof. apply strip_fixed; [apply strip_head | apply strip_last]. Qed.

Lemma double_wsb_app (a b : str) :
  double_wsb (a ++ b) = false -> double_wsb a = false /\ double_wsb b = false.
Proof.
  induction a as [|x a IH]; [simpl; auto|].
  change ((x :: a) ++ b) with (x :: (a ++ b)). rewrite !double_wsb_cons.
  intros H. apply orb_false_iff in H as [H1 H2]. destruct (IH H2) as [Ha Hb].
  split; [|exact Hb]. rewrite Ha, orb_false_r.
  destruct (is_space x); [|reflexivity]. simpl in *.
  destruct a; [reflexivity | exact H1].
Qed.

Lemma sub_ws_run_fixed (s : str) :
  forall b,
  (forall c, In c s -> is_space c = true -> c = SP) ->
  double_wsb s = false ->
  (b = true -> head_space s = false) ->
  sub_ws_run b s = s.
Proof.
  induction s as [|c r IH]; intros b Hsp Hd Hh; [reflexivity|].
  rewrite double_wsb_cons in Hd. apply orb_false_iff in Hd as [Hd1 Hd2].
  cbn [sub_ws_run]. destruct (is_space c) eqn:Ec.
  - destruct b; [specialize (Hh eq_refl); simpl in Hh; congruence|].
    rewrite (Hsp c) by (simpl; auto). f_equal.
    apply IH; [intros x Hx; apply Hsp; simpl; auto | exact Hd2 |].
    intros _. simpl in Hd1. exact Hd1.
  - f_equal. apply IH; [intros x Hx; apply Hsp; simpl; auto | exact Hd2 |].
    discriminate.
Qed.

Lemma replace1_absent (old : N) (new s : str) :
  ~ In old s -> replace1 old new s = s.
Proof.
  unfold replace1. induction s as [|c r IH]; intros H; simpl; [reflexivity|].
  destruct (N.eqb_spec c old) as [->|Hne]; [exfalso; apply H; simpl; auto|].
  simpl. f_equal. apply IH. intros Hin. apply H. simpl; auto.
Qed.

(** What [_norm_spaces] returns: the collapsed string, cut at both ends. *)
Lemma norm_spaces_segment (s : str) :
  exists l r, re_sub_ws (replace1 NBSP [SP] s) = l ++ _norm_spaces s ++ r.
Proof. apply strip_segment. Qed.

Lemma norm_spaces_only_sp (s : str) (c : N) :
  In c (_norm_spaces s) -> is_space c = true -> c = SP.
Proof.
  destruct (norm_spaces_segment s) as (l & r & H). intros Hin.
  apply (sub_ws_run_spaces false (replace1 NBSP [SP] s)).
  fold (re_sub_ws (replace1 NBSP [SP] s)). rewrite H.
  apply in_or_app; right; apply in_or_app; left; exact Hin.
Qed.

Lemma norm_spaces_no_double (s : str) : double_wsb (_norm_spaces s) = false.
Proof.
  destruct (norm_spaces_segment s) as (l & r & H).
  pose proof (proj1 (sub_ws_run_shape false (replace1 NBSP [SP] s))) as Hd.
  fold (re_sub_ws (replace1 NBSP [SP] s)) in Hd. rewrite H in Hd.
  apply double_wsb_app in Hd as [_ Hd]. apply double_wsb_app in Hd as [Hd _].
  exact Hd.
Qed.

Lemma norm_spaces_fixed (t : str) :
  (forall c, In c t -> is_space c = true -> c = SP) ->
  double_wsb t = false -> head_space t = false -> last_space t = false ->
  _norm_spaces t = t.
Proof.
  intros Hsp Hd Hh Hl. unfold _norm_spaces.
  rewrite replace1_absent.
  - unfold re_sub_ws. rewrite (sub_ws_run_fixed t false Hsp Hd) by discriminate.
    apply strip_fixed; assumption.
  - intros Hin. specialize (Hsp NBSP Hin eq_refl). discriminate Hsp.
Qed.

Lemma norm_spaces_idem (s : str) : _norm_spaces (_norm_spaces s) = _norm_spaces s.
Proof.
  apply norm_spaces_fixed.
  - apply norm_spaces_only_sp.
  - apply norm_spaces_no_double.
  - apply strip_head.
  - apply strip_last.
Qed.

(** The characters of a string that are not whitespace. *)
Lemma visible_replace1 (s : str) :
  filter (fun c => negb (is_space c)) (replace1 NBSP [SP] s)
  = filter (fun c => negb (is_space c)) s.
Proof.
  unfold replace1. induction s as [|c r IH]; simpl; [reflexivity|].
  destruct (N.eqb_spec c NBSP) as [->|Hne]; simpl; rewrite IH; reflexivity.
Qed.

Lemma visible_sub_ws_run (b : bool) (s : str) :
  filter (fun c => negb (is_space c)) (sub_ws_run b s)
  = filter (fun c => negb (is_space c)) s.
Proof.
  revert b; induction s as [|c r IH]; intros b; simpl; [reflexivity|].
  destruct (is_space c) eqn:Ec; simpl.
  - destruct b; simpl; apply IH.
  - rewrite Ec. simpl. f_equal. apply IH.
Qed.

Lemma visible_lstrip (s : str) :
  filter (fun c => negb (is_space c)) (lstrip s)
  = filter (fun c => negb (is_space c)) s.
Proof.
  induction s as [|c r IH]; simpl; [reflexivity|].
  destruct (is_space c) eqn:Ec; simpl; [exact IH | rewrite Ec; reflexivity].
Qed.

Lemma filter_rev {A : Type} (f : A -> bool) (l : list A) :
  filter f (rev l) = rev (filter f l).
Proof.
  induction l as [|x l IH]; simpl; [reflexivity|].
  rewrite filter_app, IH. simpl. destruct (f x); simpl;
    [reflexivity | apply app_nil_r].
Qed.

Lemma visible_strip (s : str) :
  filter (fun c => negb (is_space c)) (strip s)
  = filter (fun c => negb (is_space c)) s.
Proof.
  unfold strip, rstrip.
  rewrite filter_rev, visible_lstrip, filter_rev, rev_involutive.
  apply visible_lstrip.
Qed.

Lemma visible_norm_spaces (s : str) :
  filter (fun c => negb (is_space c)) (_norm_spaces s)
  = filter (fun c => negb (is_space c)) s.
Proof.
  unfold _norm_spaces, re_sub_ws.
  rewrite visible_strip, visible_sub_ws_run. apply visible_replace1.
Qed.

Lemma no_visible_all_space (s : str) :
  filter (fun c => negb (is_space c)) s = [] <-> forallb is_space s = true.
Proof.
  induction s as [|c r IH]; simpl; [tauto|].
  destruct (is_space c); simpl; [exact IH|]. split; discriminate.
Qed.

Lemma strip_empty_iff (s : str) : strip s = [] <-> forallb is_space s = true.
Proof.
  rewrite <- no_visible_all_space, <- visible_strip. split.
  - intros ->. reflexivity.
  - intros H. pose proof (strip_head s) as Hh.
    destruct (strip s) as [|c t]; [reflexivity|].
    simpl in H, Hh. rewrite Hh in H. discriminate.
Qed.

Lemma norm_spaces_empty_iff (s : str) :
  _norm_spaces s = [] <-> forallb is_space s = true.
Proof.
  rewrite <- no_visible_all_space, <- visible_norm_spaces. split.
  - intros ->. reflexivity.
  - intros H. pose proof (strip_head (re_sub_ws (replace1 NBSP [SP] s))) as Hh.
    fold (_norm_spaces s) in Hh.
    destruct (_norm_spaces s) as [|c t]; [reflexivity|].
    simpl in H, Hh. rewrite Hh in H. discriminate.
Qed.

(** X1: normalizing a normalized string changes nothing. *)
Theorem norm_spaces_idempotent (s : str) :
  _norm_spaces (_norm_spaces s) = _norm_spaces s.
Proof. exact (norm_spaces_idem s). Qed.

(** X2: the normalizer neither drops, adds nor reorders a character that is
    not whitespace, and every whitespace character it leaves is a plain
    space. *)
Theorem norm_spaces_keeps_visible (s : str) :
  filter (fun c => negb (is_space c)) (_norm_spaces s)
  = filter (fun c => negb (is_space c)) s
  /\ forall c, In c (_norm_spaces s) -> is_space c = true -> c = SP.
Proof. split; [apply visible_norm_spaces | apply norm_spaces_only_sp]. Qed.

(** X3: the normalizer returns the empty string exactly for the strings
    that consist of whitespace only. *)
Theorem norm_spaces_empty_only_for_blank (s : str) :
  _norm_spaces s = [] <-> forallb is_space s = true.
Proof. exact (norm_spaces_empty_iff s). Qed.

(** ** Selections: splitting and joining *)

Lemma split1_cons (c x : N) (r : str) :
  split [c] (x :: r)
  = if c =? x then [] :: split [c] r
    else match split [c] r with
         | h :: t => (x :: h) :: t
         | [] => [[x]]
         end.
Proof.
  unfold split. cbn [split_go starts_with List.length Nat.sub].
  rewrite andb_true_r. reflexivity.
Qed.

Lemma split_nonempty (tok s : str) : split tok s <> [].
Proof. apply split_go_nonempty. Qed.

Lemma split1_parts (c : N) (s : str) :
  forall p, In p (split [c] s) -> ~ In c p.
Proof.
  induction s as [|x r IH]; intros p.
  - intros [<-|[]]. simpl. tauto.
  - rewrite split1_cons. destruct (N.eqb_spec c x) as [->|Hne].
    + intros [<-|H]; [simpl; tauto | apply IH; exact H].
    + destruct (split [c] r) as [|h t] eqn:E;
        [exfalso; apply (split_nonempty [c] r E)|].
      intros [<-|H].
      * intros [Hx|Hh]; [congruence|]. apply (IH h); simpl; auto.
      * apply IH. simpl; auto.
Qed.

Lemma split1_text (c : N) (x rest : str) :
  ~ In c x ->
  split [c] (x ++ rest)
  = match split [c] rest with
    | h :: t => (x ++ h) :: t
    | [] => [x]
    end.
Proof.
  induction x as [|a x IH]; intros H.
  - simpl. destruct (split [c] rest) eqn:E; [|reflexivity].
    exfalso. apply (split_nonempty [c] rest E).
  - change ((a :: x) ++ rest) with (a :: (x ++ rest)). rewrite split1_cons.
    destruct (N.eqb_spec c a) as [->|Hne]; [exfalso; apply H; simpl; auto|].
    rewrite IH by (intros Hin; apply H; simpl; auto).
    destruct (split [c] rest) as [|h t] eqn:E; [|reflexivity].
    exfalso. apply (split_nonempty [c] rest E).
Qed.

Lemma split1_join (c : N) (l : list str) :
  l <> [] -> (forall p, In p l -> ~ In c p) -> split [c] (join [c] l) = l.
Proof.
  induction l as [|x l IH]; intros Hne H; [congruence|].
  destruct l as [|y l].
  - simpl. rewrite <- (app_nil_r x) at 1.
    rewrite split1_text by (apply H; simpl; auto).
    change (split [c] []) with [@nil N]. cbv iota.
    rewrite app_nil_r. reflexivity.
  - change (join [c] (x :: y :: l)) with (x ++ [c] ++ join [c] (y :: l)).
    rewrite split1_text by (apply H; simpl; auto).
    change ([c] ++ join [c] (y :: l)) with (c :: join [c] (y :: l)).
    rewrite split1_cons, N.eqb_refl.
    rewrite IH; [rewrite app_nil_r; reflexivity | discriminate |].
    intros p Hp. apply H. simpl; simpl in Hp; tauto.
Qed.

Lemma strip_In (s : str) (c : N) : In c (strip s) -> In c s.
Proof.
  destruct (strip_segment s) as (l & r & H). intros Hin. rewrite H.
  apply in_or_app; right; apply in_or_app; left; exact Hin.
Qed.

Lemma csv_items (s : str) :
  Forall selection_item
    (map strip (filter (fun part => nonempty (strip part)) (split (u ",") s))).
Proof.
  apply Forall_forall. intros item Hin.
  apply in_map_iff in Hin as (part & <- & Hp).
  apply filter_In in Hp as [Hp Hne]. repeat split.
  - intros E. rewrite E in Hne. discriminate.
  - apply strip_idempotent.
  - intros Hc. apply strip_In in Hc. revert Hc.
    apply (split1_parts 0x2c s part). exact Hp.
Qed.

Lemma join_nonempty (sep : str) (l : list str) :
  l <> [] -> (forall p, In p l -> p <> []) -> join sep l <> [].
Proof.
  destruct l as [|x l]; [congruence|]. intros _ H.
  assert (Hx : x <> []) by (apply H; simpl; auto).
  destruct x as [|a x]; [congruence|]. destruct l; simpl; discriminate.
Qed.

Section SelectionFacts.
Variable lower : str -> str.

Lemma to_set_of_items (l : list str) :
  l <> [] -> Forall selection_item l ->
  _to_set lower (csv_of l) = Some (map lower l).
Proof.
  intros Hne Hall. rewrite Forall_forall in Hall.
  unfold csv_of. destruct l as [|x l'] eqn:El; [congruence|]. rewrite <- El in *.
  replace (nonempty l) with true by (rewrite El; reflexivity).
  assert (Hj : nonempty (join (u ",") l) = true).
  { destruct (join (u ",") l) as [|a j] eqn:Ej; [|reflexivity].
    exfalso. revert Ej. apply join_nonempty; [exact Hne|].
    intros p Hp. apply (Hall p Hp). }
  unfold _to_set. rewrite Hj. f_equal.
  change (u ",") with [0x2c].
  rewrite split1_join by (auto; intros p Hp; apply (Hall p Hp)).
  rewrite filter_all.
  - apply map_ext_in. intros p Hp. destruct (Hall p Hp) as (_ & -> & _).
    reflexivity.
  - intros p Hp. destruct (Hall p Hp) as (Hn & -> & _).
    destruct p; [congruence | reflexivity].
Qed.

End SelectionFacts.

Lemma csv_to_list_Some (s : str) (l : list str) :
  _csv_to_list (Some s) = Some l ->
  nonempty s = true
  /\ l = map strip (filter (fun part => nonempty (strip part)) (split (u ",") s)).
Proof.
  unfold _csv_to_list. destruct (nonempty s); [|discriminate].
  intros [= <-]. auto.
Qed.

(** X4: the items that the endpoint cuts out of a CSV parameter are trimmed
    and not blank and hold no comma; so no CSV names a label that holds a
    comma, such as the third persons of [Person]. *)
Theorem csv_to_list_items (s : str) (l : list str) :
  _csv_to_list (Some s) = Some l ->
  Forall selection_item l
  /\ (forall label, In 0x2c label -> ~ In label l)
  /\ ~ In (u "lui, lei, Lei, egli") l
  /\ ~ In (u "loro, Loro, essi") l.
Proof.
  intros H. apply csv_to_list_Some in H as [_ ->].
  pose proof (csv_items s) as Hall. rewrite Forall_forall in Hall.
  assert (Hc : forall label, In 0x2c label ->
            ~ In label (map strip
                 (filter (fun part => nonempty (strip part)) (split (u ",") s)))).
  { intros label Hl Hin. destruct (Hall label Hin) as (_ & _ & Hno). tauto. }
  split; [apply Forall_forall; exact Hall|]. split; [exact Hc|].
  split; apply Hc; simpl; tauto.
Qed.

Section SelectionRoundTrip.
Variable lower : str -> str.

(** X5: the selection that reaches the filter after the endpoint has cut the
    CSV into items and joined the items again is the one the CSV itself
    gives: the lower-cased items; when there is no item, both select
    everything. *)
Theorem selection_round_trip (s : str) (l : list str) :
  _csv_to_list (Some s) = Some l ->
  _to_set lower (Some s) = Some (map lower l)
  /\ _to_set lower (csv_of l)
     = (if nonempty l then Some (map lower l) else None)
  /\ forall k, rejects lower (_to_set lower (csv_of l)) k
               = rejects lower (_to_set lower (Some s)) k.
Proof.
  intros H. pose proof (csv_items s) as Hall.
  apply csv_to_list_Some in H as [Hs Hl]. rewrite <- Hl in Hall.
  assert (H1 : _to_set lower (Some s) = Some (map lower l)).
  { unfold _to_set. rewrite Hs, Hl, map_map. reflexivity. }
  assert (H2 : _to_set lower (csv_of l)
               = if nonempty l then Some (map lower l) else None).
  { destruct l as [|x l']; [reflexivity|].
    apply to_set_of_items; [discriminate | exact Hall]. }
  split; [exact H1|]. split; [exact H2|].
  intros k. rewrite H1, H2. destruct l; reflexivity.
Qed.

End SelectionRoundTrip.

(** ** The canonical order of persons, further *)

Lemma In_dict_set {V : Type} (d : dict V) (k : str) (v : V) (k' : str) (v' : V) :
  In (k', v') (dict_set d k v) -> (k' = k /\ v' = v) \/ In (k', v') d.
Proof.
  induction d as [|[k0 v0] r IH]; simpl.
  - intros [[= <- <-]|[]]. auto.
  - destruct (str_eqb_spec k k0) as [->|Hne]; simpl.
    + intros [[= <- <-]|H]; auto.
    + intros [H|H]; [auto|]. destruct (IH H); auto.
Qed.

Lemma ordered_tense_map_parts (tm : dict str) (mood tense : str) :
  wf_dict tm ->
  _ordered_tense_map tm mood tense
  = canonical_part (desired_order mood) tm
      ++ remaining_part (desired_order mood) tm.
Proof.
  intros Hwf. unfold _ordered_tense_map. fold (desired_order mood).
  rewrite first_loop by (auto using desired_order_NoDup).
  rewrite second_loop by exact Hwf. simpl. f_equal.
  apply filter_ext_in. intros [k v] Hin. simpl. f_equal.
  apply eq_true_iff_eq. rewrite dict_mem_keys, canonical_part_keys, str_in_In.
  apply (in_map fst) in Hin. simpl in Hin. unfold keys. tauto.
Qed.

Lemma dict_get_app {V : Type} (a b : dict V) (k : str) :
  dict_get (a ++ b) k
  = match dict_get a k with Some v => Some v | None => dict_get b k end.
Proof.
  induction a as [|[k0 v0] a IH]; simpl; [reflexivity|].
  destruct (str_eqb k k0); [reflexivity | exact IH].
Qed.

Lemma dict_get_canonical (desired : list str) (tm : dict str) (k : str) :
  dict_get (canonical_part desired tm) k
  = if str_in k desired then dict_get tm k else None.
Proof.
  unfold canonical_part. induction desired as [|d l IH]; simpl; [reflexivity|].
  rewrite dict_get_app, IH.
  destruct (str_eqb_spec k d) as [->|Hne]; simpl.
  - destruct (dict_get tm d) eqn:E; simpl.
    + rewrite str_eqb_refl. reflexivity.
    + destruct (str_in d l); reflexivity.
  - destruct (dict_get tm d); simpl; [|reflexivity].
    destruct (str_eqb_spec k d); [congruence | reflexivity].
Qed.

Lemma dict_get_filter_keys {V : Type} (f : str -> bool) (d : dict V) (k : str) :
  dict_get (filter (fun kv => f (fst kv)) d) k
  = if f k then dict_get d k else None.
Proof.
  induction d as [|[k0 v0] d IH]; simpl; [destruct (f k); reflexivity|].
  destruct (f k0) eqn:E0; simpl.
  - destruct (str_eqb_spec k k0) as [->|Hne]; [rewrite E0; reflexivity | exact IH].
  - destruct (str_eqb_spec k k0) as [->|Hne]; [|exact IH].
    rewrite IH, E0. reflexivity.
Qed.

Lemma dict_get_ordered (tm : dict str) (mood tense k : str) :
  wf_dict tm ->
  dict_get (_ordered_tense_map tm mood tense) k = dict_get tm k.
Proof.
  intros Hwf. rewrite (ordered_tense_map_parts tm mood tense Hwf).
  unfold remaining_part.
  rewrite dict_get_app, dict_get_canonical,
    (dict_get_filter_keys (fun k => negb (str_in k (desired_order mood)))).
  destruct (str_in k (desired_order mood)); simpl; [|reflexivity].
  destruct (dict_get tm k); reflexivity.
Qed.

Lemma canonical_part_ext (desired : list str) (a b : dict str) :
  (forall k, dict_get a k = dict_get b k) ->
  canonical_part desired a = canonical_part desired b.
Proof.
  intros H. unfold canonical_part. apply flat_map_ext. intros k.
  rewrite H. reflexivity.
Qed.

Lemma remaining_of_canonical (desired : list str) (tm : dict str) :
  remaining_part desired (canonical_part desired tm) = [].
Proof.
  unfold remaining_part. apply filter_none. intros [k v] Hin. cbn [fst].
  apply (in_map fst) in Hin. cbn [fst] in Hin.
  apply canonical_part_keys in Hin as [Hd _].
  apply str_in_In in Hd. rewrite Hd. reflexivity.
Qed.

Lemma remaining_of_remaining (desired : list str) (tm : dict str) :
  remaining_part desired (remaining_part desired tm) = remaining_part desired tm.
Proof.
  unfold remaining_part. apply filter_all. intros kv Hin.
  apply filter_In in Hin as [_ H]. exact H.
Qed.

Lemma ordered_tense_map_wf (tm : dict str) (mood tense : str) :
  wf_dict tm -> wf_dict (_ordered_tense_map tm mood tense).
Proof.
  intros Hwf. rewrite (ordered_tense_map_parts tm mood tense Hwf).
  unfold wf_dict, keys. rewrite map_app. apply NoDup_app.
  - apply (canonical_part_wf _ tm (desired_order_NoDup mood)).
  - apply (wf_dict_filter _ tm Hwf).
  - intros k Hc Hr. apply canonical_part_keys in Hc as [Hd _].
    apply in_map_iff in Hr as ([k' v] & <- & Hin).
    apply filter_In in Hin as [_ Hn]. simpl in Hn, Hd.
    apply str_in_In in Hd. rewrite Hd in Hn. discriminate.
Qed.

Lemma ordered_tense_map_idem (tm : dict str) (mood tense : str) :
  wf_dict tm ->
  _ordered_tense_map (_ordered_tense_map tm mood tense) mood tense
  = _ordered_tense_map tm mood tense.
Proof.
  intros Hwf.
  rewrite (ordered_tense_map_parts _ mood tense
             (ordered_tense_map_wf tm mood tense Hwf)).
  rewrite (canonical_part_ext _ _ tm)
    by (intros k; apply dict_get_ordered; exact Hwf).
  rewrite (ordered_tense_map_parts tm mood tense Hwf) at 1.
  unfold remaining_part at 1. rewrite filter_app.
  fold (remaining_part (desired_order mood)
          (canonical_part (desired_order mood) tm)).
  fold (remaining_part (desired_order mood)
          (remaining_part (desired_order mood) tm)).
  rewrite remaining_of_canonical, remaining_of_remaining.
  symmetry. apply ordered_tense_map_parts. exact Hwf.
Qed.

(** X6: reordering keeps every lookup and the distinctness of the keys: a
    person has the same form before and after, and no person is there
    twice. *)
Theorem ordered_tense_map_lookup (tense_map : dict str) (mood tense : str) :
  wf_dict tense_map ->
  wf_dict (_ordered_tense_map tense_map mood tense)
  /\ forall k, dict_get (_ordered_tense_map tense_map mood tense) k
               = dict_get tense_map k.
Proof.
  intros Hwf. split; [apply ordered_tense_map_wf; exact Hwf|].
  intros k. apply dict_get_ordered. exact Hwf.
Qed.

(** X7: reordering a map that is already reordered for the same mood
    changes nothing. *)
Theorem ordered_tense_map_idempotent (tense_map : dict str) (mood tense : str) :
  wf_dict tense_map ->
  _ordered_tense_map (_ordered_tense_map tense_map mood tense) mood tense
  = _ordered_tense_map tense_map mood tense.
Proof. apply ordered_tense_map_idem. Qed.

(** ** The cell line splitter, further *)

Lemma replace_br_idem (n : node) : replace_br (replace_br n) = replace_br n.
Proof.
  induction n as [s|s|nm at_ cs IH|shown old IH] using node_forall_ind;
    try reflexivity.
  cbn [replace_br]. destruct (str_eqb nm (u "br")) eqn:E; [reflexivity|].
  cbn [replace_br]. rewrite E. f_equal. rewrite map_map.
  induction IH as [|c r Hc _ IHr]; [reflexivity|].
  simpl. rewrite Hc, IHr. reflexivity.
Qed.

Lemma replace_br_below_idem (td : node) :
  replace_br_below (replace_br_below td) = replace_br_below td.
Proof.
  destruct td as [s|s|nm at_ cs|shown old]; try reflexivity.
  cbn [replace_br_below]. f_equal. rewrite map_map.
  apply map_ext. intros c. apply replace_br_idem.
Qed.

Lemma replace_br_no_br (n : node) :
  self_match (by_name (u "br")) (replace_br n) = false
  /\ find_all_in (by_name (u "br")) (replace_br n) = [].
Proof.
  induction n as [s|s|nm at_ cs IH|shown old IH] using node_forall_ind;
    try (split; reflexivity).
  cbn [replace_br]. destruct (str_eqb nm (u "br")) eqn:E; [split; reflexivity|].
  split; [exact E|]. cbn [find_all_in].
  generalize 0%nat. induction IH as [|c r Hc _ IHr]; intros i; [reflexivity|].
  destruct Hc as [Hs Hf]. cbn [map]. rewrite Hs, Hf, IHr. reflexivity.
Qed.

Lemma replace_br_below_no_br (td : node) :
  find_all_in (by_name (u "br")) (replace_br_below td) = [].
Proof.
  destruct td as [s|s|nm at_ cs|shown old]; try reflexivity.
  cbn [replace_br_below find_all_in]. generalize 0%nat.
  induction cs as [|c r IH]; intros i; [reflexivity|].
  destruct (replace_br_no_br c) as [Hs Hf].
  cbn [map]. rewrite Hs, Hf, IH. reflexivity.
Qed.

Lemma lines_normal (td : node) :
  Forall normal_line (fst (lines_from_td_br_only td)).
Proof.
  apply Forall_forall. intros line Hin. unfold lines_from_td_br_only in Hin.
  cbn [fst] in Hin. apply filter_In in Hin as [Hin Hne].
  apply in_map_iff in Hin as (p & <- & _). split.
  - intros E. rewrite E in Hne. discriminate.
  - apply norm_spaces_idem.
Qed.

Lemma cut_at_breaks_length (ps : list piece) :
  List.length (cut_at_breaks ps) = S (count_breaks ps).
Proof.
  unfold count_breaks. induction ps as [|[s|] r IH]; [reflexivity| |].
  - cbn [cut_at_breaks filter]. destruct (cut_at_breaks r); [discriminate|].
    exact IH.
  - cbn [cut_at_breaks filter List.length]. rewrite IH. reflexivity.
Qed.

(** X8: every line that the splitter returns is not empty and is in
    normalized form. *)
Theorem lines_are_normal (td : node) :
  Forall normal_line (fst (lines_from_td_br_only td)).
Proof. exact (lines_normal td). Qed.

(** X9: a cell whose strings hold no [<] gives at most one line more than
    it has line breaks; without a line break it gives at most one line. *)
Theorem lines_count (td : node) :
  sentinel_free (cell_pieces td) ->
  (List.length (fst (lines_from_td_br_only td))
   <= S (count_breaks (cell_pieces td)))%nat.
Proof.
  intros H. rewrite (lines_only_at_br td H). unfold logical_lines.
  etransitivity; [apply filter_length_le|].
  rewrite length_map, cut_at_breaks_length. lia.
Qed.

(** X10: the splitter changes the cell it reads: afterwards no [br] tag is
    found in it, and reading it once more gives the same lines and changes
    nothing more. *)
Theorem lines_second_reading (td : node) :
  find_all_in (by_name (u "br")) (snd (lines_from_td_br_only td)) = []
  /\ lines_from_td_br_only (snd (lines_from_td_br_only td))
     = lines_from_td_br_only td.
Proof.
  split; [apply replace_br_below_no_br|].
  unfold lines_from_td_br_only. cbn [snd].
  rewrite replace_br_below_idem. reflexivity.
Qed.

(** ** The principal forms, further *)

Section PrincipalFormsMore.
Variable lower : str -> str.




End PrincipalFormsMore.

(** ** The conjugation tables, further *)

Lemma table_all_set_tense (P : str -> str -> dict str -> Prop)
    (res : conjugations_t) (mood tense : str) (x : dict str) :
  table_all P res -> P mood tense x -> table_all P (set_tense res mood tense x).
Proof.
  intros [Hwf Hall] Hx. unfold set_tense. split; [apply wf_dict_set; exact Hwf|].
  intros m tenses Hin. apply In_dict_set in Hin as [[-> ->]|Hin]; [|auto].
  unfold dict_get_default. destruct (dict_get res mood) as [d|] eqn:E.
  - apply dict_get_Some_In in E. destruct (Hall mood d E) as [Hd Hp].
    split; [apply wf_dict_set; exact Hd|].
    intros t persons Hin. apply In_dict_set in Hin as [[-> ->]|Hin]; auto.
  - split; [apply wf_dict_set; constructor|].
    intros t persons Hin. apply In_dict_set in Hin as [[-> ->]|[]]. exact Hx.
Qed.

Lemma table_all_new_mood (P : str -> str -> dict str -> Prop)
    (res : conjugations_t) (mood : str) :
  table_all P res ->
  table_all P (if dict_mem res mood then res else dict_set res mood []).
Proof.
  intros H. destruct (dict_mem res mood); [exact H|].
  destruct H as [Hwf Hall]. split; [apply wf_dict_set; exact Hwf|].
  intros m tenses Hin. apply In_dict_set in Hin as [[-> ->]|Hin]; [|auto].
  split; [constructor | intros t persons []].
Qed.

Section ConjugationInvariants.
Variable lower : str -> str.

Lemma tense_map_rows (soup : node) (trs : list ref) :
  forall acc : dict str,
  (wf_dict acc /\ forall k f, In (k, f) acc -> _norm_spaces f = f) ->
  let tm :=
    fold_left
      (fun tense_map tr =>
         match find soup tr (by_name_attr (u "th") (u "scope") (u "row")),
               find soup tr (by_name (u "td")) with
         | Some th, Some td =>
             dict_set tense_map (text_strip_at soup th)
               (_norm_spaces (text_at soup td))
         | _, _ => tense_map
         end) trs acc in
  wf_dict tm /\ forall k f, In (k, f) tm -> _norm_spaces f = f.
Proof.
  induction trs as [|tr trs IH]; intros acc H; [exact H|].
  cbn [fold_left]. apply IH.
  destruct (find soup tr (by_name_attr (u "th") (u "scope") (u "row")));
    [|exact H].
  destruct (find soup tr (by_name (u "td"))); [|exact H].
  destruct H as [Hwf Hn]. split; [apply wf_dict_set; exact Hwf|].
  intros k f Hin. apply In_dict_set in Hin as [[_ ->]|Hin];
    [apply norm_spaces_idem | eauto].
Qed.

Lemma read_table_props (soup : node) (table : ref) :
  fst (fst (read_table lower soup table)) <> []
  /\ wf_dict (snd (fst (read_table lower soup table)))
  /\ forall k f, In (k, f) (snd (fst (read_table lower soup table))) ->
                 _norm_spaces f = f.
Proof.
  unfold read_table.
  match goal with
  | |- context [let '(a, b) := ?x in _] => destruct x as [tense soup1]
  end.
  cbn [fst snd]. split.
  - destruct tense as [[|c t]|]; simpl; discriminate.
  - apply tense_map_rows. split; [constructor | intros k f []].
Qed.

Lemma ordered_In (tm : dict str) (mood tense k f : str) :
  wf_dict tm -> In (k, f) (_ordered_tense_map tm mood tense) -> In (k, f) tm.
Proof.
  intros Hwf Hin. apply dict_get_Some_In.
  rewrite <- (dict_get_ordered tm mood tense k Hwf).
  apply dict_get_In; [apply ordered_tense_map_wf; exact Hwf | exact Hin].
Qed.

Lemma ordered_is_canonical (tm : dict str) (mood tense : str) :
  wf_dict tm -> canonical_ordered mood (_ordered_tense_map tm mood tense).
Proof.
  intros Hwf. unfold canonical_ordered.
  rewrite <- (ordered_tense_map_parts _ mood tense
                (ordered_tense_map_wf tm mood tense Hwf)).
  symmetry. apply ordered_tense_map_idem. exact Hwf.
Qed.

Lemma table_step_stored (mood : str) (tables : list ref) :
  forall st, table_all stored_tense (fst st) ->
  table_all stored_tense (fst (fold_left (table_step lower mood) tables st)).
Proof.
  induction tables as [|tb tables IH]; intros st H; [exact H|].
  cbn [fold_left]. apply IH. destruct st as [res soup]. unfold table_step.
  pose proof (read_table_props soup tb) as Hr.
  destruct (read_table lower soup tb) as [[t tm] soup1].
  cbn [fst snd] in Hr. destruct Hr as (Ht & Hwf & Hn). cbn [fst] in *.
  apply table_all_set_tense; [exact H|]. split; [exact Ht|].
  split; [apply ordered_tense_map_wf; exact Hwf|].
  split; [apply ordered_is_canonical; exact Hwf|].
  intros k f Hin. apply (Hn k). apply (ordered_In tm mood t k f Hwf Hin).
Qed.

Lemma section_step_stored (sections : list ref) :
  forall st, table_all stored_tense (fst st) ->
  table_all stored_tense (fst (fold_left (section_step lower) sections st)).
Proof.
  induction sections as [|sec sections IH]; intros st H; [exact H|].
  cbn [fold_left]. apply IH. destruct st as [res soup]. unfold section_step.
  destruct (section_mood lower soup sec) as [m|]; [|exact H].
  apply table_step_stored. cbn [fst] in *. apply table_all_new_mood. exact H.
Qed.

Lemma parse_conjugations_stored (soup : node) :
  table_all stored_tense (fst (parse_conjugations lower soup)).
Proof.
  unfold parse_conjugations. apply section_step_stored.
  split; [constructor | intros m tenses []].
Qed.

Lemma table_all_wf (P : str -> str -> dict str -> Prop) (table : conjugations_t) :
  (forall m t persons, P m t persons -> wf_dict persons) ->
  table_all P table -> wf_table table.
Proof.
  intros HP [Hwf Hall]. split; [exact Hwf|].
  intros m tenses Hin. destruct (Hall m tenses Hin) as [Ht Hp].
  split; [exact Ht|]. intros t persons Hin'. apply (HP m t). auto.
Qed.

Lemma parse_conjugations_wf (soup : node) :
  wf_table (fst (parse_conjugations lower soup)).
Proof.
  apply (table_all_wf stored_tense); [|apply parse_conjugations_stored].
  intros m t persons (_ & H & _). exact H.
Qed.

(** X12: every form of a parsed table is in normalized form. *)
Theorem parsed_forms_normalized (soup : node) (m t k f : str)
    (tenses : mood_map_t) (persons : dict str) :
  In (m, tenses) (fst (parse_conjugations lower soup)) ->
  In (t, persons) tenses -> In (k, f) persons ->
  _norm_spaces f = f.
Proof.
  intros Hm Ht Hk.
  destruct (parse_conjugations_stored soup) as [_ Hall].
  destruct (Hall m tenses Hm) as [_ Hp].
  destruct (Hp t persons Ht) as (_ & _ & _ & Hn). eauto.
Qed.

(** X13: in a parsed table the persons of every tense stand in the
    canonical order of the mood, the other labels after the canonical
    ones, and no person stands twice. *)
Theorem parsed_persons_ordered (soup : node) (m t : str)
    (tenses : mood_map_t) (persons : dict str) :
  In (m, tenses) (fst (parse_conjugations lower soup)) ->
  In (t, persons) tenses ->
  canonical_ordered m persons /\ wf_dict persons.
Proof.
  intros Hm Ht.
  destruct (parse_conjugations_stored soup) as [_ Hall].
  destruct (Hall m tenses Hm) as [_ Hp].
  destruct (Hp t persons Ht) as (_ & Hwf & Hc & _). auto.
Qed.




(** X15: narrowing a parsed table needs no further condition: the parsed
    table is a dict at every level, and its narrowing is the table with the
    unselected keys and then the empty tenses and moods left out. *)
Theorem narrowing_a_parsed_table (soup : node) (r : scrape_result)
    (moods tenses persons : option str) :
  conjugations r = fst (parse_conjugations lower soup) ->
  wf_table (conjugations r)
  /\ conjugations (apply_filters lower r moods tenses persons false)
     = narrow_moods lower (_to_set lower moods) (_to_set lower tenses)
         (_to_set lower persons) (conjugations r).
Proof.
  intros Hr.
  assert (Hwf : wf_table (conjugations r))
    by (rewrite Hr; apply parse_conjugations_wf).
  split; [exact Hwf|].
  unfold apply_filters. cbn [conjugations].
  apply filter_moods_narrow. exact Hwf.
Qed.

End ConjugationInvariants.

(** ** The validator, further *)

Lemma flat_map_nil_iff {A B : Type} (f : A -> list B) (l : list A) :
  flat_map f l = [] <-> forall x, In x l -> f x = [].
Proof.
  induction l as [|x l IH]; simpl; [tauto|]. split.
  - intros H. apply app_eq_nil in H as [Hx Hl]. intros y [<-|Hy]; [exact Hx|].
    apply IH; assumption.
  - intros H. rewrite (H x) by auto. apply IH. auto.
Qed.

Lemma filter_nil_iff {A : Type} (f : A -> bool) (l : list A) :
  filter f l = [] <-> forall x, In x l -> f x = false.
Proof.
  split; [|apply filter_none]. induction l as [|x l IH]; simpl; [tauto|].
  destruct (f x) eqn:E; [discriminate|]. intros H y [<-|Hy]; auto.
Qed.

Lemma missing_msgs_nil (table : conjugations_t) :
  missing_msgs table = [] <-> covers_expected table.
Proof.
  unfold missing_msgs, covers_expected. rewrite flat_map_nil_iff. split.
  - intros H mood tenses Hin. specialize (H (mood, tenses) Hin). cbn beta iota in H.
    destruct (dict_get table mood) as [got|]; [|discriminate].
    exists got. split; [reflexivity|].
    destruct (filter (fun t => negb (str_in t (keys got))) tenses) eqn:E;
      [|discriminate].
    intros t Ht. assert (Hf := proj1 (filter_nil_iff _ _) E t Ht).
    apply negb_false_iff in Hf. apply str_in_In. exact Hf.
  - intros H [mood tenses] Hin. destruct (H mood tenses Hin) as (got & -> & Hall).
    rewrite (filter_none (fun t => negb (str_in t (keys got))) tenses);
      [reflexivity|].
    intros t Ht. apply negb_false_iff. apply str_in_In. auto.
Qed.

Lemma flat_map_length_le {A B : Type} (f : A -> list B) (l : list A) :
  (forall x, (List.length (f x) <= 1)%nat) ->
  (List.length (flat_map f l) <= List.length l)%nat.
Proof.
  intros H. induction l as [|x l IH]; [simpl; lia|].
  cbn [flat_map]. rewrite length_app. specialize (H x). cbn [List.length]. lia.
Qed.

Lemma missing_msgs_length (table : conjugations_t) :
  (List.length (missing_msgs table) <= 5)%nat.
Proof.
  unfold missing_msgs.
  change 5%nat with (List.length EXPECTED).
  apply flat_map_length_le. intros [mood tenses].
  destruct (dict_get table mood) as [got|]; [|cbn [List.length]; lia].
  cbv zeta.
  destruct (nonempty (filter (fun t => negb (str_in t (keys got))) tenses));
    cbn [List.length]; lia.
Qed.

Lemma missing_msgs_mood (table : conjugations_t) (mood : str)
    (tenses : list str) :
  In (mood, tenses) EXPECTED -> dict_get table mood = None ->
  In (u "Missing mood: " ++ mood) (missing_msgs table).
Proof.
  intros Hin Hnone. unfold missing_msgs. apply in_flat_map.
  exists (mood, tenses). split; [exact Hin|]. cbn beta iota.
  rewrite Hnone. left. reflexivity.
Qed.

Lemma missing_msgs_tense (table : conjugations_t) (mood t : str)
    (tenses : list str) (got : mood_map_t) :
  In (mood, tenses) EXPECTED -> dict_get table mood = Some got ->
  In t tenses -> ~ In t (keys got) ->
  In (u "Missing tense(s) in " ++ mood ++ u ": "
        ++ join (u ", ")
             (sorted (filter (fun t => negb (str_in t (keys got))) tenses)))
     (missing_msgs table).
Proof.
  intros Hin Hgot Ht Hno. unfold missing_msgs. apply in_flat_map.
  exists (mood, tenses). split; [exact Hin|]. cbn beta iota.
  rewrite Hgot. cbv zeta.
  destruct (filter (fun t => negb (str_in t (keys got))) tenses) as [|x d] eqn:E.
  - exfalso. assert (Hf := proj1 (filter_nil_iff _ _) E t Ht).
    apply negb_false_iff, str_in_In in Hf. tauto.
  - left. reflexivity.
Qed.

Section ValidatorFacts.
Variable lower : str -> str.
Variable urlencode_v : str -> str.
Variable parse_html : str -> node.
Variable net : nat -> str -> net_outcome.

(** C8: the validator collects a message exactly when the table lacks an
    expected mood, or an expected tense of a mood it has, and the message
    names what is missing; it raises exactly when the toggle is set and
    something is missing.  With the toggle off, as shipped, a scrape whose
    page was fetched returns the assembled result, the same as when nothing
    is missing, and the messages only go to the error stream; with the
    toggle on, the scrape of a table that lacks something raises. *)
Theorem check_expected_strict_only (strict : bool) (verb url html : str)
    (tr tr1 : list event) :
  build_url urlencode_v verb = inl url ->
  fetch_html net url tr = (inl html, tr1) ->
  let r := assembled lower parse_html verb url html in
  let missing := missing_msgs (conjugations r) in
  STRICT_CHECKS_shipped = false
  /\ (forall t, (exists e, fst (_check_expected strict (conjugations r) t) = inr e)
                <-> strict = true /\ missing <> [])
  /\ (strict = false ->
      fst (scrape_conjugations lower urlencode_v parse_html net strict verb tr)
      = inl r
      /\ (missing = [] ->
          snd (scrape_conjugations lower urlencode_v parse_html net strict verb tr)
          = tr1)
      /\ (missing <> [] ->
          snd (scrape_conjugations lower urlencode_v parse_html net strict verb tr)
          = tr1 ++ [EvStderr (u "[WARN] " ++ join (u " | ") missing)]))
  /\ (strict = true ->
      scrape_conjugations lower urlencode_v parse_html net strict verb tr
      = match missing with
        | [] => (inl r, tr1)
        | _ :: _ => (inr (AssertionError (join (u " | ") missing)), tr1)
        end)
  /\ (forall table, missing_msgs table = [] <-> covers_expected table)
  /\ (forall table mood tenses,
        In (mood, tenses) EXPECTED -> dict_get table mood = None ->
        In (u "Missing mood: " ++ mood) (missing_msgs table))
  /\ (forall table mood tenses got t,
        In (mood, tenses) EXPECTED -> dict_get table mood = Some got ->
        In t tenses -> ~ In t (keys got) ->
        In (u "Missing tense(s) in " ++ mood ++ u ": "
              ++ join (u ", ")
                   (sorted
                      (filter (fun t => negb (str_in t (keys got))) tenses)))
           (missing_msgs table))
  /\ (forall table t,
        (exists e, fst (_check_expected strict table t) = inr e)
        <-> strict = true /\ ~ covers_expected table)
  /\ (strict = true -> ~ covers_expected (conjugations r) ->
      scrape_conjugations lower urlencode_v parse_html net strict verb tr
      = (inr (AssertionError (join (u " | ") missing)), tr1))
  /\ (strict = true -> covers_expected (conjugations r) ->
      scrape_conjugations lower urlencode_v parse_html net strict verb tr
      = (inl r, tr1))
  /\ (strict = false -> ~ covers_expected (conjugations r) ->
      scrape_conjugations lower urlencode_v parse_html net strict verb tr
      = (inl r, tr1 ++ [EvStderr (u "[WARN] " ++ join (u " | ") missing)])).
Proof.
  intros Hurl Hfetch r missing.
  assert (Hraise : forall table t,
    (exists e, fst (_check_expected strict table t) = inr e)
    <-> strict = true /\ missing_msgs table <> []).
  { intros table t. rewrite check_expected_cases.
    destruct (missing_msgs table) as [|m ms], strict; cbn; split;
      try (intros [e He]; discriminate He);
      try (intros [H1 H2]; congruence).
    - intros _. split; [reflexivity | discriminate].
    - intros _. eauto. }
  assert (Hs : scrape_conjugations lower urlencode_v parse_html net strict verb tr
    = match _check_expected strict (conjugations r) tr1 with
      | (inr e, tr2) => (inr e, tr2)
      | (inl _, tr2) => (inl r, tr2)
      end).
  { unfold scrape_conjugations. rewrite Hurl, Hfetch.
    unfold r, assembled.
    destruct (parse_principal_forms lower (parse_html html)) as [hd soup1].
    cbn [fst snd].
    destruct (parse_conjugations lower soup1) as [table soup2].
    cbn [fst snd conjugations]. reflexivity. }
  assert (Hlack : ~ covers_expected (conjugations r) -> missing <> []).
  { intros Hno Hnil. apply Hno. apply missing_msgs_nil. exact Hnil. }
  split; [reflexivity|]. split; [intros t; apply Hraise|].
  split; [|split; [|split; [|split; [|split; [|split; [|split; [|split]]]]]]].
  - rewrite Hs, check_expected_cases. fold missing. intros ->.
    destruct missing; cbn; repeat split; congruence.
  - rewrite Hs, check_expected_cases. fold missing. intros ->.
    destruct missing; reflexivity.
  - apply missing_msgs_nil.
  - apply missing_msgs_mood.
  - intros table mood tenses got t. apply missing_msgs_tense.
  - intros table t. rewrite Hraise. split; intros [Hst Hm]; (split; [exact Hst|]).
    + intros Hc. apply Hm. apply missing_msgs_nil. exact Hc.
    + intros Hnil. apply Hm. apply missing_msgs_nil. exact Hnil.
  - intros -> Hno. specialize (Hlack Hno).
    rewrite Hs, check_expected_cases. fold missing.
    destruct missing; [congruence | reflexivity].
  - intros -> Hc. apply missing_msgs_nil in Hc. fold missing in Hc.
    rewrite Hs, check_expected_cases. fold missing. rewrite Hc. reflexivity.
  - intros -> Hno. specialize (Hlack Hno).
    rewrite Hs, check_expected_cases. fold missing.
    destruct missing; [congruence | reflexivity].
Qed.

End ValidatorFacts.

(** X16: the validator collects no message exactly when the table has every
    expected mood with every expected tense; then it neither raises nor
    writes, whatever the toggle; further moods and tenses never matter, and
    there are at most five messages, one for a mood. *)
Theorem check_expected_complete (table : conjugations_t) :
  (missing_msgs table = [] <-> covers_expected table)
  /\ (covers_expected table ->
      forall strict tr, _check_expected strict table tr = (inl tt, tr))
  /\ (List.length (missing_msgs table) <= 5)%nat.
Proof.
  split; [apply missing_msgs_nil|]. split; [|apply missing_msgs_length].
  intros H strict tr. apply missing_msgs_nil in H.
  unfold _check_expected. rewrite H. reflexivity.
Qed.

(** ** Fetching, further *)

Lemma events_from_gets (url : str) (m : nat) :
  forall a, count_gets (events_from url a m) = m.
Proof.
  induction m as [|m IH]; intros a; [reflexivity|].
  cbn [events_from]. destruct m as [|m']; [reflexivity|].
  change (count_gets (EvGet url :: EvSleep (S a) :: events_from url (S a) (S m')))
    with (S (count_gets (events_from url (S a) (S m')))).
  rewrite IH. reflexivity.
Qed.

Lemma events_from_In (url : str) (m : nat) :
  forall a e, In e (events_from url a m) ->
  e = EvGet url \/ exists n, e = EvSleep n /\ (a < n < a + m)%nat.
Proof.
  induction m as [|m IH]; intros a e; [intros []|].
  cbn [events_from]. intros [<-|Hin]; [auto|].
  destruct m as [|m']; [destruct Hin|].
  destruct Hin as [<-|Hin]; [right; exists (S a); split; [reflexivity | lia]|].
  destruct (IH (S a) e Hin) as [He|(n & He & Hn)]; [auto|].
  right. exists n. split; [exact He | lia].
Qed.

Lemma events_from_wait (url : str) (m : nat) :
  forall a l k r, events_from url a m = l ++ EvSleep k :: r ->
  (exists l', l = l' ++ [EvGet url])
  /\ (exists r', r = EvGet url :: r')
  /\ k = (a + count_gets l)%nat.
Proof.
  induction m as [|m IH]; intros a l k r H.
  - destruct l; discriminate H.
  - cbn [events_from] in H. destruct l as [|x l1]; [discriminate H|].
    injection H as <- H. destruct m as [|m']; [destruct l1; discriminate H|].
    destruct l1 as [|y l2].
    + injection H as <- <-. split; [exists []; reflexivity|].
      split; [eexists; reflexivity|].
      change (count_gets [EvGet url]) with 1%nat.
      symmetry. apply Nat.add_1_r.
    + injection H as <- H.
      destruct (IH (S a) l2 k r H) as ((l' & ->) & Hr & ->).
      split; [exists (EvGet url :: EvSleep (S a) :: l'); reflexivity|].
      split; [exact Hr|].
      change (EvGet url :: EvSleep (S a) :: l' ++ [EvGet url])
        with ([EvGet url; EvSleep (S a)] ++ (l' ++ [EvGet url])).
      rewrite (count_gets_app [EvGet url; EvSleep (S a)]).
      change (count_gets [EvGet url; EvSleep (S a)]) with 1%nat.
      rewrite Nat.add_assoc, Nat.add_1_r. reflexivity.
Qed.

Section FetchMore.
Variable net : nat -> str -> net_outcome.

Lemma fetch_tries_shape (url : str) (tries : nat) (tr : list event) :
  (1 <= tries)%nat ->
  exists m, (1 <= m <= tries)%nat
    /\ snd (fetch_html_tries net url tries tr) = tr ++ events_from url 0 m
    /\ forall body, fst (fetch_html_tries net url tries tr) = inl body ->
         net (count_gets tr + (m - 1)) url = NetText body.
Proof.
  intros Ht. unfold fetch_html_tries.
  destruct (fetch_attempts_ends net url tries tries None tr) as (m & Hm); [lia|].
  destruct Hm as (Hle & Htr & _ & Hlast). rewrite Nat.sub_diag in Htr.
  exists m. split; [exact Hle|]. split; [exact Htr|].
  intros body Hb. rewrite Hb in Hlast.
  destruct (net (count_gets tr + (m - 1)) url) as [b|e|e].
  - injection Hlast as ->. reflexivity.
  - destruct Hlast as [_ H]. discriminate H.
  - discriminate Hlast.
Qed.

(** X17: for any number of tries a fetch sends at most that many requests,
    all for the given URL; its events are a request, then a wait and a
    request for every further attempt, so every wait stands between two
    requests, and the wait after the [k]-th request is of [k] seconds, less
    than [tries]; it returns a body only if it is the body of one of these
    requests; with no tries it sends nothing and fails with a [TypeError],
    not with a transport error. *)
Theorem fetch_html_any_tries (url : str) (tries : nat) (tr : list event) :
  (exists new, snd (fetch_html_tries net url tries tr) = tr ++ new
     /\ (count_gets new <= tries)%nat
     /\ Forall (fetch_event url tries) new
     /\ (exists n, (n <= tries)%nat /\ new = attempt_events url n)
     /\ (forall l k r, new = l ++ EvSleep k :: r ->
           (exists l', l = l' ++ [EvGet url])
           /\ (exists r', r = EvGet url :: r')
           /\ k = count_gets l))
  /\ (forall body, fst (fetch_html_tries net url tries tr) = inl body ->
        exists k, (k < tries)%nat /\ net (count_gets tr + k) url = NetText body)
  /\ (tries = 0%nat ->
      fetch_html_tries net url tries tr
      = (inr (TypeError (u "exceptions must derive from BaseException")), tr)).
Proof.
  destruct tries as [|n].
  - split; [|split].
    + exists []. rewrite app_nil_r. split; [reflexivity|].
      split; [apply Nat.le_refl|]. split; [constructor|].
      split; [exists 0%nat; split; [lia | reflexivity]|].
      intros l k r H. destruct l; discriminate H.
    + intros body H. discriminate H.
    + reflexivity.
  - destruct (fetch_tries_shape url (S n) tr) as (m & Hm & Htr & Hbody); [lia|].
    split; [|split].
    + exists (events_from url 0 m). split; [exact Htr|].
      split; [rewrite events_from_gets; lia|].
      split; [|split].
      * apply Forall_forall. intros e He.
        destruct (events_from_In url m 0 e He) as [->|(k & -> & Hk)];
          [left; reflexivity|].
        right. exists k. split; [reflexivity | lia].
      * exists m. split; [lia | reflexivity].
      * intros l k r H.
        destruct (events_from_wait url m 0 l k r H) as (Hl & Hr & Hk).
        repeat split; assumption.
    + intros body Hb. exists (m - 1)%nat. split; [lia | apply Hbody, Hb].
    + discriminate.
Qed.

End FetchMore.

(** ** The orchestrator, further *)

Section ScrapeMore.
Variable lower : str -> str.
Variable urlencode_v : str -> str.
Variable parse_html : str -> node.
Variable net : nat -> str -> net_outcome.

Lemma build_url_cases (verb : str) :
  build_url urlencode_v verb
  = if forallb is_space verb
    then inr (ValueError (u "Empty verb provided."))
    else inl (BASE ++ u "?" ++ urlencode_v (strip verb)).
Proof.
  unfold build_url. destruct (forallb is_space verb) eqn:E.
  - apply strip_empty_iff in E. rewrite E. reflexivity.
  - destruct (strip verb) as [|c t] eqn:Es; [|reflexivity].
    apply strip_empty_iff in Es. congruence.
Qed.

(** X18: the URL is built from the trimmed verb alone, so whitespace around
    the verb does not change it; the verbs that are refused are exactly
    those of whitespace only. *)
Theorem build_url_trimmed (verb : str) :
  build_url urlencode_v (strip verb) = build_url urlencode_v verb
  /\ (forallb is_space verb = true <->
      build_url urlencode_v verb = inr (ValueError (u "Empty verb provided.")))
  /\ (forallb is_space verb = false <->
      build_url urlencode_v verb
      = inl (BASE ++ u "?" ++ urlencode_v (strip verb))).
Proof.
  split; [|split].
  - unfold build_url. rewrite strip_idempotent. reflexivity.
  - rewrite build_url_cases. destruct (forallb is_space verb);
      split; congruence.
  - rewrite build_url_cases. destruct (forallb is_space verb);
      split; congruence.
Qed.

Lemma scrape_unfold (strict : bool) (verb : str) (tr : list event) :
  scrape_conjugations lower urlencode_v parse_html net strict verb tr
  = match build_url urlencode_v verb with
    | inr e => (inr e, tr)
    | inl url =>
        match fetch_html net url tr with
        | (inr e, tr1) => (inr e, tr1)
        | (inl html, tr1) =>
            let r := assembled lower parse_html verb url html in
            match _check_expected strict (conjugations r) tr1 with
            | (inr e, tr2) => (inr e, tr2)
            | (inl _, tr2) => (inl r, tr2)
            end
        end
    end.
Proof.
  unfold scrape_conjugations.
  destruct (build_url urlencode_v verb) as [url|e]; [|reflexivity].
  destruct (fetch_html net url tr) as [[html|e] tr1]; [|reflexivity].
  unfold assembled.
  destruct (parse_principal_forms lower (parse_html html)) as [hd soup1].
  cbn [fst snd].
  destruct (parse_conjugations lower soup1) as [table soup2].
  cbn [fst snd conjugations]. reflexivity.
Qed.

Lemma check_expected_trace (strict : bool) (table : conjugations_t)
    (tr : list event) :
  exists new, snd (_check_expected strict table tr) = tr ++ new
              /\ count_gets new = 0%nat
              /\ forall url, ~ In (EvGet url) new.
Proof.
  unfold _check_expected. destruct (nonempty (missing_msgs table)).
  - destruct strict.
    + exists []. rewrite app_nil_r. repeat split. intros url [].
    + eexists. split; [reflexivity|]. split; [reflexivity|].
      intros url [H|[]]. discriminate H.
  - exists []. rewrite app_nil_r. repeat split. intros url [].
Qed.

Lemma check_expected_ok (strict : bool) (table : conjugations_t)
    (tr tr2 : list event) (x : unit) :
  _check_expected strict table tr = (inl x, tr2) ->
  strict = true -> missing_msgs table = [].
Proof.
  unfold _check_expected. intros H ->.
  destruct (missing_msgs table); [reflexivity | discriminate H].
Qed.

(** X19: a result that a scrape returns carries the verb as it was given,
    the URL built from it, the auxiliary inferred from its own table, a
    table that is a dict at every level, and, when the toggle is on, a
    table that has every expected mood and tense. *)
Theorem scrape_result_consistent (strict : bool) (verb : str)
    (tr tr' : list event) (r : scrape_result) :
  scrape_conjugations lower urlencode_v parse_html net strict verb tr
  = (inl r, tr') ->
  queried r = verb
  /\ build_url urlencode_v verb = inl (url r)
  /\ auxiliary r = _detect_auxiliary lower (conjugations r)
  /\ wf_table (conjugations r)
  /\ (strict = true -> covers_expected (conjugations r)).
Proof.
  rewrite scrape_unfold.
  destruct (build_url urlencode_v verb) as [u0|e]; [|discriminate].
  destruct (fetch_html net u0 tr) as [[html|e] tr1]; [|discriminate].
  cbv zeta.
  destruct (_check_expected strict
              (conjugations (assembled lower parse_html verb u0 html)) tr1)
    as [[x|e] tr2] eqn:Ec; [|discriminate].
  intros [= <- <-]. split; [reflexivity|]. split; [reflexivity|].
  split; [reflexivity|]. split.
  - apply parse_conjugations_wf.
  - intros Hs. apply missing_msgs_nil. apply (check_expected_ok _ _ _ _ _ Ec Hs).
Qed.

Lemma scrape_trace (strict : bool) (verb : str) (tr : list event) :
  exists new,
    snd (scrape_conjugations lower urlencode_v parse_html net strict verb tr)
    = tr ++ new
    /\ (count_gets new <= 2)%nat
    /\ forall url, In (EvGet url) new -> build_url urlencode_v verb = inl url.
Proof.
  rewrite scrape_unfold.
  destruct (build_url urlencode_v verb) as [u0|e].
  2:{ exists []. rewrite app_nil_r. split; [reflexivity|].
      split; [apply Nat.le_0_l | intros url []]. }
  destruct (fetch_tries_shape net u0 2 tr) as (m & Hm & Htr & _); [lia|].
  fold (fetch_html net u0 tr) in Htr.
  destruct (fetch_html net u0 tr) as [[html|e] tr1]; cbn [snd] in Htr; subst tr1.
  - cbv zeta.
    destruct (check_expected_trace strict
                (conjugations (assembled lower parse_html verb u0 html))
                (tr ++ events_from u0 0 m)) as (new & Hnew & Hc & Hno).
    exists (events_from u0 0 m ++ new).
    split; [|split].
    + rewrite app_assoc, <- Hnew.
      destruct (_check_expected strict
                  (conjugations (assembled lower parse_html verb u0 html))
                  (tr ++ events_from u0 0 m)) as [[x|e] tr2]; reflexivity.
    + rewrite count_gets_app, events_from_gets, Hc. lia.
    + intros url Hin. apply in_app_or in Hin as [Hin|Hin];
        [|exfalso; apply (Hno url Hin)].
      destruct (events_from_In u0 m 0 _ Hin) as [[= ->]|(n & H & _)];
        [reflexivity | discriminate H].
  - exists (events_from u0 0 m). split; [reflexivity|].
    split; [rewrite events_from_gets; lia|].
    intros url Hin.
    destruct (events_from_In u0 m 0 _ Hin) as [[= ->]|(n & H & _)];
      [reflexivity | discriminate H].
Qed.

(** X20: whatever the verb, the network and the page, a scrape adds at most
    two requests to the run, and each of them goes to the URL built from
    the verb. *)
Theorem scrape_requests (strict : bool) (verb : str) (tr : list event) :
  exists new,
    snd (scrape_conjugations lower urlencode_v parse_html net strict verb tr)
    = tr ++ new
    /\ (count_gets new <= 2)%nat
    /\ forall url, In (EvGet url) new -> build_url urlencode_v verb = inl url.
Proof. exact (scrape_trace strict verb tr). Qed.

End ScrapeMore.

(** ** Narrowing, further *)

Lemma subseq_In {A : Type} (a b : list A) (x : A) :
  subseq a b -> In x a -> In x b.
Proof.
  induction 1 as [|y a b _ IH|y a b _ IH]; simpl; [tauto|tauto|].
  intros [->|H]; auto.
Qed.

Lemma subseq_NoDup {A : Type} (a b : list A) :
  subseq a b -> NoDup b -> NoDup a.
Proof.
  induction 1 as [|y a b Hs IH|y a b Hs IH]; intros Hnd; [constructor| |].
  - inversion Hnd; auto.
  - inversion Hnd as [|? ? Hni Hnd']; subst. constructor; [|auto].
    intros Hin. apply Hni. apply (subseq_In a b y Hs Hin).
Qed.

Lemma subseq_map {A B : Type} (f : A -> B) (a b : list A) :
  subseq a b -> subseq (map f a) (map f b).
Proof. induction 1; simpl; constructor; assumption. Qed.

Lemma filter_idem {A : Type} (f : A -> bool) (l : list A) :
  filter f (filter f l) = filter f l.
Proof.
  apply filter_all. intros x Hx. apply filter_In in Hx as [_ H]. exact H.
Qed.

Section NarrowingMore.
Variable lower : str -> str.

Lemma narrow_persons_idem (pset : option (list str)) (p : dict str) :
  narrow_persons lower pset (narrow_persons lower pset p)
  = narrow_persons lower pset p.
Proof.
  unfold narrow_persons. destruct (set_true pset); [apply filter_idem|reflexivity].
Qed.

Lemma narrow_tenses_idem (tset pset : option (list str)) (l : mood_map_t) :
  narrow_tenses lower tset pset (narrow_tenses lower tset pset l)
  = narrow_tenses lower tset pset l.
Proof.
  unfold narrow_tenses. induction l as [|[t p] l IH]; [reflexivity|].
  cbn [flat_map fst snd]. destruct (rejects lower tset t) eqn:Er; [exact IH|].
  destruct (nonempty (narrow_persons lower pset p)) eqn:En; [|exact IH].
  cbn [app flat_map fst snd]. rewrite Er, narrow_persons_idem, En, IH.
  reflexivity.
Qed.

Lemma narrow_moods_idem (mset tset pset : option (list str))
    (table : conjugations_t) :
  narrow_moods lower mset tset pset (narrow_moods lower mset tset pset table)
  = narrow_moods lower mset tset pset table.
Proof.
  unfold narrow_moods. induction table as [|[m l] table IH]; [reflexivity|].
  cbn [flat_map fst snd]. destruct (rejects lower mset m) eqn:Er; [exact IH|].
  destruct (nonempty (narrow_tenses lower tset pset l)) eqn:En; [|exact IH].
  cbn [app flat_map fst snd]. rewrite Er, narrow_tenses_idem, En, IH.
  reflexivity.
Qed.

Lemma narrow_moods_wf (mset tset pset : option (list str))
    (table : conjugations_t) :
  wf_table table -> wf_table (narrow_moods lower mset tset pset table).
Proof.
  intros [Hwf Hall]. split.
  - apply (subseq_NoDup _ (keys table)); [apply narrow_moods_keys | exact Hwf].
  - intros m ts' Hin. apply narrow_moods_In in Hin as (ts & Hin & _ & -> & _).
    destruct (Hall m ts Hin) as [Hts Hps]. split.
    + apply (subseq_NoDup _ (keys ts)); [apply narrow_tenses_keys | exact Hts].
    + intros t p' Hin'. apply narrow_tenses_In in Hin' as (p & Hp & _ & -> & _).
      apply (subseq_NoDup _ (keys p)); [|apply (Hps t p Hp)].
      apply subseq_map. apply narrow_persons_subseq.
Qed.

Lemma narrow_tenses_after_none (tset pset : option (list str)) (l : mood_map_t) :
  narrow_tenses lower tset pset (narrow_tenses lower None None l)
  = narrow_tenses lower tset pset l.
Proof.
  unfold narrow_tenses. induction l as [|[t p] l IH]; [reflexivity|].
  cbn [flat_map fst snd]. change (rejects lower None t) with false. cbv iota.
  change (narrow_persons lower None p) with p.
  destruct p as [|x p].
  - cbn [nonempty app]. rewrite IH.
    replace (narrow_persons lower pset []) with (@nil (str * str))
      by (unfold narrow_persons; destruct (set_true pset); reflexivity).
    destruct (rejects lower tset t); reflexivity.
  - cbn [nonempty app flat_map fst snd]. rewrite IH. reflexivity.
Qed.

Lemma narrow_tenses_after_tense (tset pset : option (list str)) (l : mood_map_t) :
  narrow_tenses lower None pset (narrow_tenses lower tset None l)
  = narrow_tenses lower tset pset l.
Proof.
  unfold narrow_tenses. induction l as [|[t p] l IH]; [reflexivity|].
  cbn [flat_map fst snd]. change (narrow_persons lower None p) with p.
  destruct (rejects lower tset t); [exact IH|].
  destruct p as [|x p].
  - cbn [nonempty app]. rewrite IH.
    replace (narrow_persons lower pset []) with (@nil (str * str))
      by (unfold narrow_persons; destruct (set_true pset); reflexivity).
    reflexivity.
  - cbn [nonempty app flat_map fst snd].
    change (rejects lower None t) with false. cbv iota. rewrite IH. reflexivity.
Qed.

Lemma narrow_moods_after_mood (mset tset pset : option (list str))
    (table : conjugations_t) :
  narrow_moods lower None tset pset (narrow_moods lower mset None None table)
  = narrow_moods lower mset tset pset table.
Proof.
  unfold narrow_moods. induction table as [|[m l] table IH]; [reflexivity|].
  cbn [flat_map fst snd]. destruct (rejects lower mset m); [exact IH|].
  destruct (narrow_tenses lower None None l) as [|x l1] eqn:E.
  - cbn [nonempty app]. rewrite IH.
    rewrite <- (narrow_tenses_after_none tset pset l), E. reflexivity.
  - cbn [nonempty app flat_map fst snd].
    change (rejects lower None m) with false. cbv iota.
    rewrite <- E, narrow_tenses_after_none, IH. reflexivity.
Qed.

Lemma narrow_moods_after_tense (tset pset : option (list str))
    (table : conjugations_t) :
  narrow_moods lower None None pset (narrow_moods lower None tset None table)
  = narrow_moods lower None tset pset table.
Proof.
  unfold narrow_moods. induction table as [|[m l] table IH]; [reflexivity|].
  cbn [flat_map fst snd]. change (rejects lower None m) with false. cbv iota.
  destruct (narrow_tenses lower tset None l) as [|x l1] eqn:E.
  - cbn [nonempty app]. rewrite IH.
    rewrite <- (narrow_tenses_after_tense tset pset l), E. reflexivity.
  - cbn [nonempty app flat_map fst snd].
    change (rejects lower None m) with false. cbv iota.
    rewrite <- E, narrow_tenses_after_tense, IH. reflexivity.
Qed.

Lemma apply_filters_conjugations (d : scrape_result)
    (moods tenses persons : option str) :
  wf_table (conjugations d) ->
  conjugations (apply_filters lower d moods tenses persons false)
  = narrow_moods lower (_to_set lower moods) (_to_set lower tenses)
      (_to_set lower persons) (conjugations d).
Proof.
  intros H. unfold apply_filters. cbn [conjugations].
  apply filter_moods_narrow. exact H.
Qed.

Lemma apply_filters_eq (d : scrape_result) (moods tenses persons : option str)
    (table : conjugations_t) :
  conjugations (apply_filters lower d moods tenses persons false) = table ->
  apply_filters lower d moods tenses persons false
  = mk_scrape_result (queried d) (url d) (model d) (principal_forms d)
      (auxiliary d) table.
Proof. unfold apply_filters. cbn [conjugations]. intros ->. reflexivity. Qed.

(** X21: narrowing is idempotent: on a table that is a dict at every level,
    the narrowed table is again such a table, and narrowing it once more
    with the same selections changes nothing. *)
Theorem apply_filters_idempotent (d : scrape_result)
    (moods tenses persons : option str) :
  wf_table (conjugations d) ->
  wf_table (conjugations (apply_filters lower d moods tenses persons false))
  /\ apply_filters lower
       (apply_filters lower d moods tenses persons false)
       moods tenses persons false
     = apply_filters lower d moods tenses persons false.
Proof.
  intros Hwf.
  assert (Hwf' : wf_table
            (conjugations (apply_filters lower d moods tenses persons false))).
  { rewrite (apply_filters_conjugations d moods tenses persons Hwf).
    apply narrow_moods_wf. exact Hwf. }
  split; [exact Hwf'|].
  rewrite (apply_filters_eq _ moods tenses persons _
             (apply_filters_conjugations _ moods tenses persons Hwf')).
  rewrite (apply_filters_conjugations d moods tenses persons Hwf).
  rewrite narrow_moods_idem.
  rewrite (apply_filters_eq d moods tenses persons _
             (apply_filters_conjugations d moods tenses persons Hwf)).
  reflexivity.
Qed.

(** X22: narrowing by moods, then the result by tenses, then that result by
    persons gives what one narrowing by all three gives. *)
Theorem apply_filters_in_stages (d : scrape_result)
    (moods tenses persons : option str) :
  wf_table (conjugations d) ->
  apply_filters lower
    (apply_filters lower
       (apply_filters lower d moods None None false)
       None tenses None false)
    None None persons false
  = apply_filters lower d moods tenses persons false.
Proof.
  intros Hwf.
  pose proof (apply_filters_conjugations d moods None None Hwf) as H1.
  assert (Hwf1 : wf_table
            (conjugations (apply_filters lower d moods None None false)))
    by (rewrite H1; apply narrow_moods_wf; exact Hwf).
  pose proof (apply_filters_conjugations _ None tenses None Hwf1) as H2.
  assert (Hwf2 : wf_table
            (conjugations
               (apply_filters lower
                  (apply_filters lower d moods None None false)
                  None tenses None false)))
    by (rewrite H2; apply narrow_moods_wf; exact Hwf1).
  pose proof (apply_filters_conjugations _ None None persons Hwf2) as H3.
  rewrite (apply_filters_eq _ None None persons _ H3).
  rewrite H2, H1. cbn [_to_set].
  rewrite narrow_moods_after_tense, narrow_moods_after_mood.
  rewrite (apply_filters_eq d moods tenses persons _
             (apply_filters_conjugations d moods tenses persons Hwf)).
  reflexivity.
Qed.

End NarrowingMore.

(** ** The endpoint and the command line *)

Section CallersFacts.
Variable lower : str -> str.
Variable urlencode_v : str -> str.
Variable parse_html : str -> node.
Variable net : nat -> str -> net_outcome.
Variable STRICT_CHECKS : bool.
Variable API_KEY : option str.
Variable validation_msg :
  str -> option (list str) -> option (list str) -> option (list str) -> str.
Variable json_dumps : scrape_result -> str.

Lemma key_refused_false (x_api_key : option str) :
  key_refused API_KEY x_api_key = false <->
  exists key, API_KEY = Some key /\ key <> [] /\ x_api_key = Some key.
Proof.
  unfold key_refused. split.
  - destruct API_KEY as [key|]; [|discriminate].
    intros H. apply orb_false_iff in H as [Hk Hx].
    exists key. split; [reflexivity|]. split.
    + intros ->. discriminate Hk.
    + destruct x_api_key as [k|]; [|discriminate].
      apply negb_false_iff, str_eqb_eq in Hx. congruence.
  - intros (key & -> & Hne & ->). rewrite str_eqb_refl.
    destruct key; [congruence | reflexivity].
Qed.

Lemma answer_returns (req : ConjugateQuery) (tr : list event) :
  exists body,
    fst (answer lower urlencode_v parse_html net STRICT_CHECKS req tr)
    = Returned body.
Proof.
  unfold answer.
  destruct (scrape_conjugations lower urlencode_v parse_html net STRICT_CHECKS
              (q_v req) tr) as [[scraped|e] tr1]; [|eexists; reflexivity].
  destruct (nonempty (conjugations scraped)); [|eexists; reflexivity].
  destruct (nonempty (conjugations (apply_filters lower scraped _ _ _ _)));
    eexists; reflexivity.
Qed.

Lemma answer_trace (req : ConjugateQuery) (tr : list event) :
  snd (answer lower urlencode_v parse_html net STRICT_CHECKS req tr)
  = snd (scrape_conjugations lower urlencode_v parse_html net STRICT_CHECKS
           (q_v req) tr).
Proof.
  unfold answer.
  destruct (scrape_conjugations lower urlencode_v parse_html net STRICT_CHECKS
              (q_v req) tr) as [[scraped|e] tr1]; [|reflexivity].
  destruct (nonempty (conjugations scraped)); [|reflexivity].
  destruct (nonempty (conjugations (apply_filters lower scraped _ _ _ _)));
    reflexivity.
Qed.

(** X23: the endpoint answers 401 exactly when the server has no key, or an
    empty one, or the header is missing or differs from the key; it then
    validates nothing and sends no request.  A server without a key refuses
    every call. *)
Theorem conjugate_key_gate (v : str) (full : bool)
    (moods tenses persons x_api_key : option str) (tr : list event) :
  let out := conjugate lower urlencode_v parse_html net STRICT_CHECKS API_KEY
               validation_msg v full moods tenses persons x_api_key tr in
  ((exists c d, fst out = HTTPException c d) <->
   ~ exists key, API_KEY = Some key /\ key <> [] /\ x_api_key = Some key)
  /\ (forall c d, fst out = HTTPException c d -> c = 401%nat /\ snd out = tr)
  /\ (API_KEY = None ->
      out = (HTTPException 401 (u "Invalid or missing X-API-Key"), tr)).
Proof.
  intros out. unfold out, conjugate.
  destruct (key_refused API_KEY x_api_key) eqn:Ek.
  - split; [|split].
    + split; [|intros _; eexists; eexists; reflexivity].
      intros _ H. apply key_refused_false in H. congruence.
    + intros c d [= <- _]. auto.
    + reflexivity.
  - assert (Hno : forall c d,
      fst (if query_ok v (_csv_to_list moods) (_csv_to_list tenses)
                (_csv_to_list persons)
           then answer lower urlencode_v parse_html net STRICT_CHECKS
                  (mk_ConjugateQuery v full (_csv_to_list moods)
                     (_csv_to_list tenses) (_csv_to_list persons)) tr
           else (JSONResponse 400
                   (mk_APIResponse false None None
                      (Some (validation_msg v (_csv_to_list moods)
                               (_csv_to_list tenses) (_csv_to_list persons)))
                      None), tr))
      <> HTTPException c d).
    { intros c d. destruct (query_ok _ _ _ _); [|discriminate].
      destruct (answer_returns
                  (mk_ConjugateQuery v full (_csv_to_list moods)
                     (_csv_to_list tenses) (_csv_to_list persons)) tr)
        as [body ->]. discriminate. }
    split; [|split].
    + split.
      * intros (c & d & H). exfalso. apply (Hno c d H).
      * intros H. exfalso. apply H. apply key_refused_false. exact Ek.
    + intros c d H. exfalso. apply (Hno c d H).
    + intros Hk. apply key_refused_false in Ek as (key & Hkey & _). congruence.
Qed.

(** X24: what a call of the endpoint leaves behind: at most two requests;
    a 400 carries a failure with an error and no data and follows no
    request; a returned body names the request, is a success exactly when
    it carries data, carries an error when it is a failure, and carries the
    note exactly when its data has an empty table. *)
Theorem conjugate_reply_shape (v : str) (full : bool)
    (moods tenses persons x_api_key : option str) (tr : list event) :
  let out := conjugate lower urlencode_v parse_html net STRICT_CHECKS API_KEY
               validation_msg v full moods tenses persons x_api_key tr in
  (exists new, snd out = tr ++ new /\ (count_gets new <= 2)%nat)
  /\ match fst out with
     | HTTPException c _ => c = 401%nat /\ snd out = tr
     | JSONResponse c b =>
         c = 400%nat /\ snd out = tr /\ success b = false
         /\ error b <> None /\ data b = None
     | Returned b =>
         requested b <> None
         /\ (success b = true <-> data b <> None)
         /\ (success b = false -> error b <> None)
         /\ (forall d, data b = Some d ->
               (note b <> None <-> conjugations d = []))
     end.
Proof.
  intros out. unfold out, conjugate.
  destruct (key_refused API_KEY x_api_key).
  { split; [exists []; rewrite app_nil_r; split; [reflexivity | apply Nat.le_0_l]|].
    cbn [fst snd]. auto. }
  destruct (query_ok v (_csv_to_list moods) (_csv_to_list tenses)
              (_csv_to_list persons)).
  2:{ split;
        [exists []; rewrite app_nil_r; split; [reflexivity | apply Nat.le_0_l]|].
      cbn [fst snd success error data]. repeat split; discriminate. }
  set (req := mk_ConjugateQuery v full (_csv_to_list moods)
                (_csv_to_list tenses) (_csv_to_list persons)).
  split.
  - rewrite answer_trace.
    destruct (scrape_trace lower urlencode_v parse_html net STRICT_CHECKS
                (q_v req) tr) as (new & Hnew & Hc & _).
    exists new. auto.
  - unfold answer.
    destruct (scrape_conjugations lower urlencode_v parse_html net
                STRICT_CHECKS (q_v req) tr) as [[scraped|e] tr1].
    + destruct (nonempty (conjugations scraped)) eqn:E1.
      * set (filtered := apply_filters lower scraped _ _ _ _).
        destruct (nonempty (conjugations filtered)) eqn:E2;
          cbn [fst requested success data error note].
        -- split; [discriminate|]. split; [split; [discriminate | reflexivity]|].
           split; [discriminate|]. intros d [= <-].
           split; [intros H; congruence|].
           intros H. rewrite H in E2. discriminate.
        -- split; [discriminate|]. split; [split; [discriminate | reflexivity]|].
           split; [discriminate|]. intros d [= <-].
           split; [intros _|discriminate].
           destruct (conjugations filtered); [reflexivity | discriminate].
      * cbn [fst requested success data error note].
        split; [discriminate|]. split; [split; [discriminate | congruence]|].
        split; [discriminate|]. intros d H. discriminate H.
    + cbn [fst requested success data error note].
      split; [discriminate|]. split; [split; [discriminate | congruence]|].
      split; [discriminate|]. intros d H. discriminate H.
Qed.

End CallersFacts.

Section CallersMore.
Variable lower : str -> str.
Variable urlencode_v : str -> str.
Variable parse_html : str -> node.
Variable net : nat -> str -> net_outcome.
Variable STRICT_CHECKS : bool.
Variable API_KEY : option str.
Variable validation_msg :
  str -> option (list str) -> option (list str) -> option (list str) -> str.
Variable json_dumps : scrape_result -> str.

Lemma conjugate_accepted (v : str) (full : bool)
    (moods tenses persons x_api_key : option str) (tr : list event) :
  key_refused API_KEY x_api_key = false ->
  conjugate lower urlencode_v parse_html net STRICT_CHECKS API_KEY
    validation_msg v full moods tenses persons x_api_key tr
  = if query_ok v (_csv_to_list moods) (_csv_to_list tenses)
         (_csv_to_list persons)
    then answer lower urlencode_v parse_html net STRICT_CHECKS
           (mk_ConjugateQuery v full (_csv_to_list moods) (_csv_to_list tenses)
              (_csv_to_list persons)) tr
    else (JSONResponse 400
            (mk_APIResponse false None None
               (Some (validation_msg v (_csv_to_list moods)
                        (_csv_to_list tenses) (_csv_to_list persons)))
               None), tr).
Proof. unfold conjugate. intros ->. reflexivity. Qed.

(** X25: with the [full] flag a call whose key and selections are accepted
    returns the scraped result as it is, whatever the selections say: the
    selections are checked and then not used. *)
Theorem conjugate_full_ignores_selections (v : str)
    (moods tenses persons x_api_key : option str) (tr tr1 : list event)
    (r : scrape_result) :
  key_refused API_KEY x_api_key = false ->
  query_ok v (_csv_to_list moods) (_csv_to_list tenses) (_csv_to_list persons)
  = true ->
  scrape_conjugations lower urlencode_v parse_html net STRICT_CHECKS v tr
  = (inl r, tr1) ->
  conjugations r <> [] ->
  conjugate lower urlencode_v parse_html net STRICT_CHECKS API_KEY
    validation_msg v true moods tenses persons x_api_key tr
  = (Returned
       (mk_APIResponse true
          (Some (mk_ConjugateQuery v true (_csv_to_list moods)
                   (_csv_to_list tenses) (_csv_to_list persons)))
          None None (Some r)),
     tr1).
Proof.
  intros Hk Hq Hs Hne. rewrite (conjugate_accepted _ _ _ _ _ _ _ Hk), Hq.
  unfold answer. cbn [q_v q_full]. rewrite Hs. unfold apply_filters.
  destruct (conjugations r) eqn:E; [congruence|]. reflexivity.
Qed.

(** X26: a call whose key is accepted is answered 400 exactly when the
    request does not validate, and then nothing is fetched; a [persons]
    parameter that spells a third-person label of [Person] never validates,
    because the label is cut at its commas first. *)
Theorem conjugate_validation (v : str) (full : bool)
    (moods tenses persons x_api_key : option str) (tr : list event) :
  key_refused API_KEY x_api_key = false ->
  let out := conjugate lower urlencode_v parse_html net STRICT_CHECKS API_KEY
               validation_msg v full moods tenses persons x_api_key tr in
  ((exists c b, fst out = JSONResponse c b) <->
   query_ok v (_csv_to_list moods) (_csv_to_list tenses) (_csv_to_list persons)
   = false)
  /\ (forall c b, fst out = JSONResponse c b -> c = 400%nat /\ snd out = tr)
  /\ (persons = Some (u "lui, lei, Lei, egli")
      \/ persons = Some (u "loro, Loro, essi") ->
      exists b, out = (JSONResponse 400 b, tr)).
Proof.
  intros Hk out. unfold out. rewrite (conjugate_accepted _ _ _ _ _ _ _ Hk).
  destruct (query_ok v (_csv_to_list moods) (_csv_to_list tenses)
              (_csv_to_list persons)) eqn:Eq.
  - destruct (answer_returns lower urlencode_v parse_html net STRICT_CHECKS
                (mk_ConjugateQuery v full (_csv_to_list moods)
                   (_csv_to_list tenses) (_csv_to_list persons)) tr)
      as [body Hb].
    split; [|split].
    + split; [|discriminate]. intros (c & b & H). rewrite Hb in H. discriminate H.
    + intros c b H. rewrite Hb in H. discriminate H.
    + intros Hp. exfalso. unfold query_ok in Eq.
      destruct Hp as [-> | ->];
        (replace (literals_ok Person_values (_csv_to_list (Some _))) with false
           in Eq by reflexivity);
        rewrite andb_false_r in Eq; discriminate Eq.
  - split; [|split].
    + split; [reflexivity|]. intros _. eexists; eexists; reflexivity.
    + intros c b [= <- _]. auto.
    + intros _. eexists. reflexivity.
Qed.




End CallersMore.

(** * The properties on the sample data *)

(** ** The cell line splitter *)

Example lines_ho_messo :
  fst (lines_from_td_br_only td_messo) = [u "ho messo"].
Proof. reflexivity. Qed.

Example lines_a_b : fst (lines_from_td_br_only td_a_b) = [u "a"; u "b"].
Proof. reflexivity. Qed.

Example lines_only_br : fst (lines_from_td_br_only td_br) = [].
Proof. reflexivity. Qed.

Example lines_ho_messo_logical :
  fst (lines_from_td_br_only td_messo) = logical_lines td_messo.
Proof.
  apply lines_only_at_br. intros s Hs. simpl in Hs.
  destruct Hs as [[= <-]|[[= <-]|[[= <-]|[]]]]; simpl; intuition discriminate.
Qed.

(** C1: a cell whose one string spells the sentinel has no line break and
    one logical line, and the splitter returns two lines for it. *)
Theorem lines_sentinel_collision :
  cell_pieces td_sentinel = [PText (u "a<<<BR>>>b")]
  /\ logical_lines td_sentinel = [u "a<<<BR>>>b"]
  /\ fst (lines_from_td_br_only td_sentinel) = [u "a"; u "b"]
  /\ fst (lines_from_td_br_only td_sentinel) <> logical_lines td_sentinel.
Proof. repeat split. discriminate. Qed.

(** ** The canonical order of persons *)

Lemma persons_voi_io_tu_wf : wf_dict persons_voi_io_tu.
Proof.
  unfold wf_dict. simpl.
  repeat (constructor; [simpl; intuition discriminate|]). constructor.
Defined.

Lemma ordered_tense_map_witness :
  _ordered_tense_map persons_voi_io_tu (u "indicativo") (u "presente")
    = canonical_part (desired_order (u "indicativo")) persons_voi_io_tu
        ++ remaining_part (desired_order (u "indicativo")) persons_voi_io_tu
  /\ Permutation persons_voi_io_tu
       (_ordered_tense_map persons_voi_io_tu (u "indicativo") (u "presente"))
  /\ List.length (desired_order (u "indicativo")) = 6%nat.
Proof.
  apply (ordered_tense_map_permutes persons_voi_io_tu (u "indicativo")
           (u "presente")).
  exact persons_voi_io_tu_wf.
Defined.

Example ordered_voi_io_tu :
  keys (_ordered_tense_map persons_voi_io_tu (u "indicativo") (u "presente"))
  = [u "io"; u "tu"; u "voi"].
Proof. reflexivity. Qed.

(** ** The auxiliary *)

Lemma detect_auxiliary_witness :
  (_detect_auxiliary lower_latin1 table_essere = Some (u "essere") <->
     exists f, io_passato_prossimo table_essere = Some f
               /\ startswith_any (lower_latin1 f) essere_prefixes = true)
  /\ (_detect_auxiliary lower_latin1 table_essere = Some (u "avere") <->
       exists f, io_passato_prossimo table_essere = Some f
                 /\ startswith_any (lower_latin1 f) avere_prefixes = true)
  /\ (_detect_auxiliary lower_latin1 table_essere = None <->
       forall f, io_passato_prossimo table_essere = Some f ->
                 startswith_any (lower_latin1 f) essere_prefixes = false
                 /\ startswith_any (lower_latin1 f) avere_prefixes = false)
  /\ (io_passato_prossimo table_essere = None ->
      _detect_auxiliary lower_latin1 table_essere = None).
Proof.
  apply (detect_auxiliary_by_prefix lower_latin1). reflexivity.
Defined.

Example auxiliary_essere :
  _detect_auxiliary lower_latin1 table_essere = Some (u "essere").
Proof. reflexivity. Qed.

Example auxiliary_avere :
  _detect_auxiliary lower_latin1 table_avere = Some (u "avere").
Proof. reflexivity. Qed.

Example auxiliary_missing_path : _detect_auxiliary lower_latin1 [] = None.
Proof. reflexivity. Qed.

(** ** Fetching and the orchestrator *)

Lemma fetch_html_witness :
  (exists n, (n <= 2)%nat
     /\ ends_after net_down (u "x") 2 2 [] (fetch_html net_down (u "x") []) n
     /\ snd (fetch_html net_down (u "x") []) = [] ++ attempt_events (u "x") n)
  /\ (forall tries, (1 <= tries)%nat ->
        exists n,
          ends_after net_down (u "x") tries tries []
            (fetch_html_tries net_down (u "x") tries []) n
          /\ snd (fetch_html_tries net_down (u "x") tries [])
             = [] ++ attempt_events (u "x") n).
Proof. exact (fetch_html_bounded net_down (u "x") []). Defined.

Example fetch_both_fail :
  fetch_html net_down (u "x") []
  = (inr (RequestException (u "timed out")),
     [EvGet (u "x"); EvSleep 1; EvGet (u "x")]).
Proof. reflexivity. Qed.

Example fetch_first_succeeds :
  fetch_html (net_ok (u "page")) (u "x") [] = (inl (u "page"), [EvGet (u "x")]).
Proof. reflexivity. Qed.

Example fetch_four_tries :
  snd (fetch_html_tries net_down (u "x") 4 [])
  = [EvGet (u "x"); EvSleep 1; EvGet (u "x"); EvSleep 2; EvGet (u "x");
     EvSleep 3; EvGet (u "x")].
Proof. reflexivity. Qed.

Lemma scrape_empty_verb_witness :
  scrape_conjugations lower_latin1 sample_urlencode (fun _ => page_parlare)
    (net_ok (u "page")) false (u "   ") []
  = (inr (ValueError (u "Empty verb provided.")), [])
  /\ count_gets
       (snd (scrape_conjugations lower_latin1 sample_urlencode
               (fun _ => page_parlare) (net_ok (u "page")) false (u "   ") []))
     = count_gets [].
Proof.
  apply (scrape_empty_verb lower_latin1 sample_urlencode (fun _ => page_parlare)
           (net_ok (u "page")) false (u "   ") []).
  reflexivity.
Defined.

Example scrape_empty_string :
  scrape_conjugations lower_latin1 sample_urlencode (fun _ => page_parlare)
    (net_ok (u "page")) false [] []
  = (inr (ValueError (u "Empty verb provided.")), []).
Proof. reflexivity. Qed.

Lemma check_expected_witness :
  let url := BASE ++ u "?" ++ sample_urlencode (u "parlare") in
  let r :=
    assembled lower_latin1 (fun _ => page_parlare) (u "parlare") url (u "page") in
  fst (scrape_conjugations lower_latin1 sample_urlencode (fun _ => page_parlare)
         (net_ok (u "page")) false (u "parlare") []) = inl r
  /\ conjugations r
     = [(u "indicativo", [(u "presente", [(u "io", u "parlo")])])]
  /\ auxiliary r = None.
Proof.
  intros url r.
  destruct (check_expected_strict_only lower_latin1 sample_urlencode
              (fun _ => page_parlare) (net_ok (u "page")) false (u "parlare") url
              (u "page") [] [EvGet url] eq_refl eq_refl)
    as (_ & _ & Hoff & _).
  destruct (Hoff eq_refl) as (Hr & _).
  split; [exact Hr|]. split; reflexivity.
Defined.

Example scrape_strict_fails :
  fst (scrape_conjugations lower_latin1 sample_urlencode (fun _ => page_parlare)
         (net_ok (u "page")) true (u "parlare") [])
  = inr (AssertionError
           (join (u " | ")
              (missing_msgs
                 [(u "indicativo", [(u "presente", [(u "io", u "parlo")])])]))).
Proof. reflexivity. Qed.

(** ** The principal forms and the conjugation tables *)

Example principal_forms_shorter_values :
  h_forms (fst (parse_principal_forms lower_latin1 page_two_tables))
  = [(u "infinito", u "parlare"); (u "gerundio", u "parlando");
     (u "forma pronominale", [])]
  /\ h_model (fst (parse_principal_forms lower_latin1 page_two_tables))
     = Some (u "parlare").
Proof. split; reflexivity. Qed.

Example principal_forms_no_table :
  h_forms (fst (parse_principal_forms lower_latin1 page_parlare)) = [].
Proof. reflexivity. Qed.

Example pronominal_arrow :
  paired_value [u "parlarsi " ++ [ARROW]] 0 (u "forma pronominale")
  = u "parlarsi".
Proof. reflexivity. Qed.

Lemma parse_conjugations_witness :
  tense_table (fst (parse_conjugations lower_latin1 page_two_tables))
    (u "indicativo") (u "presente")
  = Some [(u "tu", u "parli tu")].
Proof.
  destruct (parse_conjugations_last_wins lower_latin1 page_two_tables
              (u "indicativo") (u "presente")) as (_ & Hlast & _).
  apply (Hlast [(u "indicativo", u "presente",
                  [(u "io", u "parlo"); (u "tu", u "parli")])]
           [(u "tu", u "parli tu")] []).
  - reflexivity.
  - intros p [].
Defined.

Example later_table_replaces :
  parsed_tables lower_latin1 page_two_tables
  = [(u "indicativo", u "presente",
       [(u "io", u "parlo"); (u "tu", u "parli")]);
     (u "indicativo", u "presente", [(u "tu", u "parli tu")])]
  /\ fst (parse_conjugations lower_latin1 page_two_tables)
     = [(u "indicativo", [(u "presente", [(u "tu", u "parli tu")])])].
Proof. split; reflexivity. Qed.

Lemma principal_forms_witness :
  dict_get (h_forms (fst (parse_principal_forms lower_latin1 page_two_tables)))
    (u "forma pronominale") = Some []
  /\ dict_get (h_forms (fst (parse_principal_forms lower_latin1 page_two_tables)))
       (u "gerundio") = Some (u "parlando").
Proof.
  destruct (principal_forms_paired lower_latin1 page_two_tables)
    as (_ & _ & _ & Hpos & Hshort & _).
  split.
  - apply (Hshort 2%nat); [reflexivity | simpl; lia].
  - apply (Hpos 1%nat (u "gerundio")); [reflexivity|].
    intros j Hj. destruct j as [|[|[|j]]]; try lia; simpl; try discriminate.
    destruct j; discriminate.
Defined.

(** ** Narrowing *)

Lemma data_io_tu_wf : wf_table (conjugations data_io_tu).
Proof.
  split.
  - unfold wf_dict; simpl. repeat constructor. simpl; tauto.
  - intros m tenses [[= <- <-]|[]]. split.
    + unfold wf_dict; simpl. repeat constructor. simpl; tauto.
    + intros t persons [[= <- <-]|[]]. unfold wf_dict; simpl.
      repeat (constructor; [simpl; intuition discriminate|]). constructor.
Defined.

Lemma apply_filters_witness :
  apply_filters lower_latin1 data_io_tu
    (Some (u "Indicativo")) (Some (u " presente ,")) (Some (u "IO, tu")) false
  = data_io_tu.
Proof.
  destruct (apply_filters_narrows lower_latin1 data_io_tu
              (Some (u "Indicativo")) (Some (u " presente ,")) (Some (u "IO, tu")))
    as (_ & _ & H).
  destruct (H data_io_tu_wf) as (_ & _ & _ & _ & Hall & _).
  apply Hall.
  - intros m tenses [[= <- <-]|[]]. split; [discriminate|].
    intros t persons [[= <- <-]|[]]. discriminate.
  - intros _ k [<-|[]]. reflexivity.
  - intros _ k [<-|[]]. reflexivity.
  - intros _ k [<-|[<-|[]]]; reflexivity.
Defined.

Example empty_tense_is_parsed :
  fst (parse_conjugations lower_latin1 page_empty_tense)
  = conjugations data_empty_tense.
Proof. reflexivity. Qed.

(** C7, as stated, fails: the selections that name every key of the table
    drop the tense that has no persons. *)
Lemma narrowing_all_keys_drops_empty_tense :
  conjugations (narrowed_by_all_keys lower_latin1 data_empty_tense)
  = [(u "indicativo", [(u "presente", [(u "io", u "parlo")])])]
  /\ conjugations (narrowed_by_all_keys lower_latin1 data_empty_tense)
     <> conjugations data_empty_tense.
Proof. split; [reflexivity | discriminate]. Qed.

(** A person label that holds commas cannot be named in a selection: the
    selections that name every key lose the third person. *)
Example narrowing_all_keys_drops_comma_label :
  conjugations (narrowed_by_all_keys lower_latin1 data_comma_label)
  = [(u "indicativo", [(u "presente", [(u "io", u "parlo")])])].
Proof. reflexivity. Qed.

(** An empty selection is no selection: it takes none of the keys and leaves
    the table whole. *)
Example narrowing_empty_selection :
  apply_filters lower_latin1 data_io_tu (csv_of []) (Some (u " , ")) None false
  = data_io_tu.
Proof. reflexivity. Qed.

Example narrowing_disjoint_mood :
  conjugations
    (apply_filters lower_latin1 data_io_tu (Some (u "congiuntivo")) None None false)
  = [].
Proof. reflexivity. Qed.

Example narrowing_person :
  conjugations
    (apply_filters lower_latin1 data_io_tu None None (Some (u "TU")) false)
  = [(u "indicativo", [(u "presente", [(u "tu", u "parli")])])].
Proof. reflexivity. Qed.

(** ** The text normalizer *)

Example norm_spaces_nbsp :
  _norm_spaces ([NBSP] ++ u "ho" ++ [NBSP; 0x09; 0x0a] ++ u "messo ")
  = u "ho messo".
Proof. reflexivity. Qed.

(** ** Further properties on the sample data *)

Example csv_to_list_io_tu :
  _csv_to_list (Some (u " IO, tu ,,")) = Some [u "IO"; u "tu"].
Proof. reflexivity. Qed.

Lemma csv_to_list_items_witness :
  Forall selection_item [u "IO"; u "tu"]
  /\ (forall label, In 0x2c label -> ~ In label [u "IO"; u "tu"])
  /\ ~ In (u "lui, lei, Lei, egli") [u "IO"; u "tu"]
  /\ ~ In (u "loro, Loro, essi") [u "IO"; u "tu"].
Proof.
  apply (csv_to_list_items (u " IO, tu ,,") [u "IO"; u "tu"]). reflexivity.
Defined.

Lemma selection_round_trip_witness :
  _to_set lower_latin1 (Some (u " IO, tu ,,")) = Some [u "io"; u "tu"]
  /\ _to_set lower_latin1 (csv_of [u "IO"; u "tu"]) = Some [u "io"; u "tu"]
  /\ forall k,
       rejects lower_latin1 (_to_set lower_latin1 (csv_of [u "IO"; u "tu"])) k
       = rejects lower_latin1 (_to_set lower_latin1 (Some (u " IO, tu ,,"))) k.
Proof.
  apply (selection_round_trip lower_latin1 (u " IO, tu ,,") [u "IO"; u "tu"]).
  reflexivity.
Defined.

Lemma ordered_tense_map_lookup_witness :
  wf_dict (_ordered_tense_map persons_voi_io_tu (u "indicativo") (u "presente"))
  /\ forall k,
       dict_get (_ordered_tense_map persons_voi_io_tu (u "indicativo")
                   (u "presente")) k
       = dict_get persons_voi_io_tu k.
Proof.
  apply (ordered_tense_map_lookup persons_voi_io_tu (u "indicativo")
           (u "presente")).
  exact persons_voi_io_tu_wf.
Defined.

Lemma ordered_tense_map_idempotent_witness :
  _ordered_tense_map
    (_ordered_tense_map persons_voi_io_tu (u "indicativo") (u "presente"))
    (u "indicativo") (u "presente")
  = _ordered_tense_map persons_voi_io_tu (u "indicativo") (u "presente").
Proof.
  apply (ordered_tense_map_idempotent persons_voi_io_tu (u "indicativo")
           (u "presente")).
  exact persons_voi_io_tu_wf.
Defined.

Lemma lines_count_witness :
  (List.length (fst (lines_from_td_br_only td_a_b))
   <= S (count_breaks (cell_pieces td_a_b)))%nat.
Proof.
  apply (lines_count td_a_b). intros s Hs. simpl in Hs.
  destruct Hs as [[= <-]|[H|[[= <-]|[]]]]; [|discriminate H|];
    simpl; intuition discriminate.
Defined.

Lemma parsed_forms_normalized_witness : _norm_spaces (u "parli tu") = u "parli tu".
Proof.
  apply (parsed_forms_normalized lower_latin1 page_two_tables
           (u "indicativo") (u "presente") (u "tu") (u "parli tu")
           [(u "presente", [(u "tu", u "parli tu")])]
           [(u "tu", u "parli tu")]);
    left; reflexivity.
Defined.

Lemma parsed_persons_ordered_witness :
  canonical_ordered (u "indicativo") [(u "tu", u "parli tu")]
  /\ wf_dict [(u "tu", u "parli tu")].
Proof.
  apply (parsed_persons_ordered lower_latin1 page_two_tables
           (u "indicativo") (u "presente")
           [(u "presente", [(u "tu", u "parli tu")])]);
    left; reflexivity.
Defined.

Example headerless_table_under_placeholder :
  fst (parse_conjugations lower_latin1 page_no_header)
  = [(u "indicativo", [(u "?", [(u "io", u "parlo")])])].
Proof. reflexivity. Qed.

Lemma narrowing_a_parsed_table_witness :
  wf_table (conjugations data_parlare)
  /\ conjugations
       (apply_filters lower_latin1 data_parlare None None (Some (u "tu")) false)
     = narrow_moods lower_latin1 (_to_set lower_latin1 None)
         (_to_set lower_latin1 None) (_to_set lower_latin1 (Some (u "tu")))
         (conjugations data_parlare).
Proof.
  apply (narrowing_a_parsed_table lower_latin1 page_parlare data_parlare).
  reflexivity.
Defined.

Lemma scrape_result_consistent_witness :
  queried data_parlare = u "parlare"
  /\ build_url sample_urlencode (u "parlare") = inl (url data_parlare)
  /\ auxiliary data_parlare
     = _detect_auxiliary lower_latin1 (conjugations data_parlare)
  /\ wf_table (conjugations data_parlare)
  /\ (false = true -> covers_expected (conjugations data_parlare)).
Proof.
  apply (scrape_result_consistent lower_latin1 sample_urlencode
           (fun _ => page_parlare) (net_ok (u "page")) false (u "parlare") []
           (snd (scrape_conjugations lower_latin1 sample_urlencode
                   (fun _ => page_parlare) (net_ok (u "page")) false
                   (u "parlare") []))
           data_parlare).
  reflexivity.
Defined.

Lemma apply_filters_idempotent_witness :
  wf_table
    (conjugations
       (apply_filters lower_latin1 data_io_tu None None (Some (u "TU")) false))
  /\ apply_filters lower_latin1
       (apply_filters lower_latin1 data_io_tu None None (Some (u "TU")) false)
       None None (Some (u "TU")) false
     = apply_filters lower_latin1 data_io_tu None None (Some (u "TU")) false.
Proof.
  apply (apply_filters_idempotent lower_latin1 data_io_tu None None
           (Some (u "TU"))).
  exact data_io_tu_wf.
Defined.

Lemma apply_filters_in_stages_witness :
  apply_filters lower_latin1
    (apply_filters lower_latin1
       (apply_filters lower_latin1 data_io_tu (Some (u "indicativo")) None None
          false)
       None (Some (u "presente")) None false)
    None None (Some (u "TU")) false
  = apply_filters lower_latin1 data_io_tu (Some (u "indicativo"))
      (Some (u "presente")) (Some (u "TU")) false.
Proof.
  apply (apply_filters_in_stages lower_latin1 data_io_tu
           (Some (u "indicativo")) (Some (u "presente")) (Some (u "TU"))).
  exact data_io_tu_wf.
Defined.

Lemma conjugate_full_witness :
  fst (conjugate lower_latin1 sample_urlencode (fun _ => page_parlare)
         (net_ok (u "page")) false (Some (u "key")) sample_validation_msg
         (u "parlare") true (Some (u "congiuntivo")) None None
         (Some (u "key")) [])
  = Returned
      (mk_APIResponse true
         (Some (mk_ConjugateQuery (u "parlare") true
                  (Some [u "congiuntivo"]) None None))
         None None (Some data_parlare)).
Proof.
  rewrite (conjugate_full_ignores_selections lower_latin1 sample_urlencode
             (fun _ => page_parlare) (net_ok (u "page")) false (Some (u "key"))
             sample_validation_msg (u "parlare") (Some (u "congiuntivo"))
             None None (Some (u "key")) []
             (snd (scrape_conjugations lower_latin1 sample_urlencode
                     (fun _ => page_parlare) (net_ok (u "page")) false
                     (u "parlare") []))
             data_parlare);
    [reflexivity | reflexivity | reflexivity | reflexivity | discriminate].
Defined.

Lemma conjugate_validation_witness :
  exists b,
    conjugate lower_latin1 sample_urlencode (fun _ => page_parlare)
      (net_ok (u "page")) false (Some (u "key")) sample_validation_msg
      (u "parlare") false None None (Some (u "lui, lei, Lei, egli"))
      (Some (u "key")) []
    = (JSONResponse 400 b, []).
Proof.
  destruct (conjugate_validation lower_latin1 sample_urlencode
              (fun _ => page_parlare) (net_ok (u "page")) false
              (Some (u "key")) sample_validation_msg (u "parlare") false
              None None (Some (u "lui, lei, Lei, egli")) (Some (u "key")) []
              eq_refl) as (_ & _ & H).
  apply H. left. reflexivity.
Defined.

Example conjugate_no_server_key :
  conjugate lower_latin1 sample_urlencode (fun _ => page_parlare)
    (net_ok (u "page")) false None sample_validation_msg
    (u "parlare") true None None None None []
  = (HTTPException 401 (u "Invalid or missing X-API-Key"), []).
Proof. reflexivity. Qed.

Example conjugate_blank_verb :
  conjugate lower_latin1 sample_urlencode (fun _ => page_parlare)
    (net_ok (u "page")) false (Some (u "key")) sample_validation_msg
    (u "  ") true None None None (Some (u "key")) []
  = (Returned
       (mk_APIResponse false
          (Some (mk_ConjugateQuery (u "  ") true None None None))
          None (Some (u "Empty verb provided.")) None),
     []).
Proof. reflexivity. Qed.

Example conjugate_filters_leave_nothing :
  fst (conjugate lower_latin1 sample_urlencode (fun _ => page_parlare)
         (net_ok (u "page")) false (Some (u "key")) sample_validation_msg
         (u "parlare") false (Some (u "congiuntivo")) None None
         (Some (u "key")) [])
  = Returned
      (mk_APIResponse true
         (Some (mk_ConjugateQuery (u "parlare") false
                  (Some [u "congiuntivo"]) None None))
         (Some (u "Scrape OK, but filters returned no items.")) None
         (Some (mk_scrape_result (u "parlare") url_parlare None [] None []))).
Proof. reflexivity. Qed.

Example main_blank_verb :
  main lower_latin1 sample_urlencode (fun _ => page_parlare)
    (net_ok (u "page")) sample_json_dumps [u "main.py"; u "  "] []
  = ((2%nat, [u "[ERROR] Empty verb provided."]), []).
Proof. reflexivity. Qed.

Example main_no_verb :
  main lower_latin1 sample_urlencode (fun _ => page_parlare)
    (net_ok (u "page")) sample_json_dumps [u "main.py"] []
  = ((1%nat, [u "Usage: python main.py <italian_verb>"]), []).
Proof. reflexivity. Qed.

Example main_trims_the_verb :
  fst (main lower_latin1 sample_urlencode (fun _ => page_parlare)
         (net_ok (u "page")) sample_json_dumps [u "main.py"; u " parlare "] [])
  = (0%nat, [u "parlare"]).
Proof. reflexivity. Qed.

Example fetch_no_tries :
  fetch_html_tries (net_ok (u "page")) (u "x") 0 []
  = (inr (TypeError (u "exceptions must derive from BaseException")), []).
Proof. reflexivity. Qed.

Example model_title_without_table :
  h_model (fst (parse_principal_forms lower_latin1
                  (Tag (u "[document]") []
                     [Tag (u "h3") [] [NavigableString (u " parlare ")]])))
  = Some (u "parlare").
Proof. reflexivity. Qed.
